(** * SpaceNet decoding: a shallow embedding of
      [nilearn/decoding/objective_functions.py] and
      [nilearn/decoding/space_net.py]

    Floating point numbers are read as exact numbers: rationals ([Q]) wherever
    the code only uses field operations and comparisons, reals ([R]) where it
    takes logarithms, powers or square roots.  Exceptions raised by the Python
    code are explicit error results; [NonFinite] marks the places where numpy
    goes on with [inf] or [nan] and a [RuntimeWarning], which have no exact
    value. *)

From Stdlib Require Import List String Ascii Bool Arith ZArith QArith Lia Lra Lqa.
From Stdlib Require Import Reals Qreals Sorted Permutation.
Import ListNotations.

Set Implicit Arguments.

(** Linear arithmetic over the reals and over the rationals. *)
Ltac lraR := Lra.lra.
Ltac nraR := Lra.nra.
Ltac lraQ := Lqa.lra.

(** ** Exceptions and results *)

Inductive exn : Type :=
| ValueError (msg : string)
| TypeError (msg : string)
| IndexError (msg : string)
| NameError (msg : string)
| ZeroDivisionError (msg : string)
| AssertionError (msg : string)
| NonFinite (msg : string).

Inductive result (A : Type) : Type :=
| Ok (a : A)
| Raise (e : exn).

Arguments Ok {A} a.
Arguments Raise {A} e.

Definition bind {A B : Type} (m : result A) (k : A -> result B) : result B :=
  match m with
  | Ok a => k a
  | Raise e => Raise e
  end.

Notation "x <- m ;; k" := (bind m (fun x => k))
  (at level 61, m at next level, right associativity).
Notation "m ;;; k" := (bind m (fun _ => k))
  (at level 61, right associativity).

Definition is_ok {A : Type} (m : result A) : bool :=
  match m with Ok _ => true | Raise _ => false end.

Definition is_value_error {A : Type} (m : result A) : bool :=
  match m with Raise (ValueError _) => true | _ => false end.

(** ** Constructor-time validation: [BaseSpaceNet.__init__], [check_params] *)

Module Params.

Local Open Scope string_scope.
Local Open Scope Q_scope.

(** A Python value as far as [check_params] inspects it. *)
Inductive pyval : Type :=
| PyNone
| PyNum (q : Q)
| PyStr (s : string).

(** [isinstance(value, numbers.Number)] *)
Definition is_number (v : pyval) : bool :=
  match v with PyNum _ => true | _ => false end.

Definition is_none (v : pyval) : bool :=
  match v with PyNone => true | _ => false end.

(** [str.lower] on ASCII text. *)
Definition lower_ascii (c : ascii) : ascii :=
  let n := nat_of_ascii c in
  if (65 <=? n)%nat && (n <=? 90)%nat then ascii_of_nat (n + 32) else c.

Fixpoint lower (s : string) : string :=
  match s with
  | EmptyString => EmptyString
  | String c s' => String (lower_ascii c) (lower s')
  end.

Definition str_in (s : string) (l : list string) : bool :=
  existsb (String.eqb s) l.

Definition SUPPORTED_PENALTIES : list string := ["smooth-lasso"; "tv-l1"].
Definition SUPPORTED_LOSSES : list string := ["mse"; "logistic"].

(** The attributes stored by [__init__] that [check_params] reads, together
    with the flags the later stages consult. *)
Record BaseSpaceNet : Type := mkBaseSpaceNet {
  penalty : string;
  is_classif : bool;
  loss : option string;
  alpha : pyval;
  l1_ratio : pyval;
  screening_percentile : Q;
  standardize : bool;
  debias : bool
}.

Inductive warning : Type :=
| L1RatioWarning (l1_ratio : Q).

Definition Qleb (a b : Q) : bool := Qle_bool a b.
Definition Qeqb (a b : Q) : bool := Qeq_bool a b.

(** The loop [for param in ["alpha", "l1_ratio"]]. *)
Definition check_number_or_none (param : string) (value : pyval) : result unit :=
  if negb (is_none value || is_number value)
  then Raise (ValueError ("'" ++ param ++ "' parameter must be None or a float"))
  else Ok tt.

(** [if not 0 <= self.l1_ratio <= 1.: raise ... elif ... : warnings.warn].
    For [None] the comparison [0 <= None] is false in Python 2 and the
    [%g] formatting of the message raises [TypeError]. *)
Definition check_l1_ratio (v : pyval) : result (list warning) :=
  match v with
  | PyNum r =>
      if negb (Qleb 0 r && Qleb r 1)
      then Raise (ValueError "l1_ratio must be in the interval [0, 1]")
      else if Qeqb r 0 || Qeqb r 1
           then Ok [L1RatioWarning r]
           else Ok []
  | PyNone => Raise (TypeError "float argument required, not NoneType")
  | PyStr _ => Raise (ValueError "l1_ratio must be in the interval [0, 1]")
  end.

Definition loss_is (name : string) (l : option string) : bool :=
  match l with
  | None => false
  | Some s => String.eqb (lower s) name
  end.

Definition check_params (self : BaseSpaceNet) : result (list warning) :=
  check_number_or_none "alpha" (alpha self) ;;;
  check_number_or_none "l1_ratio" (l1_ratio self) ;;;
  w <- check_l1_ratio (l1_ratio self) ;;
  (if negb (Qleb 0 (screening_percentile self)
            && Qleb (screening_percentile self) 100)
   then Raise (ValueError "screening_percentile should be in the interval [0, 100]")
   else Ok tt) ;;;
  (if negb (str_in (lower (penalty self)) SUPPORTED_PENALTIES)
   then Raise (ValueError "'penalty' parameter must be one of smooth-lasso or tv-l1")
   else Ok tt) ;;;
  (if negb (match loss self with
            | None => true
            | Some l => str_in (lower l) SUPPORTED_LOSSES
            end)
   then Raise (ValueError "'loss' parameter must be one of mse or logistic")
   else Ok tt) ;;;
  (if negb (match loss self with None => true | Some _ => false end)
      && negb (is_classif self) && loss_is "logistic" (loss self)
   then Raise (ValueError "'logistic' loss is only available for classification problems.")
   else Ok tt) ;;;
  Ok w.

(** [__init__]: store the attributes, then run the sanity check.  The object
    exists only if the check returns. *)
Definition __init__ (penalty : string) (is_classif : bool)
    (loss : option string) (alpha l1_ratio : pyval)
    (screening_percentile : Q) (standardize debias : bool)
  : result (BaseSpaceNet * list warning) :=
  let self := mkBaseSpaceNet penalty is_classif loss alpha l1_ratio
                screening_percentile standardize debias in
  w <- check_params self ;;
  Ok (self, w).

(** The configurations the constructor rejects, names compared exactly as
    the specification lists them. *)
Definition rejected_exact (penalty : string) (is_classif : bool)
    (loss : option string) (r sp : Q) : bool :=
  negb (str_in penalty SUPPORTED_PENALTIES)
  || match loss with
     | None => false
     | Some l => negb (str_in l SUPPORTED_LOSSES)
     end
  || negb (Qleb 0 r && Qleb r 1)
  || negb (Qleb 0 sp && Qleb sp 100)
  || (match loss with Some l => String.eqb l "logistic" | None => false end
      && negb is_classif).

(** The same, names compared after lower-casing, as [check_params] does. *)
Definition rejected (penalty : string) (is_classif : bool)
    (loss : option string) (r sp : Q) : bool :=
  rejected_exact (lower penalty) is_classif (option_map lower loss) r sp.

Definition of_option (a : option Q) : pyval :=
  match a with None => PyNone | Some q => PyNum q end.

Definition expected_warnings (r : Q) : list warning :=
  if Qeqb r 0 || Qeqb r 1 then [L1RatioWarning r] else [].

End Params.

(** [zip]-wise combination of two lists, as numpy combines two arrays of
    one shape. *)
Fixpoint map2 {A B C : Type} (f : A -> B -> C) (a : list A) (b : list B)
  : list C :=
  match a, b with
  | x :: a', y :: b' => f x y :: map2 f a' b'
  | _, _ => []
  end.

(** An elementwise operation on two 1-D arrays under numpy's broadcasting:
    equal lengths, or one of the two of length one. *)
Definition broadcast {A : Type} (f : A -> A -> A) (a b : list A)
  : result (list A) :=
  if (List.length a =? List.length b)%nat then Ok (map2 f a b)
  else match a, b with
       | [x], _ => Ok (map (f x) b)
       | _, [y] => Ok (map (fun x => f x y) a)
       | _, _ => Raise (ValueError "operands could not be broadcast together")
       end.

(** ** Floating point values that leave the rationals

    Scores may be [-inf] (constant weight map) or [nan] (sentinel, undefined
    correlation); arithmetic on them follows IEEE 754 with exact finite
    values. *)

Module Float.

Local Open Scope Q_scope.

Inductive float : Type :=
| Fin (q : Q)
| PosInf
| NegInf
| NaN.

Definition isfinite (x : float) : bool :=
  match x with Fin _ => true | _ => false end.

Definition isnan (x : float) : bool :=
  match x with NaN => true | _ => false end.

Definition add (x y : float) : float :=
  match x, y with
  | NaN, _ | _, NaN => NaN
  | Fin a, Fin b => Fin (a + b)
  | PosInf, NegInf | NegInf, PosInf => NaN
  | PosInf, _ | _, PosInf => PosInf
  | NegInf, _ | _, NegInf => NegInf
  end.

Definition neg (x : float) : float :=
  match x with
  | Fin a => Fin (- a)
  | PosInf => NegInf
  | NegInf => PosInf
  | NaN => NaN
  end.

Definition sub (x y : float) : float := add x (neg y).

(** Division by a positive count. *)
Definition div_nat (x : float) (n : nat) : float :=
  match n with
  | O => NaN
  | S _ =>
      match x with
      | Fin a => Fin (a / inject_Z (Z.of_nat n))
      | other => other
      end
  end.

(** [x >= y], [x > y] and [x == y]; every comparison with [nan] is false. *)
Definition ge (x y : float) : bool :=
  match x, y with
  | NaN, _ | _, NaN => false
  | Fin a, Fin b => Qle_bool b a
  | PosInf, _ => true
  | _, NegInf => true
  | _, _ => false
  end.

Definition gt (x y : float) : bool :=
  match x, y with
  | NaN, _ | _, NaN => false
  | Fin a, Fin b => negb (Qle_bool a b)
  | PosInf, PosInf | NegInf, NegInf => false
  | PosInf, _ => true
  | _, NegInf => true
  | _, _ => false
  end.

Definition eqb (x y : float) : bool :=
  match x, y with
  | Fin a, Fin b => Qeq_bool a b
  | PosInf, PosInf | NegInf, NegInf => true
  | _, _ => false
  end.

(** [np.diff]: [l[i+1] - l[i]]. *)
Fixpoint diff (l : list float) : list float :=
  match l with
  | x :: ((y :: _) as tl) => sub y x :: diff tl
  | _ => []
  end.

Definition sum (l : list float) : float := fold_left add l (Fin 0).

(** [np.mean]; [nan] on an empty list. *)
Definition mean (l : list float) : float := div_nat (sum l) (List.length l).

End Float.

(** ** numpy on lists of rationals *)

Module Np.

Local Open Scope Q_scope.
Local Open Scope string_scope.

Definition Qmax (a b : Q) : Q := if Qle_bool a b then b else a.
Definition Qmin (a b : Q) : Q := if Qle_bool a b then a else b.
Definition Qabs' (a : Q) : Q := if Qle_bool 0 a then a else - a.

(** [a.max()] and [a.min()]: a reduction of a zero-size array raises. *)
Definition max (l : list Q) : result Q :=
  match l with
  | [] => Raise (ValueError "zero-size array to reduction operation maximum")
  | x :: tl => Ok (fold_left Qmax tl x)
  end.

Definition min (l : list Q) : result Q :=
  match l with
  | [] => Raise (ValueError "zero-size array to reduction operation minimum")
  | x :: tl => Ok (fold_left Qmin tl x)
  end.

(** [a.ptp()]: peak to peak, maximum minus minimum. *)
Definition ptp (l : list Q) : result Q :=
  hi <- max l ;;
  lo <- min l ;;
  Ok (hi - lo).

Fixpoint sum (l : list Q) : Q :=
  match l with
  | [] => 0
  | x :: tl => x + sum tl
  end.

(** [np.dot] of two vectors; the lengths must agree. *)
Fixpoint dot_aligned (a b : list Q) : Q :=
  match a, b with
  | x :: a', y :: b' => x * y + dot_aligned a' b'
  | _, _ => 0
  end.

Definition dot (a b : list Q) : result Q :=
  if (List.length a =? List.length b)%nat then Ok (dot_aligned a b)
  else Raise (ValueError "shapes not aligned").

(** [np.dot(X, w)] for a matrix given by its rows. *)
Fixpoint matvec (X : list (list Q)) (w : list Q) : result (list Q) :=
  match X with
  | [] => Ok []
  | row :: X' =>
      v <- dot row w ;;
      vs <- matvec X' w ;;
      Ok (v :: vs)
  end.

(** [a[idx]] for a list of integer positions. *)
Fixpoint take {A : Type} (a : list A) (idx : list nat) : result (list A) :=
  match idx with
  | [] => Ok []
  | i :: idx' =>
      match nth_error a i with
      | None => Raise (IndexError "index out of bounds")
      | Some x => xs <- take a idx' ;; Ok (x :: xs)
      end
  end.

(** [a[:-1]] *)
Definition but_last {A : Type} (a : list A) : list A :=
  firstn (List.length a - 1) a.

(** [a[-k:]] *)
Definition last_k {A : Type} (k : nat) (a : list A) : list A :=
  skipn (List.length a - k) a.

End Np.

(** ** Spatial operators: [objective_functions.py] *)

Module Spatial.

Unset Implicit Arguments.

Local Open Scope string_scope.
Local Open Scope list_scope.
Local Open Scope Q_scope.

(** An N-dimensional array: nested lists, [N] levels deep. *)
Fixpoint arr (n : nat) : Type :=
  match n with
  | O => Q
  | S n' => list (arr n')
  end.

(** A value to read outside an array. *)
Definition blank (n : nat) : arr n :=
  match n with
  | O => 0
  | S _ => []
  end.

(** An array has shape [s]: every level has the length [s] gives it. *)
Fixpoint shaped (n : nat) (s : list nat) : arr n -> Prop :=
  match n with
  | O => fun _ => s = []
  | S n' => fun a =>
      match s with
      | [] => False
      | m :: s' => List.length a = m /\ Forall (shaped n' s') a
      end
  end.

(** [np.zeros(a.shape)] *)
Fixpoint zeros_like (n : nat) : arr n -> arr n :=
  match n with
  | O => fun _ => 0
  | S n' => map (zeros_like n')
  end.

(** Elementwise operations on arrays of one shape. *)
Fixpoint zip_with (n : nat) (f : Q -> Q -> Q) : arr n -> arr n -> arr n :=
  match n with
  | O => f
  | S n' => map2 (zip_with n' f)
  end.

Definition add (n : nat) : arr n -> arr n -> arr n := zip_with n Qplus.
Definition sub (n : nat) : arr n -> arr n -> arr n := zip_with n Qminus.

(** [c * a] *)
Fixpoint scale (n : nat) (c : Q) : arr n -> arr n :=
  match n with
  | O => Qmult c
  | S n' => map (scale n' c)
  end.

Fixpoint sum_list (l : list Q) : Q :=
  match l with
  | [] => 0
  | x :: l' => x + sum_list l'
  end.

(** The inner product [np.sum(a * b)]. *)
Fixpoint inner (n : nat) : arr n -> arr n -> Q :=
  match n with
  | O => Qmult
  | S n' => fun a b => sum_list (map2 (inner n') a b)
  end.

(** Map with the position of each entry. *)
Fixpoint imap_from {A B : Type} (i0 : nat) (f : nat -> A -> B) (l : list A)
  : list B :=
  match l with
  | [] => []
  | x :: l' => f i0 x :: imap_from (S i0) f l'
  end.

Definition imap {A B : Type} (f : nat -> A -> B) (l : list A) : list B :=
  imap_from 0 f l.

(** [target[lo:hi] = f(target[lo:hi], vals)], entry by entry. *)
Definition update_slice {A B : Type} (lo hi : nat) (f : A -> B -> A)
    (vals : list B) (target : list A) : list A :=
  imap (fun i t =>
          if (lo <=? i)%nat && (i <? hi)%nat
          then match nth_error vals (i - lo) with
               | Some v => f t v
               | None => t
               end
          else t)
       target.

(** [np.diff(a, axis=d)]: [a[1:] - a[:-1]] along axis [d]. *)
Fixpoint np_diff (n : nat) (d : nat) : arr n -> arr n :=
  match n with
  | O => fun a => a
  | S n' => fun a =>
      match d with
      | O => map2 (sub n') (tl a) (firstn (List.length a - 1) a)
      | S d' => map (np_diff n' d') a
      end
  end.

(** [target[:, ..., :-1] = vals], the partial slice on axis [d]. *)
Fixpoint set_but_last (n : nat) (d : nat) : arr n -> arr n -> arr n :=
  match n with
  | O => fun target _ => target
  | S n' => fun target vals =>
      match d with
      | O => update_slice 0 (List.length target - 1) (fun _ v => v) vals target
      | S d' => map2 (set_but_last n' d') target vals
      end
  end.

(** One round of the loop of [gradient_id]: the forward differences along
    axis [d], written into a block of zeros. *)
Definition forward_difference (n : nat) (d : nat) (img : arr n) : arr n :=
  set_but_last n d (zeros_like n img) (np_diff n d img).

Definition check_l1_ratio (l1_ratio : Q) : result unit :=
  if Qle_bool 0 l1_ratio && Qle_bool l1_ratio 1 then Ok tt
  else Raise (AssertionError "l1_ratio must be in the interval [0, 1]").

(** [gradient_id]: [img.ndim] difference channels scaled by
    [1 - l1_ratio], then the image scaled by [l1_ratio]. *)
Definition gradient_id (n : nat) (img : arr n) (l1_ratio : Q)
  : result (arr (S n)) :=
  check_l1_ratio l1_ratio ;;;
  let gradient := map (fun d => forward_difference n d img) (seq 0 n) in
  Ok (map (scale n (1 - l1_ratio)) gradient ++ [scale n l1_ratio img]).

(** The three statements of the loop of [div_id] on the leading axis:
    [res[:-1] += g[:-1]; res[1:-1] -= g[:-2];
     if len(g) > 1: res[-1] -= g[-2]]. *)
Definition divergence_step (n : nat) (res g : list (arr n)) : list (arr n) :=
  let m := List.length res in
  let mg := List.length g in
  let res := update_slice 0 (m - 1) (add n) (firstn (mg - 1) g) res in
  let res := update_slice 1 (m - 1) (sub n) (firstn (mg - 2) g) res in
  if (1 <? mg)%nat
  then update_slice (m - 1) m (sub n) (firstn 1 (skipn (mg - 2) g)) res
  else res.

(** The same on axis [d], which [np.rollaxis] brings to the front. *)
Fixpoint divergence_axis (n : nat) (d : nat) : arr n -> arr n -> arr n :=
  match n with
  | O => fun res _ => res
  | S n' => fun res g =>
      match d with
      | O => divergence_step n' res g
      | S d' => map2 (divergence_axis n' d') res g
      end
  end.

(** [for d in range(k)]: the divergence part, axis after axis. *)
Definition divergence_loop (n : nat) (grad : list (arr n)) (k : nat)
    (res : arr n) : arr n :=
  fold_left (fun res d => divergence_axis n d res (nth d grad (blank n)))
            (seq 0 k) res.

(** [div_id] *)
Definition div_id (n : nat) (grad : arr (S n)) (l1_ratio : Q)
  : result (arr n) :=
  check_l1_ratio l1_ratio ;;;
  match rev grad with
  | [] => Raise (IndexError "index -1 is out of bounds for axis 0")
  | grad_last :: _ =>
      let res := zeros_like n (hd (blank n) grad) in
      let res := divergence_loop n grad (List.length grad - 1) res in
      let res := scale n (1 - l1_ratio) res in
      Ok (sub n res (scale n l1_ratio grad_last))
  end.

(** What the three statements of [divergence_step] leave at position [i]
    of [m], from the old entry and the entries [i] and [i - 1] of [g]. *)
Definition step_entry (n : nat) (m i : nat) (r g_i g_prev : arr n) : arr n :=
  if (i <? m - 1)%nat
  then if (1 <=? i)%nat then sub n (add n r g_i) g_prev else add n r g_i
  else if (1 <=? i)%nat then sub n r g_prev else r.

(** [f 0 + ... + f (k - 1)] *)
Fixpoint sum_upto (k : nat) (f : nat -> Q) : Q :=
  match k with
  | O => 0
  | S k' => sum_upto k' f + f k'
  end.

(** The wrappers at the end of the module.
    [gradient = lambda w: gradient_id(w, l1_ratio=0.)[:-1]] *)
Definition gradient (n : nat) (w : arr n) : result (list (arr n)) :=
  g <- gradient_id n w 0 ;;
  Ok (Np.but_last g).

(** [div = lambda v: div_id(np.vstack((v, [np.zeros_like(v[0])])),
    l1_ratio=0.)] *)
Definition div (n : nat) (v : list (arr n)) : result (arr n) :=
  match v with
  | [] => Raise (IndexError "index 0 is out of bounds for axis 0 with size 0")
  | v0 :: _ => div_id n (v ++ [zeros_like n v0]) 0
  end.

Set Implicit Arguments.

End Spatial.

(** ** Boolean masks: three-dimensional arrays as nested lists *)

Module Mask.

Local Open Scope string_scope.

Definition vol (A : Type) : Type := list (list (list A)).
Definition mask3 : Type := vol bool.

Definition get3 {A : Type} (d : A) (m : vol A) (i j k : nat) : A :=
  nth k (nth j (nth i m []) []) d.

(** A voxel is active when it lies inside the array and holds [True]. *)
Definition active (m : mask3) (i j k : nat) : bool := get3 false m i j k.

(** [np.where(mask)]: the coordinates of the active voxels, in C order. *)
Fixpoint where1 (k0 : nat) (row : list bool) : list nat :=
  match row with
  | [] => []
  | b :: row' => (if b then [k0] else []) ++ where1 (S k0) row'
  end.

Fixpoint where2 (j0 : nat) (plane : list (list bool)) : list (nat * nat) :=
  match plane with
  | [] => []
  | row :: plane' =>
      map (fun k => (j0, k)) (where1 0 row) ++ where2 (S j0) plane'
  end.

Fixpoint where3 (i0 : nat) (m : mask3) : list (nat * nat * nat) :=
  match m with
  | [] => []
  | plane :: m' =>
      map (fun jk => (i0, fst jk, snd jk)) (where2 0 plane) ++ where3 (S i0) m'
  end.

Definition where_ (m : mask3) : list (nat * nat * nat) := where3 0 m.

(** [mask.sum()] *)
Definition count (m : mask3) : nat := List.length (where_ m).

(** The active voxels of one row and of one plane. *)
Definition count1 (row : list bool) : nat := List.length (where1 0 row).
Definition count2 (plane : list (list bool)) : nat :=
  List.length (where2 0 plane).

(** [idx.min()] and [idx.max()] on index arrays. *)
Definition idx_min (l : list nat) : result nat :=
  match l with
  | [] => Raise (ValueError "zero-size array to reduction operation minimum")
  | x :: tl => Ok (fold_left Nat.min tl x)
  end.

Definition idx_max (l : list nat) : result nat :=
  match l with
  | [] => Raise (ValueError "zero-size array to reduction operation maximum")
  | x :: tl => Ok (fold_left Nat.max tl x)
  end.

(** [a[lo:hi]] *)
Definition slice {A : Type} (lo hi : nat) (a : list A) : list A :=
  firstn (hi - lo) (skipn lo a).

Definition slice3 {A : Type} (i0 i1 j0 j1 k0 k1 : nat) (m : vol A) : vol A :=
  map (fun plane => map (slice k0 k1) (slice j0 j1 plane)) (slice i0 i1 m).

Definition axis0 (p : nat * nat * nat) : nat := fst (fst p).
Definition axis1 (p : nat * nat * nat) : nat := snd (fst p).
Definition axis2 (p : nat * nat * nat) : nat := snd p.

(** The bounding box [(i_min, i_max, j_min, j_max, k_min, k_max)] computed
    by [_crop_mask]; [max(idx.min() - 1, 0)] is the truncated subtraction. *)
Definition crop_box (mask : mask3)
  : result (nat * nat * nat * nat * nat * nat) :=
  let idx := where_ mask in
  i_lo <- idx_min (map axis0 idx) ;;
  i_max <- idx_max (map axis0 idx) ;;
  j_lo <- idx_min (map axis1 idx) ;;
  j_max <- idx_max (map axis1 idx) ;;
  k_lo <- idx_min (map axis2 idx) ;;
  k_max <- idx_max (map axis2 idx) ;;
  Ok (Nat.max (i_lo - 1) 0, i_max, Nat.max (j_lo - 1) 0, j_max,
      Nat.max (k_lo - 1) 0, k_max).

Definition _crop_mask (mask : mask3) : result mask3 :=
  box <- crop_box mask ;;
  let '(i_min, i_max, j_min, j_max, k_min, k_max) := box in
  Ok (slice3 i_min (i_max + 1) j_min (j_max + 1) k_min (k_max + 1) mask).

(** Shapes of nested lists agree, level by level. *)
Fixpoint same_len2 {A B : Type} (same : A -> B -> bool)
    (a : list A) (b : list B) : bool :=
  match a, b with
  | [], [] => true
  | x :: a', y :: b' => same x y && same_len2 same a' b'
  | _, _ => false
  end.

Definition same_shape {A B : Type} (a : vol A) (b : vol B) : bool :=
  same_len2 (same_len2 (same_len2 (fun _ _ => true))) a b.

Definition map2_3 {A B C : Type} (f : A -> B -> C) (a : vol A) (b : vol B)
  : vol C :=
  map2 (map2 (map2 f)) a b.

(** [mask_[np.logical_not(mask)] = 0]: boolean indexing needs one shape. *)
Definition clear_outside (mask_ mask : mask3) : result mask3 :=
  if same_shape mask_ mask
  then Ok (map2_3 (fun b inside => if negb inside then false else b) mask_ mask)
  else Raise (IndexError "boolean index did not match indexed array").

(** [a[mask]]: the entries at the active voxels, in C order. *)
Definition gather1 {A : Type} (row : list A) (mrow : list bool) : list A :=
  List.concat (map2 (fun x (b : bool) => if b then [x] else []) row mrow).

Definition gather {A : Type} (a : vol A) (mask : mask3) : result (list A) :=
  if same_shape a mask
  then Ok (List.concat (map2 (fun p mp => List.concat (map2 gather1 p mp)) a mask))
  else Raise (IndexError "boolean index did not match indexed array").

(** [out = zeros(mask.shape); out[mask] = values]: the values are consumed
    in C order, the inactive voxels hold [zero]. *)
Fixpoint scatter1 {A : Type} (zero : A) (mrow : list bool) (vals : list A)
  : list A * list A :=
  match mrow with
  | [] => ([], vals)
  | true :: mrow' =>
      let (out, rest) := scatter1 zero mrow' (tl vals) in
      (hd zero vals :: out, rest)
  | false :: mrow' =>
      let (out, rest) := scatter1 zero mrow' vals in
      (zero :: out, rest)
  end.

Fixpoint scatter2 {A : Type} (zero : A) (mplane : list (list bool))
    (vals : list A) : list (list A) * list A :=
  match mplane with
  | [] => ([], vals)
  | mrow :: mplane' =>
      let (row, rest) := scatter1 zero mrow vals in
      let (out, rest') := scatter2 zero mplane' rest in
      (row :: out, rest')
  end.

Fixpoint scatter3 {A : Type} (zero : A) (mask : mask3) (vals : list A)
  : vol A * list A :=
  match mask with
  | [] => ([], vals)
  | mplane :: mask' =>
      let (plane, rest) := scatter2 zero mplane vals in
      let (out, rest') := scatter3 zero mask' rest in
      (plane :: out, rest')
  end.

(** The values a boolean-index assignment [out[mask] = vals] writes at the
    [n] selected positions: [vals] itself when it has [n] entries, its only
    entry [n] times when it has one (numpy broadcasts it); every other
    length is refused. *)
Definition assigned {A : Type} (n : nat) (vals : list A) : result (list A) :=
  match vals with
  | [v] => Ok (repeat v n)
  | _ =>
      if (List.length vals =? n)%nat then Ok vals
      else Raise (ValueError "boolean index assignment: wrong number of values")
  end.

Definition scatter {A : Type} (zero : A) (mask : mask3) (vals : list A)
  : result (vol A) :=
  vals <- assigned (count mask) vals ;;
  Ok (fst (scatter3 zero mask vals)).

(** [objective_functions._unmask] *)
Definition _unmask (w : list Q) (mask : mask3) : result (vol Q) :=
  scatter 0%Q mask w.

End Mask.

(** ** The path driver: [space_net.py] *)

Module SpaceNet.

Import Float Mask.
Local Open Scope string_scope.
Local Open Scope list_scope.
Local Open Scope Q_scope.

(** [EarlyStoppingCallback]: the held-out data and the mutable score
    history. *)
Record EarlyStoppingCallback : Type := mkEarlyStoppingCallback {
  X_test : list (list Q);
  y_test : list Q;
  is_classif : bool;
  debias : bool;
  ymean : Q;
  verbose : nat;
  test_scores : list float;
  counter : nat
}.

Definition EarlyStoppingCallback_init (X_test : list (list Q))
    (y_test : list Q) (is_classif debias : bool) (ymean : Q) (verbose : nat)
  : EarlyStoppingCallback :=
  mkEarlyStoppingCallback X_test y_test is_classif debias ymean verbose [] 0.

(** The callback object [path_scores] builds for one alpha. *)
Definition fresh (self : EarlyStoppingCallback) : EarlyStoppingCallback :=
  EarlyStoppingCallback_init (X_test self) (y_test self) (is_classif self)
    (debias self) (ymean self) (verbose self).

(** The stopping test of [__call__]:
    [np.mean(np.diff(self.test_scores[-5:][::-1])) >= -1e-4]. *)
Definition plateau (scores : list float) : bool :=
  ge (mean (diff (rev (Np.last_k 5 scores)))) (Fin (- (1 # 10000))).

(** The mean first difference of the last five scores in the order they
    were recorded, compared with [-1e-4]: the stopping test as the
    specification words it. *)
Definition plateau_as_recorded (scores : list float) : bool :=
  ge (mean (diff (Np.last_k 5 scores))) (Fin (- (1 # 10000))).

(** What the stopping test asks of a score history at running counter [n]. *)
Definition checkpoint (n : nat) (scores : list float) : Prop :=
  (20 < n)%nat /\ (n mod 10 = 2)%nat
  /\ (5 <= List.length scores)%nat /\ plateau scores = true.

(** [scaling = <y_pred, y_pred>; if scaling > 0: w *= <y_pred, y_test> / scaling] *)
Definition _debias (self : EarlyStoppingCallback) (w : list Q)
  : result (list Q) :=
  y_pred <- Np.matvec (X_test self) w ;;
  scaling <- Np.dot y_pred y_pred ;;
  if negb (Qle_bool scaling 0)
  then num <- Np.dot y_pred (y_test self) ;;
       Ok (map (fun x => x * (num / scaling)) w)
  else Ok w.

(** [sorted(alphas)[::-1]] *)
Fixpoint insert_sorted (a : Q) (l : list Q) : list Q :=
  match l with
  | [] => [a]
  | b :: l' => if Qle_bool a b then a :: l else b :: insert_sorted a l'
  end.

Definition sorted (l : list Q) : list Q := fold_right insert_sorted [] l.

Definition sorted_descending (l : list Q) : list Q := rev (sorted l).

(** [X[:, support]] for a boolean [support]. *)
Definition select_row (support : list bool) (row : list Q) : result (list Q) :=
  if (List.length row =? List.length support)%nat
  then Ok (gather1 row support)
  else Raise (IndexError "boolean index did not match indexed array").

Fixpoint select_columns (X : list (list Q)) (support : list bool)
  : result (list (list Q)) :=
  match X with
  | [] => Ok []
  | row :: X' =>
      r <- select_row support row ;;
      rs <- select_columns X' support ;;
      Ok (r :: rs)
  end.

(** [X.shape[1]] of a matrix given by its rows. *)
Definition n_columns (X : list (list Q)) : nat := List.length (hd [] X).

Section Collaborators.

(** Library routines and the solvers of [space_net_solvers], which the
    driver only calls. *)

(** [stats.spearmanr(a, b)[0]] and [np.corrcoef(a, b)[1, 0]] *)
Variables spearmanr pearsonr : list Q -> list Q -> float.

(** [ndimage.gaussian_filter(volume, (sigma, sigma, sigma))] *)
Variable gaussian_filter : vol Q -> Q -> vol Q.

(** [SelectPercentile(f_classif if is_classif else f_regression,
    percentile).fit(sX, y).get_support()] *)
Variable select_percentile :
  bool -> Q -> list (list Q) -> list Q -> list bool.

Variables binary_erosion binary_dilation : mask3 -> mask3.

(** [center_data(X, y, fit_intercept=True, normalize=False)], returning
    the centred data and the two means. *)
Variable center_data :
  list (list Q) -> list Q -> list (list Q) * list Q * list Q * Q.

(** The warm-start dictionary of the solvers. *)
Variable State : Type.

(** [solver(X, y, alpha, l1_ratio, mask=, init=, callback=, **solver_params)]
    returning the weights and the warm-start state. *)
Variable solver :
  list (list Q) -> list Q -> Q -> Q -> mask3 -> option State ->
  option EarlyStoppingCallback -> list Q * State.

(** The floating point values of [_space_net_alpha_grid]; module
    [AlphaGrid] studies the function itself over the reals. *)
Variable alpha_grid :
  list (list Q) -> list Q -> Q -> nat -> Q -> bool -> result (list Q).

(** [EarlyStoppingCallback.test_score] *)
Definition test_score (self : EarlyStoppingCallback) (w : list Q)
  : result (float * float) :=
  let w := if is_classif self then Np.but_last w else w in
  range <- Np.ptp w ;;
  if Qeq_bool range 0
  then Ok (NegInf, NegInf)
  else
    y_pred <- Np.matvec (X_test self) w ;;
    let spearman_score := spearmanr y_pred (y_test self) in
    let pearson_score := pearsonr y_pred (y_test self) in
    if is_classif self
    then Ok (spearman_score, pearson_score)
    else Ok (pearson_score, spearman_score).

(** [EarlyStoppingCallback.__call__]: the updated object and the returned
    value, [None] standing for the bare [return]. *)
Definition __call__ (self : EarlyStoppingCallback) (w : list Q)
  : result (EarlyStoppingCallback * option bool) :=
  let counter' := S (counter self) in
  let scores0 := if (counter' =? 0)%nat then [] else test_scores self in
  s <- test_score self w ;;
  let score := fst s in
  let scores' := scores0 ++ [score] in
  let self' := mkEarlyStoppingCallback (X_test self) (y_test self)
                 (is_classif self) (debias self) (ymean self) (verbose self)
                 scores' counter' in
  if negb ((20 <? counter')%nat && (counter' mod 10 =? 2)%nat)
  then Ok (self', None)
  else if (4 <? List.length scores')%nat && plateau scores'
       then Ok (self', Some true)
       else Ok (self', Some false).

(** Successive calls on one callback object. *)
Fixpoint calls (self : EarlyStoppingCallback) (ws : list (list Q))
  : result (EarlyStoppingCallback * list (option bool)) :=
  match ws with
  | [] => Ok (self, [])
  | w :: ws' =>
      r <- __call__ self w ;;
      rs <- calls (fst r) ws' ;;
      Ok (fst rs, snd r :: snd rs)
  end.

(** [_univariate_feature_screening] with the default [smooth=2.] *)
Definition smooth_rows (smooth : Q) (X : list (list Q)) (mask : mask3)
  : result (list (list Q)) :=
  if negb (Qle_bool smooth 0)
  then
    (fix rows (X : list (list Q)) : result (list (list Q)) :=
       match X with
       | [] => Ok []
       | sample :: X' =>
           v <- _unmask sample mask ;;
           r <- gather (gaussian_filter v smooth) mask ;;
           rs <- rows X' ;;
           Ok (r :: rs)
       end) X
  else Ok X.

Definition _univariate_feature_screening (X : list (list Q)) (y : list Q)
    (mask : mask3) (is_classif : bool) (screening_percentile : Q)
    (smooth : Q)
  : result (list (list Q) * mask3 * list bool) :=
  sX <- smooth_rows smooth X mask ;;
  let support := select_percentile is_classif screening_percentile sX y in
  mask_ <- scatter false mask support ;;
  let mask_ := binary_dilation (binary_erosion mask_) in
  mask_ <- clear_outside mask_ mask ;;
  support <- gather mask_ mask ;;
  X <- select_columns X support ;;
  Ok (X, mask_, support).

(** The best score is either still [-inf] or a finite score. *)
Definition settled (a : float) : Prop := a = NegInf \/ isfinite a = true.

(** The variables of the alpha loop of [path_scores]. *)
Record loop_state : Type := mkLoop {
  l_init : option State;
  l_best_score : float;
  l_best_secundary_score : float;
  l_best_alpha : Q;
  l_best_init : option State;
  l_test_scores : list float;
  l_early_stopper : option EarlyStoppingCallback
}.

(** The guarded update that records a new best alpha. *)
Definition selects (score secundary_score : float) (st : loop_state) : bool :=
  isfinite score
  && (gt score (l_best_score st)
      || (eqb score (l_best_score st)
          && gt secundary_score (l_best_secundary_score st))).

(** One iteration of [for alpha in alphas]. *)
Definition loop_body (X_train : list (list Q)) (y_train : list Q)
    (X_test : list (list Q)) (y_test : list Q) (l1_ratio : Q) (mask : mask3)
    (is_classif debias : bool) (ymean : Q) (verbose : nat)
    (st : loop_state) (alpha : Q) : result loop_state :=
  let early_stopper :=
    EarlyStoppingCallback_init X_test y_test is_classif debias ymean verbose in
  let '(w, init) := solver X_train y_train alpha l1_ratio mask (l_init st)
                      (Some early_stopper) in
  s <- test_score early_stopper w ;;
  let '(score, secundary_score) := s in
  let scores := l_test_scores st ++ [score] in
  if selects score secundary_score st
  then Ok (mkLoop (Some init) score secundary_score alpha (Some init) scores
             (Some early_stopper))
  else Ok (mkLoop (Some init) (l_best_score st) (l_best_secundary_score st)
             (l_best_alpha st) (l_best_init st) scores (Some early_stopper)).

Fixpoint alpha_loop (body : loop_state -> Q -> result loop_state)
    (st : loop_state) (alphas : list Q) : result loop_state :=
  match alphas with
  | [] => Ok st
  | alpha :: alphas' =>
      st' <- body st alpha ;;
      alpha_loop body st' alphas'
  end.

(** Undo the screening: [w_ = np.zeros(len(support)); ...] *)
Definition unscreen (is_classif : bool) (support : list bool)
    (best_w : list Q) : result (list Q) :=
  let place (vals : list Q) : result (list Q) :=
    vals <- assigned (count1 support) vals ;;
    Ok (fst (scatter1 0 support vals)) in
  if is_classif
  then match rev best_w with
       | [] => Raise (IndexError "index -1 is out of bounds")
       | intercept :: _ =>
           w_ <- place (Np.but_last best_w) ;;
           Ok (w_ ++ [intercept])
       end
  else place best_w.

Definition path_scores (X : list (list Q)) (y : list Q) (mask : mask3)
    (alphas : option (list Q)) (l1_ratio : Q) (train test : list nat)
    (n_alphas : nat) (eps : Q) (is_classif : bool) (init : option State)
    (key : nat) (debias : bool) (Xmean : option (list Q)) (ymean : Q)
    (screening_percentile : Q) (verbose : nat)
  : result (list float * list Q * Q * nat) :=
  let n_features := n_columns X in
  let do_screening :=
    (100 <? n_features)%nat && negb (Qle_bool 100 screening_percentile) in
  screened <-
    (if do_screening
     then r <- _univariate_feature_screening X y mask is_classif
                 screening_percentile 2 ;;
          let '(X, mask, support) := r in Ok (X, mask, Some support)
     else Ok (X, mask, None)) ;;
  let '(X, mask, support) := screened in
  mask <- _crop_mask mask ;;
  X_train <- Np.take X train ;;
  y_train <- Np.take y train ;;
  X_test <- Np.take X test ;;
  y_test <- Np.take y test ;;
  let '(X_train, y_train, X_mean, y_mean) := center_data X_train y_train in
  alphas <- match alphas with
            | None => alpha_grid X_train y_train eps n_alphas l1_ratio is_classif
            | Some l => Ok l
            end ;;
  let alphas := sorted_descending alphas in
  best_alpha <- match alphas with
                | [] => Raise (IndexError "list index out of range")
                | a :: _ => Ok a
                end ;;
  let st0 := mkLoop init NegInf NegInf best_alpha init [] None in
  st <- (if (0 <? List.length test)%nat
         then alpha_loop
                (loop_body X_train y_train X_test y_test l1_ratio mask
                   is_classif debias ymean verbose) st0 alphas
         else Ok st0) ;;
  let '(best_w, _) := solver X_train y_train (l_best_alpha st) l1_ratio mask
                        (l_best_init st) None in
  best_w <- (if debias
             then match l_early_stopper st with
                  | None => Raise (NameError "local variable 'early_stopper' referenced before assignment")
                  | Some early_stopper => _debias early_stopper best_w
                  end
             else Ok best_w) ;;
  let test_scores :=
    if (List.length test =? 0)%nat
    then l_test_scores st ++ [NaN] else l_test_scores st in
  best_w <- match support with
            | Some support => unscreen is_classif support best_w
            | None => Ok best_w
            end ;;
  best_w <- (if (List.length best_w =? n_features)%nat
             then
               let Xmean := match Xmean with
                            | None => repeat 0 n_features
                            | Some m => m
                            end in
               d <- Np.dot Xmean best_w ;;
               Ok (best_w ++ [ymean - d])
             else Ok best_w) ;;
  Ok (test_scores, best_w, l_best_alpha st, key).

End Collaborators.

(** Pearson's and Spearman's correlation of two observations: [+1] when the
    two pairs are concordant, [-1] when discordant, [nan] when either
    coordinate is tied.  Outside two observations the value is left as
    [nan]. *)
Definition corr_two_points (a b : list Q) : float :=
  match a, b with
  | [a0; a1], [b0; b1] =>
      let s := (a1 - a0) * (b1 - b0) in
      if Qeq_bool s 0 then NaN
      else if Qle_bool 0 s then Fin 1 else Fin (- (1))
  | _, _ => NaN
  end.

End SpaceNet.

(** ** The regularisation grid: [_space_net_alpha_grid] *)

Module AlphaGrid.

Local Open Scope string_scope.
Local Open Scope list_scope.
Local Open Scope Q_scope.

Definition vscale (c : Q) (row : list Q) : list Q := map (Qmult c) row.
Definition vadd (a b : list Q) : list Q := map2 Qplus a b.

(** The sum over the samples of [v[i] * X[i, :]], for aligned [X] and [v]. *)
Fixpoint XT_dot_aligned (X : list (list Q)) (v : list Q) : list Q :=
  match X, v with
  | row :: [], c :: _ => vscale c row
  | row :: X', c :: v' => vadd (vscale c row) (XT_dot_aligned X' v')
  | _, _ => []
  end.

(** [X.T.dot(v)], [np.dot(X.T, v)]; a matrix is given by its rows, so one
    without rows has no columns either. *)
Definition XT_dot (X : list (list Q)) (v : list Q) : result (list Q) :=
  if (List.length X =? List.length v)%nat then Ok (XT_dot_aligned X v)
  else Raise (ValueError "shapes not aligned").

(** [np.abs(np.dot(X.T, y)).max()] *)
Definition max_abs_XT_dot (X : list (list Q)) (v : list Q) : result Q :=
  c <- XT_dot X v ;;
  Np.max (map Np.Qabs' c).

Definition count_eq (c : Q) (y : list Q) : nat :=
  List.length (filter (Qeq_bool c) y).

(** The pseudo-residuals [b] of the logistic bound: [m_minus / m] where
    [y == 1], [- m_plus / m] where [y == -1], zero elsewhere.  The quotients
    are Python floats, so an empty [y] divides by zero. *)
Definition pseudo_residuals (y : list Q) : result (list Q) :=
  let m := inject_Z (Z.of_nat (List.length y)) in
  let m_plus := inject_Z (Z.of_nat (count_eq 1 y)) in
  let m_minus := inject_Z (Z.of_nat (count_eq (- (1)) y)) in
  if (List.length y =? 0)%nat
  then Raise (ZeroDivisionError "float division by zero")
  else Ok (map (fun yi => if Qeq_bool yi 1 then m_minus / m
                          else if Qeq_bool yi (- (1)) then - m_plus / m
                          else 0) y).

(** [np.max(np.abs(X.T.dot(b)))] *)
Definition logistic_bound (X : list (list Q)) (y : list Q) : result Q :=
  b <- pseudo_residuals y ;;
  max_abs_XT_dot X b.

(** [alpha_max] before it is rescaled. *)
Definition raw_alpha_max (X : list (list Q)) (y : list Q) (logistic : bool)
  : result Q :=
  if logistic
  then
    alpha_max <- logistic_bound X y ;;
    if Qeq_bool alpha_max 0
    then max_abs_XT_dot X y
    else Ok alpha_max
  else max_abs_XT_dot X y.

(** [if l1_ratio == 0.: l1_ratio = 1e-3] *)
Definition guarded_l1_ratio (l1_ratio : Q) : Q :=
  if Qeq_bool l1_ratio 0 then 1 # 1000 else l1_ratio.

(** [X.shape[0] * l1_ratio], after the guard. *)
Definition divisor (X : list (list Q)) (l1_ratio : Q) : Q :=
  inject_Z (Z.of_nat (List.length X)) * guarded_l1_ratio l1_ratio.

(** The divisor as the specification words it. *)
Definition divisor_max (X : list (list Q)) (l1_ratio : Q) : Q :=
  inject_Z (Z.of_nat (List.length X)) * Np.Qmax l1_ratio (1 # 1000).

(** [alpha_max /= (X.shape[0] * l1_ratio)] *)
Definition scaled_alpha_max (X : list (list Q)) (y : list Q) (l1_ratio : Q)
    (logistic : bool) : result Q :=
  alpha_max <- raw_alpha_max X y logistic ;;
  if Qeq_bool (divisor X l1_ratio) 0
  then Raise (NonFinite "division by zero")
  else Ok (alpha_max / divisor X l1_ratio).

Local Open Scope R_scope.

Definition log10 (x : R) : R := ln x / ln 10.

(** [10 ** x] *)
Definition pow10 (x : R) : R := Rpower 10 x.

(** [np.linspace(start, stop, num)]: [start + i * step] with the last
    sample set to [stop]. *)
Definition linspace (start stop : R) (num : nat) : list R :=
  let step := (stop - start) / INR (num - 1) in
  map (fun i => if (1 <? num)%nat && (i =? num - 1)%nat then stop
                else start + INR i * step)
      (seq 0 num).

(** [np.logspace(start, stop, num)] *)
Definition logspace (start stop : R) (num : nat) : list R :=
  map pow10 (linspace start stop num).

Definition _space_net_alpha_grid (X : list (list Q)) (y : list Q) (eps : Q)
    (n_alphas : nat) (l1_ratio : Q) (logistic : bool) : result (list R) :=
  alpha_max <- scaled_alpha_max X y l1_ratio logistic ;;
  if (n_alphas =? 1)%nat
  then Ok [Q2R alpha_max]
  else
    let alpha_min := (alpha_max * eps)%Q in
    if Qle_bool alpha_min 0 || Qle_bool alpha_max 0
    then Raise (NonFinite "log10 of a number that is not positive")
    else Ok (rev (logspace (log10 (Q2R alpha_min)) (log10 (Q2R alpha_max))
                    n_alphas)).

(** Strictly decreasing along the positions. *)
Definition strictly_decreasing (l : list R) : Prop :=
  forall i j : nat, (i < j)%nat -> (j < List.length l)%nat ->
                    nth j l 0 < nth i l 0.

End AlphaGrid.

(** ** Prediction: [BaseSpaceNet._standardize_X] and [predict] *)

Module Estimator.

Local Open Scope string_scope.
Local Open Scope list_scope.
Local Open Scope R_scope.

Definition Req_bool (a b : R) : bool :=
  if Req_dec_T a b then true else false.

Definition Rlt_bool (a b : R) : bool :=
  if Rlt_dec a b then true else false.

(** Column sums of a matrix given by its rows. *)
Fixpoint col_sums (p : nat) (X : list (list R)) : list R :=
  match X with
  | [] => repeat 0 p
  | row :: X' => map2 Rplus row (col_sums p X')
  end.

(** [X.mean(axis=0)] *)
Definition mean_axis0 (X : list (list R)) : list R :=
  map (fun s => s / INR (List.length X))
      (col_sums (List.length (hd [] X)) X).

(** [X.std(axis=0)]: the root of the mean squared deviation. *)
Definition std_axis0 (X : list (list R)) : list R :=
  let mu := mean_axis0 X in
  map sqrt
      (mean_axis0 (map (fun row => map2 (fun x m => Rsqr (x - m)) row mu) X)).

(** [_standardize_X]: [Xmean = X.mean(axis=0); Xstd = X.std(axis=0);
    X -= Xmean; X /= Xstd].  An empty batch or a constant column has no
    finite result. *)
Definition _standardize_X (X : list (list R))
  : result (list (list R) * list R * list R) :=
  if (List.length X =? 0)%nat
  then Raise (NonFinite "mean of empty slice")
  else
    let Xmean := mean_axis0 X in
    let Xstd := std_axis0 X in
    if existsb (fun s => Req_bool s 0) Xstd
    then Raise (NonFinite "division by zero")
    else Ok (map (fun row => map2 Rdiv (map2 Rminus row Xmean) Xstd) X,
             Xmean, Xstd).

(** A fitted estimator: what [fit] leaves behind for [predict].  [Xmean]
    and [Xstd] are the training-time statistics. *)
Record fitted : Type := mkFitted {
  masker_transform : list (list R) -> list (list R);
  standardize : bool;
  is_classif : bool;
  coef_ : list (list R);
  intercept_ : list R;
  classes_ : list nat;
  Xmean : list R;
  Xstd : list R
}.

Fixpoint dot (a b : list R) : R :=
  match a, b with
  | x :: a', y :: b' => x * y + dot a' b'
  | _, _ => 0
  end.

(** [safe_sparse_dot(X, self.coef_.T) + self.intercept_]: one row of scores
    per sample, one score per row of [coef_]. *)
Definition affine_scores (self : fitted) (X : list (list R))
  : list (list R) :=
  map (fun x => map2 (fun w b => dot x w + b) (coef_ self) (intercept_ self))
      X.

(** [decision_function] for classification. *)
Definition decision_function (self : fitted) (X : list (list R))
  : result (list (list R)) :=
  let n_features := List.length (hd [] (coef_ self)) in
  if forallb (fun x => (List.length x =? n_features)%nat) X
  then Ok (affine_scores self X)
  else Raise (ValueError "X has a wrong number of features per sample").

(** [scores.argmax(axis=1)]: the first position of the largest score. *)
Fixpoint argmax_from (best_i : nat) (best : R) (i : nat) (l : list R) : nat :=
  match l with
  | [] => best_i
  | x :: l' =>
      if Rlt_bool best x then argmax_from i x (S i) l'
      else argmax_from best_i best (S i) l'
  end.

Definition argmax (l : list R) : nat :=
  match l with
  | [] => 0%nat
  | x :: l' => argmax_from 0 x 1 l'
  end.

(** The value [predict] returns: regression outputs or class labels. *)
Inductive prediction : Type :=
| Values (y_pred : list (list R))
| Labels (y_pred : list nat).

(** [predict], from the point where [X] has been masked and, if asked,
    standardized. *)
Definition predict_prepared (self : fitted) (X : list (list R))
  : result prediction :=
  if negb (is_classif self)
  then Ok (Values (affine_scores self X))
  else
    scores <- decision_function self X ;;
    let indices :=
      if (List.length (coef_ self) =? 1)%nat
      then map (fun s => if Rlt_bool 0 (hd 0 s) then 1%nat else 0%nat) scores
      else map argmax scores in
    Ok (Labels (map (fun i => nth i (classes_ self) 0%nat) indices)).

Definition predict (self : fitted) (X : list (list R)) : result prediction :=
  let X := masker_transform self X in
  X <- (if standardize self
        then r <- _standardize_X X ;; Ok (fst (fst r))
        else Ok X) ;;
  predict_prepared self X.

(** [np.concatenate] of the predictions for two batches. *)
Definition concatenate (a b : prediction) : prediction :=
  match a, b with
  | Values u, Values v => Values (u ++ v)
  | Labels u, Labels v => Labels (u ++ v)
  | Values u, Labels _ => Values u
  | Labels u, Values _ => Labels u
  end.

(** The same estimator with other training-time statistics. *)
Definition with_training_statistics (self : fitted) (Xmean Xstd : list R)
  : fitted :=
  mkFitted (masker_transform self) (standardize self) (is_classif self)
    (coef_ self) (intercept_ self) (classes_ self) Xmean Xstd.

(** A fitted regressor on one feature: identity masker, slope 1, intercept
    0, training-time statistics 5 and 7. *)
Definition unit_slope : fitted :=
  mkFitted (fun X => X) true false [[1]] [0] [] [5] [7].

End Estimator.

(** ** The data-fit terms of [objective_functions]: [squared_loss] *)

Module SquaredLoss.

Local Open Scope string_scope.
Local Open Scope list_scope.
Local Open Scope Q_scope.

(** [np.dot(X.T, v)] for a matrix of [p] columns given by its rows. *)
Fixpoint XT_dot_aligned (p : nat) (X : list (list Q)) (v : list Q) : list Q :=
  match X, v with
  | row :: X', c :: v' =>
      AlphaGrid.vadd (AlphaGrid.vscale c row) (XT_dot_aligned p X' v')
  | _, _ => repeat 0 p
  end.

Definition XT_dot (p : nat) (X : list (list Q)) (v : list Q)
  : result (list Q) :=
  if (List.length X =? List.length v)%nat then Ok (XT_dot_aligned p X v)
  else Raise (ValueError "shapes not aligned").

(** What [squared_loss] returns: the energy, the gradient, or the pair. *)
Inductive returned : Type :=
| Energy (energy : Q)
| Gradient (grad : list Q)
| Both (energy : Q) (grad : list Q).

(** [squared_loss]; [X] has as many columns as [w] has entries wherever
    [np.dot(X, w)] returns. *)
Definition squared_loss (X : list (list Q)) (y w : list Q)
    (compute_energy compute_grad : bool) : result returned :=
  if negb (compute_energy || compute_grad)
  then Raise (AssertionError "compute_energy or compute_grad")
  else
    Xw <- Np.matvec X w ;;
    residual <- broadcast Qminus Xw y ;;
    let energy := (1 # 2) * Np.dot_aligned residual residual in
    if compute_energy && negb compute_grad
    then Ok (Energy energy)
    else
      grad <- XT_dot (List.length w) X residual ;;
      if negb compute_energy then Ok (Gradient grad)
      else Ok (Both energy grad).

(** [squared_loss_grad = partial(squared_loss, compute_energy=False,
    compute_grad=True)] *)
Definition squared_loss_grad (X : list (list Q)) (y w : list Q)
  : result returned :=
  squared_loss X y w false true.

End SquaredLoss.

(** ** The data-fit terms of [objective_functions]: [logistic]

    Over the reals: [exp] neither overflows nor underflows. *)

Module Logistic.

Local Open Scope string_scope.
Local Open Scope list_scope.
Local Open Scope R_scope.

Fixpoint sum (l : list R) : R :=
  match l with
  | [] => 0
  | x :: l' => x + sum l'
  end.

Definition dot (a b : list R) : result R :=
  if (List.length a =? List.length b)%nat then Ok (Estimator.dot a b)
  else Raise (ValueError "shapes not aligned").

(** [np.dot(X, w)] for a matrix given by its rows. *)
Fixpoint matvec (X : list (list R)) (w : list R) : result (list R) :=
  match X with
  | [] => Ok []
  | row :: X' =>
      v <- dot row w ;;
      vs <- matvec X' w ;;
      Ok (v :: vs)
  end.

(** [np.dot(X.T, v)] for a matrix of [p] columns given by its rows. *)
Fixpoint XT_dot_aligned (p : nat) (X : list (list R)) (v : list R) : list R :=
  match X, v with
  | row :: X', c :: v' =>
      map2 Rplus (map (Rmult c) row) (XT_dot_aligned p X' v')
  | _, _ => repeat 0 p
  end.

Definition XT_dot (p : nat) (X : list (list R)) (v : list R)
  : result (list R) :=
  if (List.length X =? List.length v)%nat then Ok (XT_dot_aligned p X v)
  else Raise (ValueError "shapes not aligned").

(** The first two lines of [logistic] and of [logistic_loss_grad]:
    [z = np.dot(X, w[:-1]) + w[-1]; yz = y * z]. *)
Definition margins (X : list (list R)) (y w : list R) : result (list R) :=
  Xw <- matvec X (Np.but_last w) ;;
  w_last <- match rev w with
            | [] => Raise (IndexError "index -1 is out of bounds for axis 0 with size 0")
            | b :: _ => Ok b
            end ;;
  let z := map (fun v => v + w_last) Xw in
  broadcast Rmult y z.

Definition log1p (x : R) : R := ln (1 + x).

(** One entry of [out]: [log1p(exp(-yz))] where [yz > 0],
    [-yz + log1p(exp(yz))] elsewhere. *)
Definition out_entry (yz : R) : R :=
  if Estimator.Rlt_bool 0 yz then log1p (exp (- yz))
  else - yz + log1p (exp yz).

(** [logistic] *)
Definition logistic (X : list (list R)) (y w : list R) : result R :=
  yz <- margins X y w ;;
  Ok (sum (map out_entry yz)).

(** [_sigmoid]: [t *= -1.; t = exp(t); t += 1.; t = reciprocal(t)]. *)
Definition _sigmoid (t : list R) : list R :=
  map (fun x => / (exp (x * -1) + 1)) t.

(** [logistic_loss_grad] *)
Definition logistic_loss_grad (X : list (list R)) (y w : list R)
  : result (list R) :=
  yz <- margins X y w ;;
  let z := _sigmoid yz in
  z0 <- broadcast Rmult (map (fun v => v - 1) z) y ;;
  g <- XT_dot (List.length w - 1) X z0 ;;
  Ok (g ++ [sum z0]).

End Logistic.

(** ** The penalty of [objective_functions]: [tv_l1_from_gradient] *)

Module TotalVariation.

Local Open Scope string_scope.
Local Open Scope list_scope.
Local Open Scope R_scope.

(** [tv_l1_from_gradient]; [spatial_grad] is given channel by channel, each
    channel raveled, the identity channel last. *)
Definition tv_l1_from_gradient (spatial_grad : list (list R)) : result R :=
  match rev spatial_grad with
  | [] => Raise (IndexError "index -1 is out of bounds for axis 0 with size 0")
  | identity :: _ =>
      let channels := Np.but_last spatial_grad in
      let tv_term :=
        Logistic.sum
          (map sqrt
             (Estimator.col_sums (List.length identity)
                (map (map Rsqr) channels))) in
      let l1_term := Logistic.sum (map Rabs identity) in
      Ok (l1_term + tv_term)
  end.

End TotalVariation.

(** ** [BaseSpaceNet.fit]: what is decided before the folds are run *)

Module Fit.
Import Params.

Local Open Scope string_scope.
Local Open Scope list_scope.
Local Open Scope Q_scope.

(** The back-end solvers [fit] chooses from. *)
Inductive backend : Type :=
| smooth_lasso_squared_loss
| smooth_lasso_logistic
| tvl1_solver (loss : string).

(** The data-fit term a back-end minimises. *)
Definition minimises_logistic (b : backend) : bool :=
  match b with
  | smooth_lasso_squared_loss => false
  | smooth_lasso_logistic => true
  | tvl1_solver loss => String.eqb loss "logistic"
  end.

(** [self.loss == name]: [None] equals no string. *)
Definition loss_equals (l : option string) (name : string) : bool :=
  match l with
  | None => false
  | Some s => String.eqb s name
  end.

(** [self.loss_] *)
Definition loss_ (self : BaseSpaceNet) : string :=
  match loss self with
  | Some l => lower l
  | None => if is_classif self then "logistic" else "mse"
  end.

(** [# set backend solver] *)
Definition solver (self : BaseSpaceNet) : backend :=
  if String.eqb (lower (penalty self)) "smooth-lasso"
  then if negb (is_classif self) || loss_equals (loss self) "mse"
       then smooth_lasso_squared_loss
       else smooth_lasso_logistic
  else if negb (is_classif self) || loss_equals (loss self) "mse"
       then tvl1_solver "mse"
       else tvl1_solver "logistic".

(** The [is_classif] that [fit] hands to [path_scores]:
    [is_classif=self.loss == "logistic"]. *)
Definition path_is_classif (self : BaseSpaceNet) : bool :=
  loss_equals (loss self) "logistic".

(** [n_problems] *)
Definition n_problems (self : BaseSpaceNet) (n_classes_ : nat) : nat :=
  if is_classif self && (2 <? n_classes_)%nat then n_classes_ else 1%nat.

(** [# sanitize alpha grid]; a string never gets here, [check_params] has
    raised on it. *)
Definition sanitize_alphas (alpha : pyval) (alphas : option (list Q))
  : result (option (list Q)) :=
  match alpha with
  | PyNone => Ok alphas
  | PyNum a => Ok (Some [a])
  | PyStr _ => Raise (ValueError "'alpha' parameter must be None or a float")
  end.

(** [# generate fold indices]: the folds of [check_cv], or the single fold
    [(range(n_samples), [])]. *)
Definition folds (alphas : option (list Q))
    (check_cv : list (list nat * list nat)) (n_samples : nat)
  : list (list nat * list nat) :=
  match alphas with
  | None => check_cv
  | Some l =>
      if (1 <? List.length l)%nat then check_cv
      else [(seq 0 n_samples, [])]
  end.

(** The calls are evaluated one after the other; the first that raises
    ends the loop. *)
Fixpoint sequence {A : Type} (l : list (result A)) : result (list A) :=
  match l with
  | [] => Ok []
  | r :: l' =>
      x <- r ;;
      xs <- sequence l' ;;
      Ok (x :: xs)
  end.

Definition number (v : pyval) : result Q :=
  match v with
  | PyNum q => Ok q
  | _ => Raise (TypeError "a float is required")
  end.

Section MainLoop.

Variables spearmanr pearsonr : list Q -> list Q -> Float.float.
Variable gaussian_filter : Mask.vol Q -> Q -> Mask.vol Q.
Variable select_percentile :
  bool -> Q -> list (list Q) -> list Q -> list bool.
Variables binary_erosion binary_dilation : Mask.mask3 -> Mask.mask3.
Variable center_data :
  list (list Q) -> list Q -> list (list Q) * list Q * list Q * Q.
Variable State : Type.
Variable backend_solver :
  backend ->
  list (list Q) -> list Q -> Q -> Q -> Mask.mask3 -> option State ->
  option SpaceNet.EarlyStoppingCallback -> list Q * State.
Variable alpha_grid :
  list (list Q) -> list Q -> Q -> nat -> Q -> bool -> result (list Q).

(** [fit] from the sanity check to the end of the main loop: one call of
    [path_scores] per problem and fold.  [y c] and [ymean c] are the
    targets and the mean of problem [c]; [X], [Xmean] the (standardized)
    data. *)
Definition main_loop (self : BaseSpaceNet) (alphas : option (list Q))
    (check_cv : list (list nat * list nat)) (n_classes_ : nat)
    (X : list (list Q)) (y : nat -> list Q) (mask_ : Mask.mask3)
    (n_alphas : nat) (eps : Q) (Xmean : list Q) (ymean : nat -> Q)
    (screening_percentile_ : Q) (verbose : nat)
  : result (list (list Float.float * list Q * Q * nat)) :=
  check_params self ;;;
  l1 <- number (l1_ratio self) ;;
  alphas <- sanitize_alphas (alpha self) alphas ;;
  let cv_ := folds alphas check_cv (List.length X) in
  sequence
    (flat_map
       (fun c =>
          map (fun fold : list nat * list nat =>
                 SpaceNet.path_scores spearmanr pearsonr gaussian_filter
                   select_percentile binary_erosion binary_dilation
                   center_data (backend_solver (solver self)) alpha_grid
                   X (y c) mask_ alphas l1 (fst fold) (snd fold)
                   n_alphas eps (path_is_classif self) None c
                   (debias self) (Some Xmean) (ymean c)
                   screening_percentile_ verbose)
              cv_)
       (seq 0 (n_problems self n_classes_))).

End MainLoop.

End Fit.

(** ** The first alpha of the grid in double precision *)

Module Binary64.

Local Open Scope Z_scope.

(** A positive normal binary64 number [mantissa * 2 ^ exponent], the
    mantissa on 53 bits. *)
Record double : Type := mkDouble { mantissa : Z; exponent : Z }.

Definition value (d : double) : Q :=
  inject_Z (mantissa d) * Qpower 2 (exponent d).

(** The doubles of one binade: exponent [e], values in
    [[2 ^ (e + 52), 2 ^ (e + 53))]. *)
Definition binade (e : Z) (d : double) : Prop :=
  exponent d = e /\ 2 ^ 52 <= mantissa d < 2 ^ 53.

Section Libm.

(** [np.log10] and [10 ** x] on doubles: library routines. *)
Variables log10 pow10 : double -> double.

(** The first entry of what [_space_net_alpha_grid] returns:
    [alpha_max] itself for [n_alphas == 1]; otherwise the first entry of
    [np.logspace(log10(alpha_min), log10(alpha_max), num)[::-1]], that is
    [10 ** stop], since [np.linspace] ends exactly at [stop]. *)
Definition grid_head (n_alphas : nat) (alpha_max : double)
  : option double :=
  match n_alphas with
  | O => None
  | 1%nat => Some alpha_max
  | _ => Some (pow10 (log10 alpha_max))
  end.

End Libm.

(** A [log10] that is right to two decimals on [[4, 8)]: there the
    logarithm lies in [[0.602, 0.904]], so the double returned belongs to
    the binade [[1/2, 1)] and to [[0.6, 0.91]]. *)
Definition plausible_log10 (log10 : double -> double) : Prop :=
  forall a, binade (-50) a ->
            binade (-53) (log10 a)
            /\ (6 # 10 <= value (log10 a))%Q
            /\ (value (log10 a) <= 91 # 100)%Q.

End Binary64.

(** * Theorems *)

Module ParamsFacts.
Import Params.
Local Open Scope string_scope.
Local Open Scope Q_scope.

Lemma loss_is_logistic (l : option string) :
  loss_is "logistic" l
  = match option_map lower l with
    | Some s => String.eqb s "logistic"
    | None => false
    end.
Proof. destruct l; reflexivity. Qed.

(** C9 (as stated) fails: the penalty name ["TV-L1"] is outside
    {smooth-lasso, tv-l1}, yet the constructor returns an estimator, because
    [check_params] compares the lower-cased name. *)
Lemma init_accepts_upper_case_penalty :
  rejected_exact "TV-L1" false None (1 # 2) 20 = true
  /\ __init__ "TV-L1" false None PyNone (PyNum (1 # 2)) 20 true false
     = Ok (mkBaseSpaceNet "TV-L1" false None PyNone (PyNum (1 # 2)) 20 true false,
           []).
Proof. split; reflexivity. Qed.

(** C9 (amended): with the penalty and loss names compared after
    lower-casing, [__init__] raises [ValueError] exactly on the rejected
    configurations (penalty not in {smooth-lasso, tv-l1}, non-None loss not in
    {mse, logistic}, l1_ratio outside [0, 1], screening_percentile outside
    [0, 100], logistic loss with [is_classif = False]); on every other
    configuration it returns the estimator, with one warning when l1_ratio is
    exactly 0 or exactly 1 and none otherwise. *)
Theorem init_validates_eagerly
    (penalty : string) (is_classif : bool) (loss : option string)
    (alpha : option Q) (r sp : Q) (standardize debias : bool) :
  let built := __init__ penalty is_classif loss (of_option alpha) (PyNum r)
                 sp standardize debias in
  if rejected penalty is_classif loss r sp
  then is_value_error built = true
  else built = Ok (mkBaseSpaceNet penalty is_classif loss (of_option alpha)
                     (PyNum r) sp standardize debias,
                   expected_warnings r).
Proof.
  cbv zeta.
  unfold rejected, rejected_exact, __init__, check_params, check_number_or_none,
    check_l1_ratio, expected_warnings; cbn [Params.alpha Params.l1_ratio
    Params.penalty Params.loss Params.is_classif Params.screening_percentile].
  rewrite loss_is_logistic.
  assert (Ha : is_none (of_option alpha) || is_number (of_option alpha) = true)
    by (destruct alpha; reflexivity).
  rewrite Ha; cbn [negb bind is_none is_number orb].
  destruct (Qleb 0 r && Qleb r 1); cbn [negb bind orb];
    [ | rewrite !orb_true_r; reflexivity ].
  destruct (Qleb 0 sp && Qleb sp 100); cbn [negb bind orb];
    [ | destruct (Qeqb r 0 || Qeqb r 1); cbn [bind];
        rewrite !orb_true_r; reflexivity ].
  rewrite !orb_false_r.
  destruct (str_in (lower penalty) SUPPORTED_PENALTIES); cbn [negb bind orb];
    [ | destruct (Qeqb r 0 || Qeqb r 1); reflexivity ].
  destruct loss as [l|]; cbn [option_map negb bind orb andb].
  - destruct (str_in (lower l) SUPPORTED_LOSSES); cbn [negb bind orb];
      [ | destruct (Qeqb r 0 || Qeqb r 1); reflexivity ].
    destruct is_classif; cbn [negb andb].
    + rewrite andb_false_r. destruct (Qeqb r 0 || Qeqb r 1); reflexivity.
    + rewrite andb_true_r.
      destruct (String.eqb (lower l) "logistic");
        destruct (Qeqb r 0 || Qeqb r 1); reflexivity.
  - destruct (Qeqb r 0 || Qeqb r 1); reflexivity.
Qed.

End ParamsFacts.

(** ** The early-stopping callback *)

Module EarlyStoppingFacts.
Import Float Mask SpaceNet.
Local Open Scope list_scope.

Section Callback.

Variables spearmanr pearsonr : list Q -> list Q -> float.

Let call := __call__ spearmanr pearsonr.
Let run := calls spearmanr pearsonr.

Lemma call_spec (self self' : EarlyStoppingCallback) (w : list Q)
    (r : option bool) :
  call self w = Ok (self', r) ->
  counter self' = S (counter self)
  /\ (exists score, test_scores self' = test_scores self ++ [score])
  /\ (r = Some true <-> checkpoint (counter self') (test_scores self')).
Proof.
  unfold call, __call__, checkpoint.
  destruct (test_score spearmanr pearsonr self w) as [[s1 s2]|e];
    cbn [bind fst]; [ | discriminate ].
  replace (S (counter self) =? 0)%nat with false by reflexivity.
  destruct (20 <? S (counter self))%nat eqn:H20;
    destruct (S (counter self) mod 10 =? 2)%nat eqn:Hmod;
    cbn [andb negb];
    try (intros [= <- <-]; cbn [SpaceNet.counter SpaceNet.test_scores];
         split; [ reflexivity | split; [ eexists; reflexivity | ] ];
         split; [ discriminate | ];
         intros (Hc & Hm & _);
         apply Nat.ltb_ge in H20 || apply Nat.eqb_neq in Hmod; lia).
  destruct (4 <? List.length (test_scores self ++ [s1]))%nat eqn:Hlen;
    destruct (plateau (test_scores self ++ [s1])) eqn:Hp; cbn [andb];
    intros [= <- <-]; cbn [SpaceNet.counter SpaceNet.test_scores];
    (split; [ reflexivity | split; [ eexists; reflexivity | ] ]);
    apply Nat.ltb_lt in H20; apply Nat.eqb_eq in Hmod;
    rewrite ?Hp.
  - apply Nat.ltb_lt in Hlen. split; [ intros _ | reflexivity ].
    repeat split; auto; lia.
  - split; [ discriminate | intros (_ & _ & _ & ?); discriminate ].
  - apply Nat.ltb_ge in Hlen.
    split; [ discriminate | intros (_ & _ & ? & _); lia ].
  - split; [ discriminate | intros (_ & _ & _ & ?); discriminate ].
Qed.

Lemma run_spec (ws : list (list Q)) :
  forall (self final : EarlyStoppingCallback) (outs : list (option bool)),
    run self ws = Ok (final, outs) ->
    List.length (test_scores self) = counter self ->
    List.length outs = List.length ws
    /\ (exists new, test_scores final = test_scores self ++ new
                    /\ List.length new = List.length ws)
    /\ forall k, (k < List.length ws)%nat ->
         (nth k outs None = Some true
          <-> checkpoint (counter self + S k)
                (firstn (counter self + S k) (test_scores final))).
Proof.
  induction ws as [|w ws IH]; intros self final outs Hrun Hlen.
  - cbn in Hrun. injection Hrun as <- <-.
    split; [ reflexivity | split ].
    + exists []. rewrite app_nil_r. split; reflexivity.
    + cbn. intros k Hk. lia.
  - unfold run in Hrun. cbn [calls] in Hrun.
    destruct (__call__ spearmanr pearsonr self w) as [[self1 r]|e] eqn:Hcall;
      cbn [bind fst snd] in Hrun; [ | discriminate ].
    destruct (calls spearmanr pearsonr self1 ws) as [[final1 outs1]|e] eqn:Hrest;
      cbn [bind fst snd] in Hrun; [ | discriminate ].
    injection Hrun as <- <-.
    destruct (call_spec self w Hcall) as (Hc & (score & Hs) & Hr).
    assert (Hlen1 : List.length (test_scores self1) = counter self1).
    { rewrite Hs, Hc, length_app. cbn. lia. }
    destruct (IH self1 final1 outs1 Hrest Hlen1) as (Ho & (new & Hn & Hnl) & Hk).
    split; [ cbn; lia | split ].
    + exists (score :: new). rewrite Hn, Hs, <- app_assoc. cbn.
      split; [ reflexivity | lia ].
    + intros [|k] Hlt.
      * cbn [nth]. rewrite Hr, Hc.
        replace (counter self + 1)%nat with (S (counter self)) by lia.
        rewrite Hn. rewrite firstn_app.
        replace (S (counter self) - List.length (test_scores self1))%nat
          with 0%nat by lia.
        rewrite firstn_all2 by lia. cbn [firstn]. rewrite app_nil_r.
        reflexivity.
      * cbn [nth]. cbn in Hlt. rewrite Hk by lia. rewrite Hc.
        replace (S (counter self) + S k)%nat
          with (counter self + S (S k))%nat by lia.
        reflexivity.
Qed.

End Callback.

(** On finite scores the test compares [(s[n-4] - s[n]) / 4], the oldest
    of the last five minus the newest, with [-1e-4]. *)
Lemma plateau_of_finite (l : list float) (a b c d e : Q) :
  plateau (l ++ [Fin a; Fin b; Fin c; Fin d; Fin e]) = true
  <-> (- (1 # 10000) <= (a - e) / 4)%Q.
Proof.
  unfold plateau, Np.last_k.
  rewrite length_app. cbn [List.length].
  replace (List.length l + 5 - 5)%nat with (List.length l + 0)%nat by lia.
  rewrite skipn_app, skipn_all2 by lia.
  replace (List.length l + 0 - List.length l)%nat with 0%nat by lia.
  cbn. rewrite Qle_bool_iff.
  assert (E : (0 + (d + - e) + (c + - d) + (b + - c) + (a + - b)) / 4
              == (a - e) / 4) by (field).
  rewrite E. reflexivity.
Qed.

(** C5 (as stated) fails.  Twenty-two calls on two held-out observations:
    eighteen weight maps scoring [-1], then four scoring [+1].  At call 22
    the mean first difference of the last five recorded scores is
    [(1 - (-1)) / 4 = 0.5 >= -1e-4] and five scores are recorded, yet the
    callback answers [False]: it differences the scores newest first. *)
Lemma rising_scores_do_not_stop :
  match calls corr_two_points corr_two_points
          (EarlyStoppingCallback_init [[1; 0]; [2; 0]] [1; 2] false false 0 0)
          (repeat [- (1); 0] 18 ++ repeat [1; 0] 4) with
  | Ok (final, outs) =>
      counter final = 22%nat
      /\ Np.last_k 5 (test_scores final)
         = [Fin (- (1)); Fin 1; Fin 1; Fin 1; Fin 1]
      /\ plateau_as_recorded (test_scores final) = true
      /\ nth 21 outs None = Some false
  | Raise _ => False
  end.
Proof. vm_compute. repeat split; reflexivity. Qed.

(** C5 (amended): in a sequence of calls on a fresh callback, call number
    [k + 1] has running counter [k + 1]; it returns [True] exactly when the
    counter exceeds 20, is congruent to 2 modulo 10, at least five scores
    have been recorded and the mean first difference of the last five
    recorded scores, taken newest first, is at least [-1e-4].  At every
    other call it does not signal a stop. *)
Theorem early_stopping_checkpoints
    (spearmanr pearsonr : list Q -> list Q -> float)
    (X_test : list (list Q)) (y_test : list Q) (is_classif debias : bool)
    (ymean : Q) (verbose : nat) (ws : list (list Q))
    (final : EarlyStoppingCallback) (outs : list (option bool)) :
  calls spearmanr pearsonr
    (EarlyStoppingCallback_init X_test y_test is_classif debias ymean verbose)
    ws = Ok (final, outs) ->
  List.length outs = List.length ws
  /\ List.length (test_scores final) = List.length ws
  /\ forall k, (k < List.length ws)%nat ->
       (nth k outs None = Some true
        <-> (20 < S k)%nat /\ (S k mod 10 = 2)%nat
            /\ (5 <= List.length (firstn (S k) (test_scores final)))%nat
            /\ plateau (firstn (S k) (test_scores final)) = true).
Proof.
  intros Hrun.
  destruct (@run_spec spearmanr pearsonr ws _ final outs Hrun eq_refl)
    as (Ho & (new & Hn & Hl) & Hk).
  split; [ exact Ho | split ].
  - rewrite Hn. cbn. exact Hl.
  - intros k Hlt. apply (Hk k Hlt).
Qed.

Lemma early_stopping_checkpoints_witness :
  exists final outs,
    calls corr_two_points corr_two_points
      (EarlyStoppingCallback_init [[1; 0]; [2; 0]] [1; 2] false false 0 0)
      (repeat [1; 0] 22) = Ok (final, outs)
    /\ List.length outs = 22%nat
    /\ nth 21 outs None = Some true.
Proof.
  destruct (calls corr_two_points corr_two_points
              (EarlyStoppingCallback_init [[1; 0]; [2; 0]] [1; 2] false false 0 0)
              (repeat [1; 0] 22)) as [[final outs]|e] eqn:Hrun;
    [ | vm_compute in Hrun; discriminate ].
  exists final, outs. split; [ reflexivity | ].
  destruct (early_stopping_checkpoints _ _ _ _ _ _ _ _ _ Hrun) as (Ho & _ & Hk).
  split; [ exact Ho | ].
  apply (Hk 21%nat); [ cbn; lia | ].
  vm_compute in Hrun. injection Hrun as <- <-.
  vm_compute. repeat split; reflexivity || lia.
Defined.

End EarlyStoppingFacts.

(** ** Scoring and selection in [path_scores] *)

Module SelectionFacts.
Import Float Mask SpaceNet.
Local Open Scope list_scope.
Local Open Scope Q_scope.

Lemma selects_needs_finite (State : Type) (score secundary_score : float)
    (st : loop_state State) :
  isfinite score = false -> selects score secundary_score st = false.
Proof. intros H. unfold selects. rewrite H. reflexivity. Qed.

Section Loop.

Variables spearmanr pearsonr : list Q -> list Q -> float.
Variable State : Type.
Variable solver :
  list (list Q) -> list Q -> Q -> Q -> mask3 -> option State ->
  option EarlyStoppingCallback -> list Q * State.

Lemma test_score_constant (self : EarlyStoppingCallback) (w : list Q)
    (range : Q) :
  Np.ptp (if is_classif self then Np.but_last w else w) = Ok range ->
  range == 0 ->
  test_score spearmanr pearsonr self w = Ok (NegInf, NegInf).
Proof.
  intros Hptp Hzero. unfold test_score. rewrite Hptp. cbn [bind].
  apply Qeq_bool_iff in Hzero. rewrite Hzero. reflexivity.
Qed.

Lemma loop_body_non_finite (X_train : list (list Q)) (y_train : list Q)
    (X_test : list (list Q)) (y_test : list Q) (l1_ratio : Q) (mask : mask3)
    (is_classif debias : bool) (ymean : Q) (verbose : nat)
    (st : loop_state State) (alpha : Q) (score secundary : float) :
  let early_stopper :=
    EarlyStoppingCallback_init X_test y_test is_classif debias ymean verbose in
  test_score spearmanr pearsonr early_stopper
    (fst (solver X_train y_train alpha l1_ratio mask (l_init st)
            (Some early_stopper))) = Ok (score, secundary) ->
  isfinite score = false ->
  exists st',
    loop_body spearmanr pearsonr solver X_train y_train X_test y_test
      l1_ratio mask is_classif debias ymean verbose st alpha = Ok st'
    /\ l_test_scores st' = l_test_scores st ++ [score]
    /\ l_best_alpha st' = l_best_alpha st
    /\ l_best_score st' = l_best_score st
    /\ l_best_secundary_score st' = l_best_secundary_score st
    /\ l_best_init st' = l_best_init st.
Proof.
  intros es Hscore Hfin. unfold loop_body. fold es.
  destruct (solver X_train y_train alpha l1_ratio mask (l_init st) (Some es))
    as [w init]. cbn [fst] in Hscore. rewrite Hscore. cbn [bind].
  rewrite (@selects_needs_finite State score secundary st Hfin).
  eexists. split; [ reflexivity | ]. cbn. repeat split; reflexivity.
Qed.

(** After any number of alphas, either no alpha was ever recorded (the
    initial [alphas[0]] stands with score [-inf]) or the recorded best score
    is finite. *)
Lemma alpha_loop_best_is_finite (X_train : list (list Q)) (y_train : list Q)
    (X_test : list (list Q)) (y_test : list Q) (l1_ratio : Q) (mask : mask3)
    (is_classif debias : bool) (ymean : Q) (verbose : nat)
    (alphas : list Q) :
  forall st st' : loop_state State,
    alpha_loop
      (loop_body spearmanr pearsonr solver X_train y_train X_test y_test
         l1_ratio mask is_classif debias ymean verbose) st alphas = Ok st' ->
    isfinite (l_best_score st') = true
    \/ (l_best_score st' = l_best_score st
        /\ l_best_alpha st' = l_best_alpha st
        /\ l_best_init st' = l_best_init st).
Proof.
  induction alphas as [|alpha alphas IH]; intros st st' Hloop.
  - cbn in Hloop. injection Hloop as <-. right. repeat split.
  - cbn [alpha_loop] in Hloop.
    destruct (loop_body spearmanr pearsonr solver X_train y_train X_test
                y_test l1_ratio mask is_classif debias ymean verbose st alpha)
      as [st1|e] eqn:Hbody; cbn [bind] in Hloop; [ | discriminate ].
    destruct (IH st1 st' Hloop) as [Hfin | (Hs & Ha & Hi)]; [ left; exact Hfin | ].
    unfold loop_body in Hbody.
    destruct (solver X_train y_train alpha l1_ratio mask (l_init st) _)
      as [w init].
    destruct (test_score spearmanr pearsonr _ w) as [[score sec]|e];
      cbn [bind] in Hbody; [ | discriminate ].
    destruct (selects score sec st) eqn:Hsel; injection Hbody as <-;
      cbn in Hs, Ha, Hi.
    + left. rewrite Hs. unfold selects in Hsel.
      apply andb_prop in Hsel. tauto.
    + right. repeat split; assumption.
Qed.

End Loop.

End SelectionFacts.

(** ** [path_scores] on a single fold (empty test set) *)

Module SingleFoldFacts.
Import Float Mask SpaceNet.
Local Open Scope list_scope.
Local Open Scope Q_scope.

Section Driver.

Variables spearmanr pearsonr : list Q -> list Q -> float.
Variable gaussian_filter : vol Q -> Q -> vol Q.
Variable select_percentile :
  bool -> Q -> list (list Q) -> list Q -> list bool.
Variables binary_erosion binary_dilation : mask3 -> mask3.
Variable center_data :
  list (list Q) -> list Q -> list (list Q) * list Q * list Q * Q.
Variable State : Type.
Variable solver :
  list (list Q) -> list Q -> Q -> Q -> mask3 -> option State ->
  option EarlyStoppingCallback -> list Q * State.
Variable alpha_grid :
  list (list Q) -> list Q -> Q -> nat -> Q -> bool -> result (list Q).

Let driver :=
  path_scores spearmanr pearsonr gaussian_filter select_percentile
    binary_erosion binary_dilation center_data solver alpha_grid.

Ltac next_bind :=
  lazymatch goal with
  | |- is_ok (bind ?m _) = false =>
      let E := fresh "E" in
      destruct m eqn:E; cbn [bind]; [ | reflexivity ]
  | |- is_ok (let '(_, _) := ?p in _) = false => destruct p
  end.

(** With an empty test set and [debias=True] the driver never returns: when
    nothing fails earlier, [early_stopper], bound only inside the scoring
    loop, is read before assignment. *)
Lemma single_fold_debias_never_returns (X : list (list Q)) (y : list Q)
    (mask : mask3) (alphas : option (list Q)) (l1_ratio : Q)
    (train : list nat) (n_alphas : nat) (eps : Q) (is_classif : bool)
    (init : option State) (key : nat) (Xmean : option (list Q)) (ymean : Q)
    (screening_percentile : Q) (verbose : nat) :
  is_ok (driver X y mask alphas l1_ratio train [] n_alphas eps is_classif init
           key true Xmean ymean screening_percentile verbose) = false.
Proof.
  unfold driver, path_scores.
  next_bind. destruct a as [[X' mask'] support].
  do 3 next_bind. cbn [Np.take bind].
  destruct (center_data a0 a1) as [[[X_train y_train] X_mean] y_mean].
  do 2 next_bind.
  cbn [List.length Nat.ltb Nat.leb bind l_best_alpha l_best_init
       l_early_stopper].
  next_bind. reflexivity.
Qed.

(** Without debiasing a single-fold call that returns reports the sentinel
    score alone, the largest alpha of the grid it was given, and the weights
    of one solve without callback, un-screened and completed by the
    intercept when they have [n_features] entries. *)
Lemma single_fold_returns_sentinel (X : list (list Q)) (y : list Q)
    (mask : mask3) (grid : list Q) (l1_ratio : Q)
    (train : list nat) (n_alphas : nat) (eps : Q) (is_classif : bool)
    (init : option State) (key : nat) (Xmean : option (list Q)) (ymean : Q)
    (screening_percentile : Q) (verbose : nat)
    (scores : list float) (best_w : list Q) (best_alpha : Q) (key' : nat) :
  driver X y mask (Some grid) l1_ratio train [] n_alphas eps is_classif init
    key false Xmean ymean screening_percentile verbose
  = Ok (scores, best_w, best_alpha, key') ->
  scores = [NaN] /\ key' = key
  /\ hd_error (sorted_descending grid) = Some best_alpha
  /\ exists X_train y_train mask' support w1,
       match support with
       | Some sup =>
           unscreen is_classif sup
             (fst (solver X_train y_train best_alpha l1_ratio mask' init None))
       | None =>
           Ok (fst (solver X_train y_train best_alpha l1_ratio mask' init None))
       end = Ok w1
       /\ (best_w = w1
           \/ exists d, best_w = w1 ++ [ymean - d]
                        /\ List.length w1 = n_columns X).
Proof.
  unfold driver, path_scores. intros H.
  destruct (if (100 <? n_columns X)%nat && _ then _ else _)
    as [[[X' mask'] support]|e]; cbn [bind] in H; [ | discriminate ].
  destruct (_crop_mask mask') as [mask''|e]; cbn [bind] in H; [ | discriminate ].
  destruct (Np.take X' train) as [X_tr|e]; cbn [bind] in H; [ | discriminate ].
  destruct (Np.take y train) as [y_tr|e]; cbn [bind Np.take] in H;
    [ | discriminate ].
  destruct (center_data X_tr y_tr) as [[[X_train y_train] X_mean] y_mean].
  cbn [bind] in H.
  destruct (sorted_descending grid) as [|a0 rest] eqn:Hgrid;
    cbn [bind List.length Nat.ltb Nat.leb Nat.eqb l_best_alpha l_best_init
         l_test_scores app] in H; [ discriminate | ].
  destruct (solver X_train y_train a0 l1_ratio mask'' init None) as [w0 st]
    eqn:Hsolve.
  cbn [bind] in H.
  destruct (match support with
            | Some sup => unscreen is_classif sup w0
            | None => Ok w0
            end) as [w1|e] eqn:Hun; cbn [bind] in H; [ | discriminate ].
  destruct (List.length w1 =? n_columns X)%nat eqn:Hlen.
  - destruct (Np.dot _ w1) as [d|e]; cbn [bind] in H; [ | discriminate ].
    injection H as <- <- <- <-.
    repeat split; try reflexivity.
    exists X_train, y_train, mask'', support, w1.
    rewrite Hsolve. cbn [fst]. split; [ exact Hun | ].
    right. exists d. split; [ reflexivity | ].
    apply Nat.eqb_eq. exact Hlen.
  - cbn [bind] in H. injection H as <- <- <- <-.
    repeat split; try reflexivity.
    exists X_train, y_train, mask'', support, w1.
    rewrite Hsolve. cbn [fst]. split; [ exact Hun | ]. left. reflexivity.
Qed.

End Driver.

(** C7: on the single-fold call the estimator makes for
    [alpha=..., debias=True] the driver raises [NameError] where the claim
    promises the triple [([nan], weights, alphas[0])]; with [debias=True]
    and an empty test set it returns on no input at all. *)
Theorem single_fold_with_debias_raises :
  path_scores corr_two_points corr_two_points
    (fun v _ => v) (fun _ _ _ _ => [true; true]) (fun m => m) (fun m => m)
    (fun X y => (X, y, [0; 0], 0))
    (fun _ _ _ _ _ _ _ => ([1; 2; 0], tt))
    (fun _ _ _ _ _ _ => Ok [1])
    [[1; 2]; [3; 5]] [1; - (1)] [[[true; true]]] (Some [1 # 2]) (1 # 2)
    [0%nat; 1%nat] [] 1 (1 # 1000) true None 0 true None 0 20 0
  = Raise (NameError "local variable 'early_stopper' referenced before assignment")
  /\ path_scores corr_two_points corr_two_points
       (fun v _ => v) (fun _ _ _ _ => [true; true]) (fun m => m) (fun m => m)
       (fun X y => (X, y, [0; 0], 0))
       (fun _ _ _ _ _ _ _ => ([1; 2; 0], tt))
       (fun _ _ _ _ _ _ => Ok [1])
       [[1; 2]; [3; 5]] [1; - (1)] [[[true; true]]] (Some [1 # 2]) (1 # 2)
       [0%nat; 1%nat] [] 1 (1 # 1000) true None 0 false None 0 20 0
     = Ok ([NaN], [1; 2; 0], 1 # 2, 0%nat)
  /\ forall spearmanr pearsonr gaussian_filter select_percentile
       binary_erosion binary_dilation center_data (State : Type)
       (solver : list (list Q) -> list Q -> Q -> Q -> mask3 -> option State ->
                 option EarlyStoppingCallback -> list Q * State)
       alpha_grid X y mask alphas l1_ratio train n_alphas eps is_classif init
       key Xmean ymean screening_percentile verbose,
       is_ok (path_scores spearmanr pearsonr gaussian_filter select_percentile
                binary_erosion binary_dilation center_data solver alpha_grid
                X y mask alphas l1_ratio train [] n_alphas eps is_classif init
                key true Xmean ymean screening_percentile verbose) = false.
Proof.
  split; [ vm_compute; reflexivity | split; [ vm_compute; reflexivity | ] ].
  intros. apply single_fold_debias_never_returns.
Qed.

End SingleFoldFacts.

(** ** The regularisation grid *)

Module AlphaGridFacts.
Import AlphaGrid.
Local Open Scope list_scope.

Section Reals.
Local Open Scope R_scope.

Lemma ln_10_pos : 0 < ln 10.
Proof. rewrite <- ln_1. apply ln_increasing; lraR. Qed.

Lemma pow10_log10 (a : R) : 0 < a -> pow10 (log10 a) = a.
Proof.
  intros Ha. unfold pow10, log10, Rpower.
  replace (ln a / ln 10 * ln 10) with (ln a)
    by (field; apply Rgt_not_eq, ln_10_pos).
  apply exp_ln, Ha.
Qed.

Lemma pow10_pos (x : R) : 0 < pow10 x.
Proof. unfold pow10, Rpower. apply exp_pos. Qed.

Lemma pow10_increasing (x y : R) : x < y -> pow10 x < pow10 y.
Proof. intros H. unfold pow10. apply Rpower_lt; lraR. Qed.

Lemma log10_increasing (a b : R) : 0 < a -> a < b -> log10 a < log10 b.
Proof.
  intros Ha Hab. unfold log10.
  apply Rmult_lt_compat_r; [ apply Rinv_0_lt_compat, ln_10_pos | ].
  apply ln_increasing; assumption.
Qed.

Lemma nth_map_seq (A : Type) (f : nat -> A) (n i : nat) (d : A) :
  (i < n)%nat -> nth i (map f (seq 0 n)) d = f i.
Proof.
  intros Hi.
  rewrite (nth_indep _ d (f 0%nat)) by (rewrite length_map, length_seq; exact Hi).
  rewrite map_nth, seq_nth by exact Hi. reflexivity.
Qed.

(** Over the reals the overwritten endpoint is the value the ramp reaches. *)
Lemma linspace_nth (start stop : R) (num i : nat) :
  (i < num)%nat ->
  nth i (linspace start stop num) 0
  = start + INR i * ((stop - start) / INR (num - 1)).
Proof.
  intros Hi. unfold linspace. rewrite nth_map_seq by exact Hi.
  destruct (1 <? num)%nat eqn:H1; destruct (i =? num - 1)%nat eqn:Hl;
    cbn [andb]; try reflexivity.
  apply Nat.ltb_lt in H1. apply Nat.eqb_eq in Hl. subst i.
  assert (Hn : INR (num - 1) <> 0) by (apply not_0_INR; lia).
  field. exact Hn.
Qed.

Lemma length_linspace (start stop : R) (num : nat) :
  List.length (linspace start stop num) = num.
Proof. unfold linspace. rewrite length_map, length_seq. reflexivity. Qed.

Lemma linspace_increasing (start stop : R) (num i j : nat) :
  start < stop -> (i < j)%nat -> (j < num)%nat ->
  nth i (linspace start stop num) 0 < nth j (linspace start stop num) 0.
Proof.
  intros Hlt Hij Hj.
  rewrite !linspace_nth by lia.
  assert (Hn : 0 < INR (num - 1)) by (apply lt_0_INR; lia).
  assert (Hstep : 0 < (stop - start) / INR (num - 1)).
  { apply Rdiv_lt_0_compat; lraR. }
  assert (Hi : INR i < INR j) by (apply lt_INR; exact Hij).
  nraR.
Qed.

Lemma logspace_nth (start stop : R) (num i : nat) :
  (i < num)%nat ->
  nth i (logspace start stop num) 0 = pow10 (nth i (linspace start stop num) 0).
Proof.
  intros Hi. unfold logspace.
  rewrite (nth_indep _ 0 (pow10 0))
    by (rewrite length_map, length_linspace; exact Hi).
  apply map_nth.
Qed.

(** The reversed log-spaced ramp between two positive bounds. *)
Lemma reversed_logspace (lo hi : R) (num : nat) :
  0 < lo -> lo < hi -> (2 <= num)%nat ->
  let grid := rev (logspace (log10 lo) (log10 hi) num) in
  List.length grid = num
  /\ Forall (fun a => 0 < a) grid
  /\ strictly_decreasing grid
  /\ hd_error grid = Some hi.
Proof.
  intros Hlo Hlt Hnum grid.
  assert (Hlen : List.length (logspace (log10 lo) (log10 hi) num) = num).
  { unfold logspace. rewrite length_map. apply length_linspace. }
  assert (Hlog : log10 lo < log10 hi) by (apply log10_increasing; assumption).
  split; [ | split; [ | split ] ].
  - unfold grid. rewrite length_rev. exact Hlen.
  - unfold grid, logspace. apply Forall_rev, Forall_map.
    apply Forall_forall. intros x _. apply pow10_pos.
  - unfold strictly_decreasing, grid. intros i j Hij Hj.
    rewrite length_rev, Hlen in Hj.
    rewrite !rev_nth by (rewrite Hlen; lia). rewrite Hlen.
    rewrite !logspace_nth by lia.
    apply pow10_increasing, linspace_increasing; trivial; lia.
  - assert (Hhd : nth 0 grid 0 = hi).
    { unfold grid. rewrite rev_nth by (rewrite Hlen; lia). rewrite Hlen.
      rewrite logspace_nth, linspace_nth by lia.
      replace (num - 1)%nat with (num - 1 - 0)%nat at 1 by lia.
      replace (num - 1 - 0)%nat with (num - 1)%nat by lia.
      assert (Hn : INR (num - 1) <> 0) by (apply not_0_INR; lia).
      replace (log10 lo + INR (num - 1) * ((log10 hi - log10 lo) / INR (num - 1)))
        with (log10 hi) by (field; exact Hn).
      apply pow10_log10. lraR. }
    destruct grid as [|g0 rest] eqn:Hgrid.
    + assert (Hl : List.length grid = num)
        by (unfold grid; rewrite length_rev; exact Hlen).
      rewrite Hgrid in Hl. cbn in Hl. lia.
    + cbn in Hhd. cbn. rewrite Hhd. reflexivity.
Qed.

End Reals.

Local Open Scope Q_scope.

Lemma Q2R_pos (a : Q) : 0 < a -> (0 < Q2R a)%R.
Proof. intros H. rewrite <- RMicromega.Q2R_0. apply Qlt_Rlt, H. Qed.

Lemma Qle_bool_false (a b : Q) : b < a -> Qle_bool a b = false.
Proof.
  intros H. destruct (Qle_bool a b) eqn:E; [ | reflexivity ].
  apply Qle_bool_iff in E. lraQ.
Qed.

Lemma Qeq_bool_false (a b : Q) : ~ a == b -> Qeq_bool a b = false.
Proof.
  intros H. destruct (Qeq_bool a b) eqn:E; [ | reflexivity ].
  apply Qeq_bool_iff in E. contradiction.
Qed.

(** A returned bound comes from at least one sample. *)
Lemma max_abs_ok_nonempty (X : list (list Q)) (v : list Q) (a : Q) :
  max_abs_XT_dot X v = Ok a -> (0 < List.length X)%nat.
Proof.
  unfold max_abs_XT_dot, XT_dot.
  destruct (List.length X =? List.length v)%nat; cbn [bind]; [ | discriminate ].
  destruct X as [|row X']; [ cbn; discriminate | cbn; lia ].
Qed.

Lemma raw_ok_nonempty (X : list (list Q)) (y : list Q) (logistic : bool)
    (a : Q) :
  raw_alpha_max X y logistic = Ok a -> (0 < List.length X)%nat.
Proof.
  unfold raw_alpha_max, logistic_bound. destruct logistic.
  - destruct (pseudo_residuals y) as [b|e]; cbn [bind]; [ | discriminate ].
    destruct (max_abs_XT_dot X b) as [a0|e] eqn:Hb; cbn [bind];
      [ | discriminate ].
    intros _. exact (max_abs_ok_nonempty X b Hb).
  - apply max_abs_ok_nonempty.
Qed.

Lemma inject_nat_pos (n : nat) : (0 < n)%nat -> 0 < inject_Z (Z.of_nat n).
Proof.
  intros H. unfold Qlt, inject_Z. cbn. lia.
Qed.

Lemma guarded_l1_ratio_pos (l1_ratio : Q) :
  0 <= l1_ratio -> 0 < guarded_l1_ratio l1_ratio.
Proof.
  intros H. unfold guarded_l1_ratio.
  destruct (Qeq_bool l1_ratio 0) eqn:E; [ reflexivity | ].
  apply Qeq_bool_neq in E. lraQ.
Qed.

Lemma divisor_pos (X : list (list Q)) (l1_ratio : Q) :
  (0 < List.length X)%nat -> 0 <= l1_ratio -> 0 < divisor X l1_ratio.
Proof.
  intros HX Hl. unfold divisor.
  apply Qmult_lt_0_compat;
    [ apply inject_nat_pos, HX | apply guarded_l1_ratio_pos, Hl ].
Qed.

Lemma scaled_of_raw (X : list (list Q)) (y : list Q) (l1_ratio : Q)
    (logistic : bool) (raw : Q) :
  raw_alpha_max X y logistic = Ok raw -> 0 <= l1_ratio ->
  scaled_alpha_max X y l1_ratio logistic = Ok (raw / divisor X l1_ratio).
Proof.
  intros Hraw Hl. unfold scaled_alpha_max. rewrite Hraw. cbn [bind].
  assert (Hd : 0 < divisor X l1_ratio)
    by (apply divisor_pos; [ exact (raw_ok_nonempty X y logistic Hraw) | exact Hl ]).
  rewrite Qeq_bool_false by lraQ. reflexivity.
Qed.

(** C2 (amended): over the reals ([log10] and [10 ** x] without rounding),
    for l1_ratio in [0, 1], eps in (0, 1) and n_alphas >= 1, whenever the
    rescaled alpha_max is strictly positive the function returns exactly
    n_alphas strictly positive values, strictly decreasing, the first
    being alpha_max. *)
Theorem alpha_grid_is_positive_and_decreasing
    (X : list (list Q)) (y : list Q) (eps : Q) (n_alphas : nat)
    (l1_ratio : Q) (logistic : bool) (alpha_max : Q) :
  0 <= l1_ratio -> l1_ratio <= 1 -> 0 < eps -> eps < 1 ->
  (1 <= n_alphas)%nat ->
  scaled_alpha_max X y l1_ratio logistic = Ok alpha_max ->
  0 < alpha_max ->
  exists grid,
    _space_net_alpha_grid X y eps n_alphas l1_ratio logistic = Ok grid
    /\ List.length grid = n_alphas
    /\ Forall (fun a => (0 < a)%R) grid
    /\ strictly_decreasing grid
    /\ hd_error grid = Some (Q2R alpha_max).
Proof.
  intros Hl0 Hl1 He0 He1 Hn Hscaled Hpos.
  unfold _space_net_alpha_grid. rewrite Hscaled. cbn [bind].
  destruct (n_alphas =? 1)%nat eqn:Hone.
  - apply Nat.eqb_eq in Hone. subst n_alphas.
    exists [Q2R alpha_max]. split; [ reflexivity | split; [ reflexivity | ] ].
    split; [ constructor; [ apply Q2R_pos, Hpos | constructor ] | ].
    split; [ | reflexivity ].
    intros i j Hij Hj. cbn in Hj. lia.
  - apply Nat.eqb_neq in Hone.
    assert (Hmin : 0 < alpha_max * eps) by (apply Qmult_lt_0_compat; assumption).
    rewrite (Qle_bool_false Hmin), (Qle_bool_false Hpos). cbn [orb].
    eexists. split; [ reflexivity | ].
    apply reversed_logspace.
    + apply Q2R_pos, Hmin.
    + apply Qlt_Rlt.
      setoid_replace alpha_max with (alpha_max * 1) at 2 by ring.
      apply Qmult_lt_l; assumption.
    + lia.
Qed.

Lemma alpha_grid_is_positive_and_decreasing_witness :
  exists grid,
    _space_net_alpha_grid [[1; 2]; [3; 5]] [1; - (1)] (1 # 1000) 3 (1 # 2) false
    = Ok grid
    /\ List.length grid = 3%nat
    /\ hd_error grid = Some (Q2R (6 # 2)).
Proof.
  destruct (@alpha_grid_is_positive_and_decreasing
              [[1; 2]; [3; 5]] [1; - (1)] (1 # 1000) 3 (1 # 2) false (6 # 2))
    as (grid & Hgrid & Hlen & _ & _ & Hhd).
  - unfold Qle; simpl; lia.
  - unfold Qle; simpl; lia.
  - reflexivity.
  - reflexivity.
  - lia.
  - vm_compute. reflexivity.
  - reflexivity.
  - exists grid. repeat split; assumption.
Defined.

(** C3 (as stated) fails: for [l1_ratio = 1/2000], strictly between 0 and
    [1e-3], one sample and [max|X^T y| = 1], alpha_max becomes
    [1 / (1 * (1/2000)) = 2000]; dividing by
    [n_samples * max(l1_ratio, 1e-3)] would give 1000. *)
Lemma small_l1_ratio_is_not_clipped :
  raw_alpha_max [[1]] [1] false = Ok 1
  /\ scaled_alpha_max [[1]] [1] (1 # 2000) false = Ok 2000
  /\ 1 / divisor_max [[1]] (1 # 2000) == 1000
  /\ ~ divisor [[1]] (1 # 2000) == divisor_max [[1]] (1 # 2000).
Proof.
  split; [ reflexivity | split; [ reflexivity | split ] ].
  - reflexivity.
  - vm_compute. discriminate.
Qed.

(** C3 (amended): the raw alpha_max is divided by
    [n_samples * l1_ratio'] before the grid is built, where [l1_ratio'] is
    [1e-3] when l1_ratio is exactly 0 and l1_ratio itself otherwise.  This
    is [n_samples * max(l1_ratio, 1e-3)] when l1_ratio is 0 or at least
    [1e-3]; for l1_ratio strictly between 0 and [1e-3] the divisor is
    [n_samples * l1_ratio], which is smaller. *)
Theorem alpha_max_is_rescaled
    (X : list (list Q)) (y : list Q) (l1_ratio : Q) (logistic : bool)
    (raw : Q) :
  raw_alpha_max X y logistic = Ok raw ->
  0 <= l1_ratio ->
  scaled_alpha_max X y l1_ratio logistic = Ok (raw / divisor X l1_ratio)
  /\ (forall eps : Q,
        _space_net_alpha_grid X y eps 1 l1_ratio logistic
        = Ok [Q2R (raw / divisor X l1_ratio)])
  /\ (l1_ratio == 0 ->
      divisor X l1_ratio == inject_Z (Z.of_nat (List.length X)) * (1 # 1000))
  /\ (0 < l1_ratio ->
      divisor X l1_ratio == inject_Z (Z.of_nat (List.length X)) * l1_ratio)
  /\ (l1_ratio == 0 \/ 1 # 1000 <= l1_ratio ->
      divisor X l1_ratio == divisor_max X l1_ratio)
  /\ (0 < l1_ratio /\ l1_ratio < 1 # 1000 ->
      divisor X l1_ratio < divisor_max X l1_ratio).
Proof.
  intros Hraw Hl.
  pose proof (scaled_of_raw X y logistic Hraw Hl) as Hscaled.
  pose proof (inject_nat_pos (raw_ok_nonempty X y logistic Hraw)) as Hn.
  unfold divisor, divisor_max, guarded_l1_ratio, Np.Qmax.
  split; [ exact Hscaled | split; [ | split; [ | split; [ | split ] ] ] ].
  - intros eps. unfold _space_net_alpha_grid. rewrite Hscaled. reflexivity.
  - intros H0. rewrite (Qeq_eq_bool _ _ H0). reflexivity.
  - intros Hp. rewrite Qeq_bool_false by lraQ. reflexivity.
  - intros [H0 | Hge].
    + rewrite (Qeq_eq_bool _ _ H0).
      assert (E : Qle_bool l1_ratio (1 # 1000) = true)
        by (apply Qle_bool_iff; lraQ).
      rewrite E. reflexivity.
    + rewrite Qeq_bool_false by lraQ.
      destruct (Qle_bool l1_ratio (1 # 1000)) eqn:E; [ | reflexivity ].
      apply Qle_bool_iff in E.
      assert (Heq : l1_ratio == 1 # 1000) by lraQ.
      rewrite Heq. reflexivity.
  - intros [Hp Hlt]. rewrite Qeq_bool_false by lraQ.
    assert (E : Qle_bool l1_ratio (1 # 1000) = true)
      by (apply Qle_bool_iff; lraQ).
    rewrite E. apply Qmult_lt_l; assumption.
Qed.

Lemma alpha_max_is_rescaled_witness :
  raw_alpha_max [[1; 2]; [3; 5]] [1; - (1)] true = Ok (6 # 4)
  /\ scaled_alpha_max [[1; 2]; [3; 5]] [1; - (1)] 0 true
     = Ok ((6 # 4) / divisor [[1; 2]; [3; 5]] 0).
Proof.
  split; [ reflexivity | ].
  apply (@alpha_max_is_rescaled [[1; 2]; [3; 5]] [1; - (1)] 0 true (6 # 4)).
  - reflexivity.
  - unfold Qle; simpl; lia.
Defined.

(** C4 (as stated) fails: two samples of one feature, [X = [[1], [1]]] and
    [y = [1, -1]].  The logistic bound is zero, the fall-back
    [max|X^T y|] is zero as well, and the one-point grid is [[0]]. *)
Lemma fallback_can_be_zero_too :
  (exists bound, logistic_bound [[1]; [1]] [1; - (1)] = Ok bound /\ bound == 0)
  /\ exists alpha,
       _space_net_alpha_grid [[1]; [1]] [1; - (1)] (1 # 1000) 1 (1 # 2) true
       = Ok [alpha]
       /\ alpha = 0%R.
Proof.
  split.
  - exists (0 # 4). split; reflexivity.
  - exists (Q2R (0 # 2)). split; [ reflexivity | ].
    unfold Q2R. cbn. lraR.
Qed.

(** C4 (amended): when the logistic bound evaluates to exactly zero the
    function uses [max|X^T y|] as alpha_max, so it answers as it does for
    [logistic=False]; the rescaled alpha_max is then strictly positive when
    [max|X^T y|] is. *)
Theorem logistic_bound_falls_back
    (X : list (list Q)) (y : list Q) (bound : Q) :
  logistic_bound X y = Ok bound ->
  bound == 0 ->
  raw_alpha_max X y true = max_abs_XT_dot X y
  /\ (forall (eps : Q) (n_alphas : nat) (l1_ratio : Q),
        _space_net_alpha_grid X y eps n_alphas l1_ratio true
        = _space_net_alpha_grid X y eps n_alphas l1_ratio false)
  /\ (forall (l1_ratio raw : Q),
        0 <= l1_ratio -> max_abs_XT_dot X y = Ok raw -> 0 < raw ->
        exists alpha_max,
          scaled_alpha_max X y l1_ratio true = Ok alpha_max /\ 0 < alpha_max).
Proof.
  intros Hb Hzero.
  assert (Hraw : raw_alpha_max X y true = max_abs_XT_dot X y).
  { unfold raw_alpha_max. rewrite Hb. cbn [bind].
    rewrite (Qeq_eq_bool _ _ Hzero). reflexivity. }
  split; [ exact Hraw | split ].
  - intros eps n_alphas l1_ratio.
    unfold _space_net_alpha_grid, scaled_alpha_max. rewrite Hraw. reflexivity.
  - intros l1_ratio raw Hl Hsq Hpos.
    rewrite <- Hraw in Hsq.
    exists (raw / divisor X l1_ratio).
    split; [ exact (scaled_of_raw X y true Hsq Hl) | ].
    apply Qlt_shift_div_l.
    + apply divisor_pos; [ exact (raw_ok_nonempty X y true Hsq) | exact Hl ].
    + lraQ.
Qed.

Lemma logistic_bound_falls_back_witness :
  logistic_bound [[1]; [1]; [1]] [1; 1; - (1)] = Ok (0 # 27)
  /\ raw_alpha_max [[1]; [1]; [1]] [1; 1; - (1)] true = Ok 1.
Proof.
  split; [ reflexivity | ].
  transitivity (max_abs_XT_dot [[1]; [1]; [1]] [1; 1; - (1)]);
    [ | reflexivity ].
  apply (@logistic_bound_falls_back [[1]; [1]; [1]] [1; 1; - (1)] (0 # 27)).
  - reflexivity.
  - reflexivity.
Defined.

End AlphaGridFacts.

(** ** Prediction standardizes with the statistics of the batch *)

Module PredictFacts.
Import Estimator.
Local Open Scope list_scope.
Local Open Scope R_scope.

Lemma Req_bool_false (a b : R) : a <> b -> Req_bool a b = false.
Proof. intros H. unfold Req_bool. destruct (Req_dec_T a b); tauto. Qed.

(** Two samples of one feature at distance 2: mean [a + 1], deviation 1. *)
Lemma standardize_pair (a : R) :
  _standardize_X [[a]; [a + 2]] = Ok ([[- (1)]; [1]], [a + 1], [1]).
Proof.
  unfold _standardize_X. cbn [List.length Nat.eqb].
  assert (Hmean : mean_axis0 [[a]; [a + 2]] = [a + 1]).
  { unfold mean_axis0. cbn. f_equal. lraR. }
  assert (Hstd : std_axis0 [[a]; [a + 2]] = [1]).
  { unfold std_axis0. rewrite Hmean. unfold mean_axis0. cbn. f_equal.
    match goal with
    | |- sqrt ?e = 1 => replace e with 1 by (unfold Rsqr; field)
    end.
    apply sqrt_1. }
  rewrite Hmean, Hstd. cbn [existsb orb].
  rewrite Req_bool_false by lraR. cbn.
  repeat f_equal; lraR.
Qed.

Lemma predict_low_batch :
  predict unit_slope [[0]; [2]] = Ok (Values [[- (1)]; [1]]).
Proof.
  unfold predict, unit_slope; cbn [masker_transform standardize].
  replace [[0]; [2]] with [[0]; [0 + 2]] by (repeat f_equal; lraR).
  rewrite standardize_pair. cbn. repeat f_equal; lraR.
Qed.

Lemma predict_high_batch :
  predict unit_slope [[- (2)]; [0]] = Ok (Values [[- (1)]; [1]]).
Proof.
  unfold predict, unit_slope; cbn [masker_transform standardize].
  replace [[- (2)]; [0]] with [[- (2)]; [- (2) + 2]] by (repeat f_equal; lraR).
  rewrite standardize_pair. cbn. repeat f_equal; lraR.
Qed.

End PredictFacts.

(** ** Masks derived from a mask keep inside its support *)

Module MaskFacts.
Import Mask.
Local Open Scope list_scope.

(** *** Positions reported by [np.where] *)

Lemma where1_spec (row : list bool) :
  forall k0 k : nat,
    In k (where1 k0 row) <-> (k0 <= k)%nat /\ nth (k - k0) row false = true.
Proof.
  induction row as [|b row IH]; intros k0 k; cbn [where1].
  - split; [ intros [] | intros [_ H]; destruct (k - k0)%nat; discriminate ].
  - rewrite in_app_iff, IH. split.
    + intros [Hb | [Hle Hn]].
      * destruct b; [ | destruct Hb ]. destruct Hb as [<-|[]].
        split; [ lia | ]. rewrite Nat.sub_diag. reflexivity.
      * split; [ lia | ].
        replace (k - k0)%nat with (S (k - S k0)) by lia. exact Hn.
    + intros [Hle Hn]. destruct (Nat.eq_dec k k0) as [->|Hne].
      * left. rewrite Nat.sub_diag in Hn. cbn in Hn. subst b. left. reflexivity.
      * right. split; [ lia | ].
        replace (k - k0)%nat with (S (k - S k0)) in Hn by lia. exact Hn.
Qed.

Lemma where2_spec (plane : list (list bool)) :
  forall j0 j k : nat,
    In (j, k) (where2 j0 plane)
    <-> (j0 <= j)%nat /\ nth k (nth (j - j0) plane []) false = true.
Proof.
  induction plane as [|row plane IH]; intros j0 j k; cbn [where2].
  - split; [ intros [] | intros [_ H] ].
    destruct (j - j0)%nat; destruct k; discriminate.
  - rewrite in_app_iff, IH, in_map_iff. split.
    + intros [(k' & Heq & Hin) | [Hle Hn]].
      * injection Heq as <- <-. apply where1_spec in Hin.
        rewrite Nat.sub_diag. rewrite Nat.sub_0_r in Hin.
        split; [ lia | apply Hin ].
      * split; [ lia | ].
        replace (j - j0)%nat with (S (j - S j0)) by lia. exact Hn.
    + intros [Hle Hn]. destruct (Nat.eq_dec j j0) as [->|Hne].
      * left. exists k. split; [ reflexivity | ].
        apply where1_spec. rewrite Nat.sub_diag in Hn. rewrite Nat.sub_0_r.
        split; [ lia | exact Hn ].
      * right. split; [ lia | ].
        replace (j - j0)%nat with (S (j - S j0)) in Hn by lia. exact Hn.
Qed.

Lemma where3_spec (m : mask3) :
  forall i0 i j k : nat,
    In (i, j, k) (where3 i0 m)
    <-> (i0 <= i)%nat /\ active m (i - i0) j k = true.
Proof.
  unfold active, get3.
  induction m as [|plane m IH]; intros i0 i j k; cbn [where3].
  - split; [ intros [] | intros [_ H] ].
    destruct (i - i0)%nat; destruct j; destruct k; discriminate.
  - rewrite in_app_iff, IH, in_map_iff. split.
    + intros [([j' k'] & Heq & Hin) | [Hle Hn]].
      * cbn in Heq. injection Heq as <- <- <-. apply where2_spec in Hin.
        rewrite Nat.sub_diag. rewrite Nat.sub_0_r in Hin.
        split; [ lia | apply Hin ].
      * split; [ lia | ].
        replace (i - i0)%nat with (S (i - S i0)) by lia. exact Hn.
    + intros [Hle Hn]. destruct (Nat.eq_dec i i0) as [->|Hne].
      * left. exists (j, k). split; [ reflexivity | ].
        apply where2_spec. rewrite Nat.sub_diag in Hn. rewrite Nat.sub_0_r.
        split; [ lia | exact Hn ].
      * right. split; [ lia | ].
        replace (i - i0)%nat with (S (i - S i0)) in Hn by lia. exact Hn.
Qed.

Lemma where_spec (m : mask3) (i j k : nat) :
  In (i, j, k) (where_ m) <-> active m i j k = true.
Proof.
  unfold where_. rewrite where3_spec, Nat.sub_0_r. split; [ tauto | ].
  intros H. split; [ lia | exact H ].
Qed.

(** *** Smallest and largest index *)

Lemma fold_min_le (l : list nat) :
  forall x : nat,
    (fold_left Nat.min l x <= x)%nat
    /\ forall y, In y l -> (fold_left Nat.min l x <= y)%nat.
Proof.
  induction l as [|a l IH]; intros x; cbn [fold_left].
  - split; [ lia | intros y [] ].
  - destruct (IH (Nat.min x a)) as [H1 H2]. split; [ lia | ].
    intros y [<-|Hy]; [ lia | apply H2, Hy ].
Qed.

Lemma fold_max_ge (l : list nat) :
  forall x : nat,
    (x <= fold_left Nat.max l x)%nat
    /\ forall y, In y l -> (y <= fold_left Nat.max l x)%nat.
Proof.
  induction l as [|a l IH]; intros x; cbn [fold_left].
  - split; [ lia | intros y [] ].
  - destruct (IH (Nat.max x a)) as [H1 H2]. split; [ lia | ].
    intros y [<-|Hy]; [ lia | apply H2, Hy ].
Qed.

Lemma idx_min_le (l : list nat) (m y : nat) :
  idx_min l = Ok m -> In y l -> (m <= y)%nat.
Proof.
  destruct l as [|x l]; cbn; [ discriminate | ].
  destruct (fold_min_le l x) as [H1 H2].
  intros [= <-] [<-|Hy]; [ exact H1 | exact (H2 y Hy) ].
Qed.

Lemma idx_max_ge (l : list nat) (m y : nat) :
  idx_max l = Ok m -> In y l -> (y <= m)%nat.
Proof.
  destruct l as [|x l]; cbn; [ discriminate | ].
  destruct (fold_max_ge l x) as [H1 H2].
  intros [= <-] [<-|Hy]; [ exact H1 | exact (H2 y Hy) ].
Qed.

(** *** Slices *)

Lemma slice_nil (A : Type) (lo hi : nat) : slice lo hi (@nil A) = [].
Proof. unfold slice. rewrite skipn_nil. apply firstn_nil. Qed.

Lemma nth_slice (A : Type) (lo hi : nat) (l : list A) (i : nat) (d : A) :
  nth i (slice lo hi l) d = if (i <? hi - lo)%nat then nth (lo + i) l d else d.
Proof. unfold slice. rewrite nth_firstn, nth_skipn. reflexivity. Qed.

Lemma nth_map_nil (A B : Type) (f : list A -> list B) (l : list (list A))
    (i : nat) :
  f [] = [] -> nth i (map f l) [] = f (nth i l []).
Proof. intros Hf. rewrite <- Hf at 1. apply map_nth. Qed.

Lemma get3_slice3 (A : Type) (d : A) (i0 i1 j0 j1 k0 k1 : nat) (m : vol A)
    (i j k : nat) :
  get3 d (slice3 i0 i1 j0 j1 k0 k1 m) i j k
  = if (i <? i1 - i0)%nat && (j <? j1 - j0)%nat && (k <? k1 - k0)%nat
    then get3 d m (i0 + i) (j0 + j) (k0 + k)
    else d.
Proof.
  unfold get3, slice3.
  rewrite (@nth_map_nil _ _ (fun plane => map (slice k0 k1) (slice j0 j1 plane)))
    by (rewrite slice_nil; reflexivity).
  rewrite (@nth_map_nil _ _ (slice k0 k1)) by apply slice_nil.
  rewrite !nth_slice.
  assert (Hnil2 : forall n, nth n (@nil (list A)) [] = [])
    by (intros []; reflexivity).
  assert (Hnil1 : forall n, nth n (@nil A) d = d) by (intros []; reflexivity).
  destruct (i <? i1 - i0)%nat, (j <? j1 - j0)%nat, (k <? k1 - k0)%nat;
    cbn [andb]; rewrite ?Hnil2, ?Hnil1; reflexivity.
Qed.

(** *** [_crop_mask] *)

Lemma crop_mask_support (mask cropped : mask3) :
  _crop_mask mask = Ok cropped ->
  exists i_min j_min k_min : nat,
    (forall i j k, active cropped i j k = true ->
                   active mask (i_min + i) (j_min + j) (k_min + k) = true)
    /\ (forall i j k, active mask i j k = true ->
          (i_min <= i)%nat /\ (j_min <= j)%nat /\ (k_min <= k)%nat
          /\ active cropped (i - i_min) (j - j_min) (k - k_min) = true).
Proof.
  unfold _crop_mask, crop_box.
  destruct (idx_min (map axis0 (where_ mask))) as [i_lo|e] eqn:Hi0;
    cbn [bind]; [ | discriminate ].
  destruct (idx_max (map axis0 (where_ mask))) as [i_max|e] eqn:Hi1;
    cbn [bind]; [ | discriminate ].
  destruct (idx_min (map axis1 (where_ mask))) as [j_lo|e] eqn:Hj0;
    cbn [bind]; [ | discriminate ].
  destruct (idx_max (map axis1 (where_ mask))) as [j_max|e] eqn:Hj1;
    cbn [bind]; [ | discriminate ].
  destruct (idx_min (map axis2 (where_ mask))) as [k_lo|e] eqn:Hk0;
    cbn [bind]; [ | discriminate ].
  destruct (idx_max (map axis2 (where_ mask))) as [k_max|e] eqn:Hk1;
    cbn [bind]; [ | discriminate ].
  intros [= <-].
  exists (Nat.max (i_lo - 1) 0), (Nat.max (j_lo - 1) 0), (Nat.max (k_lo - 1) 0).
  unfold active. split.
  - intros i j k. rewrite get3_slice3.
    destruct (_ && _ && _); [ tauto | discriminate ].
  - intros i j k Hact.
    assert (Hin : In (i, j, k) (where_ mask)) by (apply where_spec; exact Hact).
    pose proof (@idx_min_le _ _ _ Hi0 (in_map axis0 _ _ Hin)) as Ha.
    pose proof (@idx_max_ge _ _ _ Hi1 (in_map axis0 _ _ Hin)) as Hb.
    pose proof (@idx_min_le _ _ _ Hj0 (in_map axis1 _ _ Hin)) as Hc.
    pose proof (@idx_max_ge _ _ _ Hj1 (in_map axis1 _ _ Hin)) as Hd.
    pose proof (@idx_min_le _ _ _ Hk0 (in_map axis2 _ _ Hin)) as He.
    pose proof (@idx_max_ge _ _ _ Hk1 (in_map axis2 _ _ Hin)) as Hf.
    cbn [axis0 axis1 axis2 fst snd] in Ha, Hb, Hc, Hd, He, Hf.
    repeat (split; [ lia | ]).
    rewrite get3_slice3.
    replace (i - Nat.max (i_lo - 1) 0 <? i_max + 1 - Nat.max (i_lo - 1) 0)%nat
      with true by (symmetry; apply Nat.ltb_lt; lia).
    replace (j - Nat.max (j_lo - 1) 0 <? j_max + 1 - Nat.max (j_lo - 1) 0)%nat
      with true by (symmetry; apply Nat.ltb_lt; lia).
    replace (k - Nat.max (k_lo - 1) 0 <? k_max + 1 - Nat.max (k_lo - 1) 0)%nat
      with true by (symmetry; apply Nat.ltb_lt; lia).
    cbn [andb].
    replace (Nat.max (i_lo - 1) 0 + (i - Nat.max (i_lo - 1) 0))%nat with i by lia.
    replace (Nat.max (j_lo - 1) 0 + (j - Nat.max (j_lo - 1) 0))%nat with j by lia.
    replace (Nat.max (k_lo - 1) 0 + (k - Nat.max (k_lo - 1) 0))%nat with k by lia.
    exact Hact.
Qed.

(** *** Re-intersection with the original mask *)

Lemma nth_map2_default (A B C : Type) (f : A -> B -> C) (dA : A) (dB : B) (dC : C)
    (a : list A) :
  (forall x, f x dB = dC) -> (forall y, f dA y = dC) ->
  forall (b : list B) (i : nat),
    nth i (map2 f a b) dC = f (nth i a dA) (nth i b dB).
Proof.
  intros Hr Hl. induction a as [|x a IH]; intros b i.
  - cbn. destruct i; rewrite Hl; reflexivity.
  - destruct b as [|y b].
    + cbn. destruct i; rewrite Hr; reflexivity.
    + destruct i; cbn; [ reflexivity | apply IH ].
Qed.

Lemma map2_nil_r (A B C : Type) (f : A -> B -> C) (a : list A) :
  map2 f a [] = [].
Proof. destruct a; reflexivity. Qed.

Lemma get3_map2_3 (A B C : Type) (f : A -> B -> C) (dA : A) (dB : B) (dC : C)
    (a : vol A) (b : vol B) (i j k : nat) :
  (forall x, f x dB = dC) -> (forall y, f dA y = dC) ->
  get3 dC (map2_3 f a b) i j k = f (get3 dA a i j k) (get3 dB b i j k).
Proof.
  intros Hr Hl. unfold get3, map2_3.
  rewrite (@nth_map2_default _ _ _ (map2 (map2 f)) [] [] [])
    by (intros; try apply map2_nil_r; reflexivity).
  rewrite (@nth_map2_default _ _ _ (map2 f) [] [] [])
    by (intros; try apply map2_nil_r; reflexivity).
  apply nth_map2_default; assumption.
Qed.

Lemma clear_outside_inside (mask_ mask cleared : mask3) (i j k : nat) :
  clear_outside mask_ mask = Ok cleared ->
  active cleared i j k = true ->
  active mask i j k = true /\ active mask_ i j k = true.
Proof.
  unfold clear_outside. destruct (same_shape mask_ mask); [ | discriminate ].
  intros [= <-]. unfold active.
  rewrite (@get3_map2_3 _ _ _ _ false false false)
    by (intros []; reflexivity).
  destruct (get3 false mask i j k), (get3 false mask_ i j k);
    cbn; intros H; try discriminate; split; reflexivity.
Qed.

Section Screening.

Variable gaussian_filter : vol Q -> Q -> vol Q.
Variable select_percentile :
  bool -> Q -> list (list Q) -> list Q -> list bool.
Variables binary_erosion binary_dilation : mask3 -> mask3.

Lemma screened_mask_inside (X : list (list Q)) (y : list Q) (mask : mask3)
    (is_classif : bool) (screening_percentile smooth : Q)
    (X' : list (list Q)) (mask_ : mask3) (support : list bool) :
  SpaceNet._univariate_feature_screening gaussian_filter select_percentile
    binary_erosion binary_dilation X y mask is_classif screening_percentile
    smooth = Ok (X', mask_, support) ->
  forall i j k, active mask_ i j k = true -> active mask i j k = true.
Proof.
  unfold SpaceNet._univariate_feature_screening. intros H i j k Hact.
  destruct (SpaceNet.smooth_rows gaussian_filter smooth X mask) as [sX|e];
    cbn [bind] in H; [ | discriminate ].
  destruct (scatter false mask _) as [m0|e]; cbn [bind] in H; [ | discriminate ].
  destruct (clear_outside (binary_dilation (binary_erosion m0)) mask)
    as [m1|e] eqn:Hclear; cbn [bind] in H; [ | discriminate ].
  destruct (gather m1 mask) as [sup|e]; cbn [bind] in H; [ | discriminate ].
  destruct (SpaceNet.select_columns X sup) as [Xs|e]; cbn [bind] in H;
    [ | discriminate ].
  injection H as <- <- <-.
  exact (proj1 (@clear_outside_inside _ _ _ i j k Hclear Hact)).
Qed.

End Screening.

(** C8: the screened mask (eroded, dilated, then cleared outside the
    original mask) and the cropped mask have all their active voxels among
    the active voxels of the mask they come from; the crop is a translation
    by the lower corner of the box and keeps every active voxel. *)
Theorem derived_masks_keep_inside_the_support
    (gaussian_filter : vol Q -> Q -> vol Q)
    (select_percentile : bool -> Q -> list (list Q) -> list Q -> list bool)
    (binary_erosion binary_dilation : mask3 -> mask3)
    (X : list (list Q)) (y : list Q) (mask : mask3) (is_classif : bool)
    (screening_percentile smooth : Q)
    (X' : list (list Q)) (mask_ : mask3) (support : list bool)
    (source cropped : mask3) :
  SpaceNet._univariate_feature_screening gaussian_filter select_percentile
    binary_erosion binary_dilation X y mask is_classif screening_percentile
    smooth = Ok (X', mask_, support) ->
  _crop_mask source = Ok cropped ->
  (forall i j k, active mask_ i j k = true -> active mask i j k = true)
  /\ exists i_min j_min k_min : nat,
       (forall i j k, active cropped i j k = true ->
                      active source (i_min + i) (j_min + j) (k_min + k) = true)
       /\ (forall i j k, active source i j k = true ->
             (i_min <= i)%nat /\ (j_min <= j)%nat /\ (k_min <= k)%nat
             /\ active cropped (i - i_min) (j - j_min) (k - k_min) = true).
Proof.
  intros Hscreen Hcrop. split.
  - exact (@screened_mask_inside gaussian_filter select_percentile
             binary_erosion binary_dilation X y mask is_classif
             screening_percentile smooth X' mask_ support Hscreen).
  - exact (@crop_mask_support source cropped Hcrop).
Qed.

Lemma derived_masks_keep_inside_the_support_witness :
  let mask := [[[false; false; false; true; true; false]]] in
  let fill (m : mask3) := map (map (map (fun _ : bool => true))) m in
  SpaceNet._univariate_feature_screening (fun v _ => v)
    (fun _ _ _ _ => [true; true]) (fun m => m) fill
    [[1; 2]%Q] [1%Q] mask false 20%Q 2%Q
  = Ok ([[1; 2]%Q], mask, [true; true])
  /\ _crop_mask mask = Ok [[[false; true; true]]]
  /\ forall i j k,
       active [[[false; true; true]]] i j k = true ->
       active mask (0 + i) (0 + j) (2 + k) = true.
Proof.
  intros mask fill.
  assert (Hscreen :
    SpaceNet._univariate_feature_screening (fun v _ => v)
      (fun _ _ _ _ => [true; true]) (fun m => m) fill
      [[1; 2]%Q] [1%Q] mask false 20%Q 2%Q
    = Ok ([[1; 2]%Q], mask, [true; true])) by (vm_compute; reflexivity).
  assert (Hcrop : _crop_mask mask = Ok [[[false; true; true]]])
    by (vm_compute; reflexivity).
  split; [ exact Hscreen | split; [ exact Hcrop | ] ].
  destruct (@derived_masks_keep_inside_the_support
              _ _ _ _ _ _ _ _ _ _ _ _ _ _ _ Hscreen Hcrop) as (_ & i_min & j_min & k_min & Hsub & Hkeep).
  intros i j k Hact.
  destruct (Hkeep 0%nat 0%nat 3%nat eq_refl) as (Hi & Hj & Hk & H3).
  destruct (Hkeep 0%nat 0%nat 4%nat eq_refl) as (_ & _ & _ & H4).
  assert (i_min = 0%nat) by lia. assert (j_min = 0%nat) by lia. subst.
  assert (k_min = 2%nat).
  { destruct k_min as [|[|[|[|]]]]; try lia; try reflexivity;
      vm_compute in H3; vm_compute in H4; discriminate. }
  subst. apply Hsub, Hact.
Defined.

End MaskFacts.

(** ** The gradient and the divergence are negative adjoints *)

Module SpatialFacts.
Import Spatial.
Unset Implicit Arguments.
Local Open Scope list_scope.
Local Open Scope Q_scope.

(** *** Finite sums *)

Lemma sum_upto_ext (k : nat) (f g : nat -> Q) :
  (forall i, (i < k)%nat -> f i == g i) -> sum_upto k f == sum_upto k g.
Proof.
  induction k as [|k IH]; intros H; cbn [sum_upto]; [ reflexivity | ].
  rewrite IH by (intros i Hi; apply H; lia).
  rewrite (H k) by lia. reflexivity.
Qed.

Lemma sum_upto_plus (k : nat) (f g : nat -> Q) :
  sum_upto k (fun i => f i + g i) == sum_upto k f + sum_upto k g.
Proof.
  induction k as [|k IH]; cbn [sum_upto]; [ ring | rewrite IH; ring ].
Qed.

Lemma sum_upto_minus (k : nat) (f g : nat -> Q) :
  sum_upto k (fun i => f i - g i) == sum_upto k f - sum_upto k g.
Proof.
  induction k as [|k IH]; cbn [sum_upto]; [ ring | rewrite IH; ring ].
Qed.

Lemma sum_upto_scale (k : nat) (c : Q) (f : nat -> Q) :
  sum_upto k (fun i => c * f i) == c * sum_upto k f.
Proof.
  induction k as [|k IH]; cbn [sum_upto]; [ ring | rewrite IH; ring ].
Qed.

Lemma sum_upto_zero (k : nat) : sum_upto k (fun _ => 0) == 0.
Proof.
  induction k as [|k IH]; cbn [sum_upto]; [ reflexivity | rewrite IH; ring ].
Qed.

Lemma sum_upto_telescope (k : nat) (U : nat -> Q) :
  sum_upto k (fun i => U i - U (S i)) == U 0%nat - U k.
Proof.
  induction k as [|k IH]; cbn [sum_upto]; [ ring | rewrite IH; ring ].
Qed.

Lemma sum_upto_shift (k : nat) (f : nat -> Q) :
  sum_upto (S k) f == f 0%nat + sum_upto k (fun i => f (S i)).
Proof.
  induction k as [|k IH]; [ cbn; ring | ].
  change (sum_upto (S (S k)) f) with (sum_upto (S k) f + f (S k)).
  rewrite IH. cbn [sum_upto]. ring.
Qed.

Lemma sum_list_map2 (A B : Type) (f : A -> B -> Q) (dA : A) (dB : B)
    (a : list A) :
  forall b : list B,
    List.length a = List.length b ->
    sum_list (map2 f a b)
    == sum_upto (List.length a) (fun i => f (nth i a dA) (nth i b dB)).
Proof.
  induction a as [|x a IH]; intros [|y b] Hlen; try discriminate.
  - reflexivity.
  - cbn [map2 sum_list List.length]. rewrite sum_upto_shift.
    cbn [nth]. rewrite IH by (cbn in Hlen; lia). reflexivity.
Qed.

(** *** Unfolding one level *)

Lemma shaped_S (n : nat) (m : nat) (s : list nat) (a : list (arr n)) :
  shaped (S n) (m :: s) a <-> List.length a = m /\ Forall (shaped n s) a.
Proof. split; intros H; exact H. Qed.

Lemma zeros_like_S (n : nat) (a : list (arr n)) :
  zeros_like (S n) a = map (zeros_like n) a.
Proof. reflexivity. Qed.

Lemma zip_with_S (n : nat) (f : Q -> Q -> Q) (a b : list (arr n)) :
  zip_with (S n) f a b = map2 (zip_with n f) a b.
Proof. reflexivity. Qed.

Lemma scale_S (n : nat) (c : Q) (a : list (arr n)) :
  scale (S n) c a = map (scale n c) a.
Proof. reflexivity. Qed.

Lemma inner_S (n : nat) (a b : list (arr n)) :
  inner (S n) a b = sum_list (map2 (inner n) a b).
Proof. reflexivity. Qed.

(** *** Shapes *)

Lemma shaped_length (n : nat) (m : nat) (s : list nat) (a : list (arr n)) :
  shaped (S n) (m :: s) a -> List.length a = m.
Proof. intros H. exact (proj1 (proj1 (shaped_S n m s a) H)). Qed.

Lemma shaped_nth (n : nat) (m : nat) (s : list nat) (a : list (arr n))
    (i : nat) :
  shaped (S n) (m :: s) a -> (i < m)%nat -> shaped n s (nth i a (blank n)).
Proof.
  intros H Hi. destruct (proj1 (shaped_S n m s a) H) as [Hlen Hall].
  rewrite Forall_forall in Hall. apply Hall, nth_In. lia.
Qed.

Lemma shaped_cons (n : nat) (s : list nat) (a : list (arr n)) :
  shaped (S n) s a -> exists m s', s = m :: s'.
Proof. destruct s as [|m s']; [ intros [] | intros _; eauto ]. Qed.

(** A list of the right length whose entries have the right shape. *)
Lemma shaped_of_nth (n : nat) (m : nat) (s : list nat) (a : list (arr n)) :
  List.length a = m ->
  (forall i, (i < m)%nat -> shaped n s (nth i a (blank n))) ->
  shaped (S n) (m :: s) a.
Proof.
  intros Hlen H. apply (proj2 (shaped_S n m s a)). split; [ exact Hlen | ].
  apply Forall_forall. intros x Hx.
  destruct (In_nth _ _ (blank n) Hx) as (i & Hi & <-).
  apply H. lia.
Qed.

Lemma length_map2 (A B C : Type) (f : A -> B -> C) (a : list A) :
  forall b : list B,
    List.length (map2 f a b) = Nat.min (List.length a) (List.length b).
Proof.
  induction a as [|x a IH]; intros [|y b]; cbn; try reflexivity.
  rewrite IH. reflexivity.
Qed.

Lemma nth_map2 (A B C : Type) (f : A -> B -> C) (dA : A) (dB : B) (dC : C)
    (a : list A) :
  forall (b : list B) (i : nat),
    (i < List.length a)%nat -> (i < List.length b)%nat ->
    nth i (map2 f a b) dC = f (nth i a dA) (nth i b dB).
Proof.
  induction a as [|x a IH]; intros [|y b] i Ha Hb; cbn in Ha, Hb; try lia.
  destruct i; cbn; [ reflexivity | apply IH; lia ].
Qed.

Lemma nth_map_in (A B : Type) (f : A -> B) (dA : A) (dB : B) (a : list A)
    (i : nat) :
  (i < List.length a)%nat -> nth i (map f a) dB = f (nth i a dA).
Proof.
  intros Hi. rewrite (nth_indep _ dB (f dA)) by (rewrite length_map; exact Hi).
  apply map_nth.
Qed.

Lemma shaped_zeros_like (n : nat) :
  forall (s : list nat) (a : arr n), shaped n s a -> shaped n s (zeros_like n a).
Proof.
  induction n as [|n IH]; intros s a H; [ exact H | ].
  destruct (shaped_cons _ _ _ H) as (m & s' & ->).
  pose proof (shaped_length _ _ _ _ H) as Hlen.
  rewrite zeros_like_S. apply shaped_of_nth.
  - rewrite length_map. exact Hlen.
  - intros i Hi. rewrite (nth_map_in _ _ _ (blank n)) by lia.
    apply IH, shaped_nth with (m := m); assumption.
Qed.

Lemma shaped_zip_with (n : nat) (f : Q -> Q -> Q) :
  forall (s : list nat) (a b : arr n),
    shaped n s a -> shaped n s b -> shaped n s (zip_with n f a b).
Proof.
  induction n as [|n IH]; intros s a b Ha Hb; [ exact Ha | ].
  destruct (shaped_cons _ _ _ Ha) as (m & s' & ->).
  pose proof (shaped_length _ _ _ _ Ha) as Hla.
  pose proof (shaped_length _ _ _ _ Hb) as Hlb.
  rewrite zip_with_S. apply shaped_of_nth.
  - rewrite length_map2. lia.
  - intros i Hi.
    rewrite (nth_map2 _ _ _ _ (blank n) (blank n)) by lia.
    apply IH; apply shaped_nth with (m := m); assumption.
Qed.

Lemma shaped_scale (n : nat) (c : Q) :
  forall (s : list nat) (a : arr n), shaped n s a -> shaped n s (scale n c a).
Proof.
  induction n as [|n IH]; intros s a H; [ exact H | ].
  destruct (shaped_cons _ _ _ H) as (m & s' & ->).
  pose proof (shaped_length _ _ _ _ H) as Hlen.
  rewrite scale_S. apply shaped_of_nth.
  - rewrite length_map. exact Hlen.
  - intros i Hi. rewrite (nth_map_in _ _ _ (blank n)) by lia.
    apply IH, shaped_nth with (m := m); assumption.
Qed.

(** *** The inner product is bilinear *)

Lemma inner_comm (n : nat) : forall a b : arr n, inner n a b == inner n b a.
Proof.
  induction n as [|n IH]; intros a b; [ apply Qmult_comm | ].
  rewrite !inner_S. revert b.
  induction a as [|x a IHa]; intros [|y b]; cbn [map2 sum_list];
    try reflexivity.
  rewrite IH, IHa. reflexivity.
Qed.

Lemma inner_sum (n m : nat) (a b : list (arr n)) :
  List.length a = m -> List.length b = m ->
  inner (S n) a b
  == sum_upto m (fun i => inner n (nth i a (blank n)) (nth i b (blank n))).
Proof.
  intros Ha Hb. rewrite inner_S.
  rewrite (sum_list_map2 _ _ _ (blank n) (blank n)) by lia.
  rewrite Ha. reflexivity.
Qed.

Lemma inner_zeros_r (n : nat) :
  forall a b : arr n, inner n a (zeros_like n b) == 0.
Proof.
  induction n as [|n IH]; intros a b; [ cbn; ring | ].
  rewrite inner_S, zeros_like_S. revert b.
  induction a as [|x a IHa]; intros [|y b]; cbn [map map2 sum_list];
    try reflexivity.
  rewrite IH, IHa. ring.
Qed.

Lemma inner_scale_r (n : nat) (c : Q) :
  forall a b : arr n, inner n a (scale n c b) == c * inner n a b.
Proof.
  induction n as [|n IH]; intros a b; [ cbn; ring | ].
  rewrite !inner_S, scale_S. revert b.
  induction a as [|x a IHa]; intros [|y b]; cbn [map map2 sum_list];
    try ring.
  rewrite IH, IHa. ring.
Qed.

Lemma inner_scale_l (n : nat) (c : Q) (a b : arr n) :
  inner n (scale n c a) b == c * inner n a b.
Proof.
  rewrite inner_comm, inner_scale_r, inner_comm. reflexivity.
Qed.

Lemma inner_add_r (n : nat) :
  forall (s : list nat) (a b c : arr n),
    shaped n s a -> shaped n s b -> shaped n s c ->
    inner n a (add n b c) == inner n a b + inner n a c.
Proof.
  induction n as [|n IH]; intros s a b c Ha Hb Hc; [ cbn; ring | ].
  destruct (shaped_cons _ _ _ Ha) as (m & s' & ->).
  pose proof (shaped_length _ _ _ _ Ha) as Hla.
  pose proof (shaped_length _ _ _ _ Hb) as Hlb.
  pose proof (shaped_length _ _ _ _ Hc) as Hlc.
  unfold add. rewrite zip_with_S.
  rewrite (inner_sum n m), (inner_sum n m a b), (inner_sum n m a c);
    try assumption; [ | rewrite length_map2; lia ].
  rewrite <- sum_upto_plus. apply sum_upto_ext. intros i Hi.
  rewrite (nth_map2 _ _ _ _ (blank n) (blank n)) by lia.
  apply (IH s'); apply shaped_nth with (m := m); assumption.
Qed.

Lemma inner_sub_r (n : nat) :
  forall (s : list nat) (a b c : arr n),
    shaped n s a -> shaped n s b -> shaped n s c ->
    inner n a (sub n b c) == inner n a b - inner n a c.
Proof.
  induction n as [|n IH]; intros s a b c Ha Hb Hc; [ cbn; ring | ].
  destruct (shaped_cons _ _ _ Ha) as (m & s' & ->).
  pose proof (shaped_length _ _ _ _ Ha) as Hla.
  pose proof (shaped_length _ _ _ _ Hb) as Hlb.
  pose proof (shaped_length _ _ _ _ Hc) as Hlc.
  unfold sub. rewrite zip_with_S.
  rewrite (inner_sum n m), (inner_sum n m a b), (inner_sum n m a c);
    try assumption; [ | rewrite length_map2; lia ].
  rewrite <- sum_upto_minus. apply sum_upto_ext. intros i Hi.
  rewrite (nth_map2 _ _ _ _ (blank n) (blank n)) by lia.
  apply (IH s'); apply shaped_nth with (m := m); assumption.
Qed.

Lemma inner_sub_l (n : nat) (s : list nat) (a b c : arr n) :
  shaped n s a -> shaped n s b -> shaped n s c ->
  inner n (sub n a b) c == inner n a c - inner n b c.
Proof.
  intros Ha Hb Hc.
  rewrite inner_comm, (inner_sub_r n s) by assumption.
  rewrite (inner_comm n c a), (inner_comm n c b). reflexivity.
Qed.

Lemma shaped_add (n : nat) (s : list nat) (a b : arr n) :
  shaped n s a -> shaped n s b -> shaped n s (add n a b).
Proof. apply shaped_zip_with. Qed.

Lemma shaped_sub (n : nat) (s : list nat) (a b : arr n) :
  shaped n s a -> shaped n s b -> shaped n s (sub n a b).
Proof. apply shaped_zip_with. Qed.

(** *** Slices, entry by entry *)

Lemma length_imap_from (A B : Type) (f : nat -> A -> B) (l : list A) :
  forall i0, List.length (imap_from i0 f l) = List.length l.
Proof. induction l as [|x l IH]; intros i0; cbn; [ | rewrite IH ]; reflexivity. Qed.

Lemma nth_imap_from (A B : Type) (f : nat -> A -> B) (dA : A) (dB : B)
    (l : list A) :
  forall i0 i, (i < List.length l)%nat ->
               nth i (imap_from i0 f l) dB = f (i0 + i)%nat (nth i l dA).
Proof.
  induction l as [|x l IH]; intros i0 i Hi; cbn in Hi; [ lia | ].
  destruct i as [|i]; cbn [imap_from nth].
  - rewrite Nat.add_0_r. reflexivity.
  - rewrite IH by lia. f_equal. lia.
Qed.

Lemma length_update_slice (A B : Type) (lo hi : nat) (f : A -> B -> A)
    (vals : list B) (target : list A) :
  List.length (update_slice lo hi f vals target) = List.length target.
Proof. apply length_imap_from. Qed.

Lemma nth_update_slice (A B : Type) (lo hi : nat) (f : A -> B -> A)
    (vals : list B) (target : list A) (d : A) (i : nat) :
  (i < List.length target)%nat ->
  nth i (update_slice lo hi f vals target) d
  = if (lo <=? i)%nat && (i <? hi)%nat
    then match nth_error vals (i - lo) with
         | Some v => f (nth i target d) v
         | None => nth i target d
         end
    else nth i target d.
Proof.
  intros Hi. unfold update_slice, imap.
  rewrite (nth_imap_from _ _ _ d d) by exact Hi. reflexivity.
Qed.

Lemma nth_error_firstn_lt (A : Type) (d : A) (k j : nat) (g : list A) :
  (j < k)%nat -> (j < List.length g)%nat ->
  nth_error (firstn k g) j = Some (nth j g d).
Proof.
  intros Hk Hg.
  rewrite (nth_error_nth' _ d) by (rewrite length_firstn; lia).
  rewrite nth_firstn.
  replace (j <? k)%nat with true by (symmetry; apply Nat.ltb_lt; exact Hk).
  reflexivity.
Qed.

Lemma divergence_step_length (n : nat) (res g : list (arr n)) :
  List.length (divergence_step n res g) = List.length res.
Proof.
  unfold divergence_step.
  destruct (1 <? List.length g)%nat; rewrite !length_update_slice; reflexivity.
Qed.

Lemma divergence_step_nth (n : nat) (m : nat) (res g : list (arr n)) (i : nat) :
  List.length res = m -> List.length g = m -> (i < m)%nat ->
  nth i (divergence_step n res g) (blank n)
  = step_entry n m i (nth i res (blank n)) (nth i g (blank n))
      (nth (i - 1) g (blank n)).
Proof.
  intros Hres Hg Hi. unfold divergence_step, step_entry. rewrite Hres, Hg.
  assert (H1 : forall i', (i' < m)%nat ->
      nth i' (update_slice 0 (m - 1) (add n) (firstn (m - 1) g) res) (blank n)
      = if (i' <? m - 1)%nat
        then add n (nth i' res (blank n)) (nth i' g (blank n))
        else nth i' res (blank n)).
  { intros i' Hi'. rewrite nth_update_slice by lia. cbn [Nat.leb andb].
    destruct (i' <? m - 1)%nat eqn:E; [ | reflexivity ].
    apply Nat.ltb_lt in E. rewrite Nat.sub_0_r.
    rewrite (nth_error_firstn_lt _ (blank n)) by lia. reflexivity. }
  assert (H2 : forall i', (i' < m)%nat ->
      nth i' (update_slice 1 (m - 1) (sub n) (firstn (m - 2) g)
                (update_slice 0 (m - 1) (add n) (firstn (m - 1) g) res))
          (blank n)
      = if (i' <? m - 1)%nat
        then if (1 <=? i')%nat
             then sub n (add n (nth i' res (blank n)) (nth i' g (blank n)))
                    (nth (i' - 1) g (blank n))
             else add n (nth i' res (blank n)) (nth i' g (blank n))
        else nth i' res (blank n)).
  { intros i' Hi'. rewrite nth_update_slice
      by (rewrite length_update_slice; lia).
    rewrite H1 by exact Hi'.
    destruct (i' <? m - 1)%nat eqn:E; destruct (1 <=? i')%nat eqn:E1;
      cbn [andb]; try reflexivity.
    apply Nat.ltb_lt in E. apply Nat.leb_le in E1.
    rewrite (nth_error_firstn_lt _ (blank n)) by lia. reflexivity. }
  destruct (1 <? m)%nat eqn:Em.
  - apply Nat.ltb_lt in Em.
    rewrite nth_update_slice by (rewrite !length_update_slice; lia).
    rewrite H2 by exact Hi.
    destruct (i <? m - 1)%nat eqn:E.
    + apply Nat.ltb_lt in E.
      replace (m - 1 <=? i)%nat with false
        by (symmetry; apply Nat.leb_gt; lia).
      reflexivity.
    + apply Nat.ltb_ge in E.
      replace (m - 1 <=? i)%nat with true by (symmetry; apply Nat.leb_le; lia).
      replace (i <? m)%nat with true by (symmetry; apply Nat.ltb_lt; lia).
      replace (1 <=? i)%nat with true by (symmetry; apply Nat.leb_le; lia).
      cbn [andb]. replace (i - (m - 1))%nat with 0%nat by lia.
      rewrite (nth_error_firstn_lt _ (blank n)) by (rewrite ?length_skipn; lia).
      rewrite nth_skipn.
      replace (m - 2 + 0)%nat with (i - 1)%nat by lia. reflexivity.
  - apply Nat.ltb_ge in Em. rewrite H2 by exact Hi.
    replace (i <? m - 1)%nat with false by (symmetry; apply Nat.ltb_ge; lia).
    replace (1 <=? i)%nat with false by (symmetry; apply Nat.leb_gt; lia).
    reflexivity.
Qed.

(** *** Forward differences, entry by entry *)

Lemma forward_difference_0 (n : nat) (a : list (arr n)) :
  forward_difference (S n) 0 a
  = update_slice 0 (List.length (map (zeros_like n) a) - 1) (fun _ v => v)
      (map2 (sub n) (tl a) (firstn (List.length a - 1) a))
      (map (zeros_like n) a).
Proof. reflexivity. Qed.

Lemma forward_difference_S (n d : nat) (a : list (arr n)) :
  forward_difference (S n) (S d) a = map (forward_difference n d) a.
Proof.
  unfold forward_difference.
  change (set_but_last (S n) (S d) (zeros_like (S n) a) (np_diff (S n) (S d) a))
    with (map2 (set_but_last n d) (map (zeros_like n) a) (map (np_diff n d) a)).
  induction a as [|x a IH]; cbn [map map2]; [ reflexivity | ].
  rewrite IH. reflexivity.
Qed.

Lemma divergence_axis_0 (n : nat) (res g : list (arr n)) :
  divergence_axis (S n) 0 res g = divergence_step n res g.
Proof. reflexivity. Qed.

Lemma divergence_axis_S (n d : nat) (res g : list (arr n)) :
  divergence_axis (S n) (S d) res g = map2 (divergence_axis n d) res g.
Proof. reflexivity. Qed.

Lemma nth_tl (A : Type) (d : A) (a : list A) (i : nat) :
  nth i (tl a) d = nth (S i) a d.
Proof. destruct a; [ destruct i | ]; reflexivity. Qed.

Lemma forward_difference_0_nth (n m : nat) (a : list (arr n)) (i : nat) :
  List.length a = m -> (i < m)%nat ->
  nth i (forward_difference (S n) 0 a) (blank n)
  = if (i <? m - 1)%nat
    then sub n (nth (S i) a (blank n)) (nth i a (blank n))
    else zeros_like n (nth i a (blank n)).
Proof.
  intros Ha Hi. rewrite forward_difference_0.
  rewrite nth_update_slice by (rewrite length_map; lia).
  rewrite length_map, Ha. cbn [Nat.leb andb]. rewrite Nat.sub_0_r.
  rewrite (nth_map_in _ _ _ (blank n)) by lia.
  destruct (i <? m - 1)%nat eqn:E; [ | reflexivity ].
  apply Nat.ltb_lt in E.
  assert (Htl : List.length (tl a) = (m - 1)%nat)
    by (destruct a; cbn in *; lia).
  rewrite (nth_error_nth' _ (blank n))
    by (rewrite length_map2, length_firstn; lia).
  rewrite (nth_map2 _ _ _ _ (blank n) (blank n))
    by (rewrite ?length_firstn; lia).
  rewrite nth_tl, nth_firstn.
  replace (i <? m - 1)%nat with true by (symmetry; apply Nat.ltb_lt; exact E).
  reflexivity.
Qed.

Lemma length_forward_difference_0 (n : nat) (a : list (arr n)) :
  List.length (forward_difference (S n) 0 a) = List.length a.
Proof.
  rewrite forward_difference_0, length_update_slice. apply length_map.
Qed.

(** *** One axis: [<u, step(res, g)> = <u, res> - <D u, g>] *)

Lemma step_entry_shaped (n : nat) (s : list nat) (m i : nat)
    (r g_i g_prev : arr n) :
  shaped n s r -> shaped n s g_i -> shaped n s g_prev ->
  shaped n s (step_entry n m i r g_i g_prev).
Proof.
  intros Hr Hg Hp. unfold step_entry.
  destruct (i <? m - 1)%nat, (1 <=? i)%nat;
    auto using shaped_add, shaped_sub.
Qed.

Lemma divergence_step_shaped (n : nat) (m : nat) (s : list nat)
    (res g : list (arr n)) :
  shaped (S n) (m :: s) res -> shaped (S n) (m :: s) g ->
  shaped (S n) (m :: s) (divergence_step n res g).
Proof.
  intros Hres Hg.
  pose proof (shaped_length _ _ _ _ Hres) as Hlr.
  pose proof (shaped_length _ _ _ _ Hg) as Hlg.
  apply shaped_of_nth.
  - rewrite divergence_step_length. exact Hlr.
  - intros i Hi. rewrite (divergence_step_nth n m) by assumption.
    apply step_entry_shaped; apply shaped_nth with (m := m);
      try assumption; lia.
Qed.

Lemma divergence_step_adjoint (n : nat) (m : nat) (s : list nat)
    (u res g : list (arr n)) :
  shaped (S n) (m :: s) u -> shaped (S n) (m :: s) res ->
  shaped (S n) (m :: s) g ->
  inner (S n) u (divergence_step n res g)
  == inner (S n) u res - inner (S n) (forward_difference (S n) 0 u) g.
Proof.
  intros Hu Hres Hg.
  pose proof (shaped_length _ _ _ _ Hu) as Hlu.
  pose proof (shaped_length _ _ _ _ Hres) as Hlr.
  pose proof (shaped_length _ _ _ _ Hg) as Hlg.
  set (U := fun i : nat =>
              if (1 <=? i)%nat && (i <=? m - 1)%nat
              then inner n (nth i u (blank n)) (nth (i - 1) g (blank n))
              else 0).
  rewrite (inner_sum n m u (divergence_step n res g)),
    (inner_sum n m u res), (inner_sum n m (forward_difference (S n) 0 u) g);
    try assumption;
    [ | rewrite length_forward_difference_0; exact Hlu
      | rewrite divergence_step_length; exact Hlr ].
  rewrite <- sum_upto_minus.
  assert (Htel : sum_upto m (fun i => U i - U (S i)) == 0).
  { assert (HUm : U m == 0).
    { unfold U.
      replace ((1 <=? m)%nat && (m <=? m - 1)%nat) with false;
        [ reflexivity | ].
      symmetry. destruct m as [|m']; [ reflexivity | ].
      apply andb_false_iff. right. apply Nat.leb_gt. lia. }
    assert (HU0 : U 0%nat == 0) by reflexivity.
    rewrite sum_upto_telescope, HUm, HU0. ring. }
  rewrite <- (Qplus_0_r (sum_upto m _)), <- Htel, <- sum_upto_plus.
  apply sum_upto_ext. intros i Hi.
  assert (Hui : shaped n s (nth i u (blank n)))
    by (apply shaped_nth with (m := m); assumption).
  assert (Hri : shaped n s (nth i res (blank n)))
    by (apply shaped_nth with (m := m); assumption).
  assert (Hgi : shaped n s (nth i g (blank n)))
    by (apply shaped_nth with (m := m); assumption).
  assert (Hgp : shaped n s (nth (i - 1) g (blank n)))
    by (apply shaped_nth with (m := m); [ assumption | lia ]).
  rewrite (divergence_step_nth n m) by assumption.
  rewrite (forward_difference_0_nth n m) by assumption.
  unfold step_entry, U.
  destruct (i <? m - 1)%nat eqn:E.
  - apply Nat.ltb_lt in E.
    assert (Hun : shaped n s (nth (S i) u (blank n)))
      by (apply shaped_nth with (m := m); [ assumption | lia ]).
    replace (1 <=? S i)%nat with true by reflexivity.
    replace (S i <=? m - 1)%nat with true by (symmetry; apply Nat.leb_le; lia).
    replace (i <=? m - 1)%nat with true by (symmetry; apply Nat.leb_le; lia).
    cbn [andb]. replace (S i - 1)%nat with i by lia.
    rewrite (inner_sub_l n s) by assumption.
    destruct (1 <=? i)%nat; cbn [andb].
    + rewrite (inner_sub_r n s), (inner_add_r n s);
        auto using shaped_add.
      ring.
    + rewrite (inner_add_r n s) by assumption. ring.
  - apply Nat.ltb_ge in E.
    replace (S i <=? m - 1)%nat with false by (symmetry; apply Nat.leb_gt; lia).
    rewrite andb_false_r.
    rewrite (inner_comm n (zeros_like n (nth i u (blank n)))), inner_zeros_r.
    destruct (1 <=? i)%nat eqn:E1; cbn [andb].
    + replace (i <=? m - 1)%nat with true by (symmetry; apply Nat.leb_le; lia).
      rewrite (inner_sub_r n s) by assumption. ring.
    + ring.
Qed.

(** *** Any axis *)

Lemma divergence_axis_spec (d : nat) :
  forall (n : nat) (s : list nat) (u res g : arr n),
    (d < n)%nat -> shaped n s u -> shaped n s res -> shaped n s g ->
    shaped n s (divergence_axis n d res g)
    /\ inner n u (divergence_axis n d res g)
       == inner n u res - inner n (forward_difference n d u) g.
Proof.
  induction d as [|d IH]; intros [|n] s; try (intros; lia);
    change (arr (S n)) with (list (arr n)); intros u res g Hd Hu Hres Hg;
    destruct (shaped_cons _ _ _ Hu) as (m & s' & ->).
  - rewrite divergence_axis_0. split.
    + apply divergence_step_shaped; assumption.
    + apply (divergence_step_adjoint n m s'); assumption.
  - pose proof (shaped_length _ _ _ _ Hu) as Hlu.
    pose proof (shaped_length _ _ _ _ Hres) as Hlr.
    pose proof (shaped_length _ _ _ _ Hg) as Hlg.
    assert (Hi : forall i, (i < m)%nat ->
              shaped n s' (nth i u (blank n))
              /\ shaped n s' (nth i res (blank n))
              /\ shaped n s' (nth i g (blank n)))
      by (intros i Hi; repeat split; apply shaped_nth with (m := m); assumption).
    rewrite divergence_axis_S, forward_difference_S. split.
    + apply shaped_of_nth; [ rewrite length_map2; lia | ].
      intros i Hlt. destruct (Hi i Hlt) as (H1 & H2 & H3).
      rewrite (nth_map2 _ _ _ _ (blank n) (blank n)) by lia.
      apply (IH n s' (nth i u (blank n))); trivial; lia.
    + rewrite (inner_sum n m u (map2 _ res g)), (inner_sum n m u res),
        (inner_sum n m (map _ u) g);
        try assumption;
        try (rewrite length_map; exact Hlu);
        try (rewrite length_map2; lia).
      rewrite <- sum_upto_minus. apply sum_upto_ext. intros i Hlt.
      destruct (Hi i Hlt) as (H1 & H2 & H3).
      rewrite (nth_map2 _ _ _ _ (blank n) (blank n)) by lia.
      rewrite (nth_map_in _ _ _ (blank n)) by lia.
      apply (IH n s'); trivial; lia.
Qed.

(** *** The loop of [div_id] *)

Lemma divergence_loop_spec (n : nat) (s : list nat) (u res : arr n)
    (grad : list (arr n)) (k : nat) :
  (k <= n)%nat -> shaped n s u -> shaped n s res ->
  (forall d, (d < k)%nat -> shaped n s (nth d grad (blank n))) ->
  shaped n s (divergence_loop n grad k res)
  /\ inner n u (divergence_loop n grad k res)
     == inner n u res
        - sum_upto k (fun d => inner n (forward_difference n d u)
                                 (nth d grad (blank n))).
Proof.
  intros Hk Hu Hres. unfold divergence_loop.
  induction k as [|k IH]; intros Hg.
  - cbn. split; [ exact Hres | ring ].
  - rewrite seq_S, fold_left_app. cbn [fold_left Nat.add sum_upto].
    destruct IH as [IHs IHi]; [ lia | intros d Hd; apply Hg; lia | ].
    assert (Hgk : shaped n s (nth k grad (blank n))) by (apply Hg; lia).
    assert (Hkn : (k < n)%nat) by lia.
    destruct (divergence_axis_spec k n s u _ (nth k grad (blank n))
                Hkn Hu IHs Hgk) as [Hs Hi].
    split; [ exact Hs | ]. rewrite Hi, IHi. ring.
Qed.

Lemma div_id_unfold (n : nat) (grad : list (arr n)) (r : Q) :
  div_id n grad r
  = (check_l1_ratio r ;;;
     match rev grad with
     | [] => Raise (IndexError "index -1 is out of bounds for axis 0")
     | grad_last :: _ =>
         Ok (sub n
               (scale n (1 - r)
                  (divergence_loop n grad (List.length grad - 1)
                     (zeros_like n (hd (blank n) grad))))
               (scale n r grad_last))
     end).
Proof. reflexivity. Qed.

Lemma check_l1_ratio_ok (r : Q) : 0 <= r -> r <= 1 -> check_l1_ratio r = Ok tt.
Proof.
  intros H0 H1. unfold check_l1_ratio.
  rewrite (proj2 (Qle_bool_iff 0 r) H0), (proj2 (Qle_bool_iff r 1) H1).
  reflexivity.
Qed.

Lemma gradient_channel (n : nat) (u : arr n) (r : Q) (d : nat) :
  (d < n)%nat ->
  nth d (map (scale n (1 - r)) (map (fun d => forward_difference n d u) (seq 0 n))
           ++ [scale n r u]) (blank n)
  = scale n (1 - r) (forward_difference n d u).
Proof.
  intros Hd. rewrite app_nth1 by (rewrite !length_map, length_seq; exact Hd).
  rewrite (nth_map_in _ _ _ (blank n)) by (rewrite length_map, length_seq; exact Hd).
  rewrite (nth_map_in _ _ _ 0%nat) by (rewrite length_seq; exact Hd).
  rewrite seq_nth by exact Hd. reflexivity.
Qed.

Lemma identity_channel (n : nat) (u : arr n) (r : Q) :
  nth n (map (scale n (1 - r)) (map (fun d => forward_difference n d u) (seq 0 n))
           ++ [scale n r u]) (blank n)
  = scale n r u.
Proof.
  rewrite app_nth2 by (rewrite !length_map, length_seq; lia).
  rewrite !length_map, length_seq, Nat.sub_diag. reflexivity.
Qed.

(** C1 (as stated) fails: [u = [1, 0]], [v = [[1, 0], [0, 0]]],
    [l1_ratio = 0]: [<gradient_id(u), v> = -1] and [<u, div_id(v)> = 1]. *)
Lemma gradient_and_div_differ_in_sign :
  gradient_id 1 [1; 0] 0 = Ok [[- (1); 0]; [0; 0]]
  /\ div_id 1 [[1; 0]; [0; 0]] 0 = Ok [1; - (1)]
  /\ inner 2 [[- (1); 0]; [0; 0]] [[1; 0]; [0; 0]] == - (1)
  /\ inner 1 [1; 0] [1; - (1)] == 1
  /\ ~ inner 2 [[- (1); 0]; [0; 0]] [[1; 0]; [0; 0]]
       == inner 1 [1; 0] [1; - (1)].
Proof.
  repeat split; try reflexivity.
  vm_compute. discriminate.
Qed.

(** C1 (amended): for every l1_ratio in [0, 1], every N-dimensional array
    [u] and every [v] of shape [(N + 1, *u.shape)], both operators return
    and [<gradient_id(u, r), v> = - <u, div_id(v, r)>]: [div_id] is the
    negative adjoint of [gradient_id]. *)
Theorem div_id_is_negative_adjoint
    (n : nat) (s : list nat) (u : arr n) (v : arr (S n)) (r : Q) :
  0 <= r -> r <= 1 ->
  shaped n s u -> shaped (S n) (S n :: s) v ->
  exists (gu : arr (S n)) (dv : arr n),
    gradient_id n u r = Ok gu
    /\ div_id n v r = Ok dv
    /\ inner (S n) gu v == - inner n u dv.
Proof.
  revert v. change (arr (S n)) with (list (arr n)). intros v H0 H1 Hu Hv.
  pose proof (shaped_length _ _ _ _ Hv) as Hlv.
  assert (Hch : forall d, (d < S n)%nat -> shaped n s (nth d v (blank n)))
    by (intros d Hd; apply shaped_nth with (m := S n); assumption).
  rewrite div_id_unfold. unfold gradient_id.
  rewrite (check_l1_ratio_ok r H0 H1). cbn [bind].
  destruct (rev v) as [|grad_last rest] eqn:Hrev.
  { apply (f_equal (@List.length _)) in Hrev. rewrite length_rev in Hrev.
    cbn in Hrev. lia. }
  assert (Hlast : grad_last = nth n v (blank n)).
  { assert (Hv' : v = rev rest ++ [grad_last])
      by (rewrite <- (rev_involutive v), Hrev; reflexivity).
    assert (Hlr : List.length (rev rest) = n).
    { apply (f_equal (@List.length _)) in Hv'.
      rewrite length_app in Hv'. cbn in Hv'. lia. }
    rewrite Hv', app_nth2 by lia. rewrite Hlr, Nat.sub_diag. reflexivity. }
  subst grad_last. rewrite Hlv. cbn [Nat.sub]. rewrite Nat.sub_0_r.
  assert (Hhd : shaped n s (hd (blank n) v)).
  { replace (hd (blank n) v) with (nth 0 v (blank n))
      by (destruct v; reflexivity).
    apply Hch. lia. }
  destruct (divergence_loop_spec n s u (zeros_like n (hd (blank n) v)) v n)
    as [Hls Hli]; trivial;
    [ apply shaped_zeros_like; exact Hhd | intros d Hd; apply Hch; lia | ].
  eexists. eexists. split; [ reflexivity | split; [ reflexivity | ] ].
  rewrite (inner_sub_r n s); trivial;
    [ | apply shaped_scale; exact Hls | apply shaped_scale, Hch; lia ].
  rewrite !inner_scale_r, Hli, inner_zeros_r.
  rewrite (inner_sum n (S n));
    [ | rewrite length_app, !length_map, length_seq; cbn; lia | exact Hlv ].
  cbn [sum_upto]. rewrite identity_channel, inner_scale_l.
  rewrite (sum_upto_ext n _
             (fun d => (1 - r) * inner n (forward_difference n d u)
                                   (nth d v (blank n)))).
  - rewrite sum_upto_scale. ring.
  - intros d Hd. rewrite gradient_channel by exact Hd.
    apply inner_scale_l.
Qed.

Lemma div_id_is_negative_adjoint_witness :
  exists (gu : arr 3) (dv : arr 2),
    gradient_id 2 [[1; 2; 4]; [8; 16; 32]] (1 # 2) = Ok gu
    /\ div_id 2 [[[1; 0; 2]; [0; 3; 0]]; [[0; 1; 0]; [5; 0; 1]];
                 [[2; 2; 2]; [1; 1; 1]]] (1 # 2) = Ok dv
    /\ inner 3 gu [[[1; 0; 2]; [0; 3; 0]]; [[0; 1; 0]; [5; 0; 1]];
                   [[2; 2; 2]; [1; 1; 1]]]
       == - inner 2 [[1; 2; 4]; [8; 16; 32]] dv.
Proof.
  apply (div_id_is_negative_adjoint 2 [2; 3]%nat [[1; 2; 4]; [8; 16; 32]]
           [[[1; 0; 2]; [0; 3; 0]]; [[0; 1; 0]; [5; 0; 1]];
            [[2; 2; 2]; [1; 1; 1]]] (1 # 2)).
  - unfold Qle; simpl; lia.
  - unfold Qle; simpl; lia.
  - simpl. repeat constructor.
  - simpl. repeat constructor.
Defined.

End SpatialFacts.

(** ** More on the callback and the alpha loop *)

Module DriverFacts.
Import Float Mask SpaceNet.
Unset Implicit Arguments.
Local Open Scope list_scope.
Local Open Scope Q_scope.

(** *** A [nan] among the last five scores *)

Lemma sub_nan_l (x : float) : sub NaN x = NaN.
Proof. destruct x; reflexivity. Qed.

Lemma sub_nan_r (x : float) : sub x NaN = NaN.
Proof. destruct x; reflexivity. Qed.

Lemma diff_keeps_nan (l : list float) :
  (2 <= List.length l)%nat -> In NaN l -> In NaN (diff l).
Proof.
  induction l as [|x [|y tl] IH]; cbn [List.length]; try lia.
  intros _ Hin. cbn [diff].
  destruct Hin as [->|Hin]; [ left; apply sub_nan_r | ].
  destruct tl as [|z tl].
  - destruct Hin as [->|[]]. left. apply sub_nan_l.
  - right. apply IH; [ cbn; lia | exact Hin ].
Qed.

Lemma fold_add_nan (l : list float) : fold_left add l NaN = NaN.
Proof. induction l as [|x l IH]; [ reflexivity | exact IH ]. Qed.

Lemma sum_keeps_nan (l : list float) :
  forall acc, In NaN l -> fold_left add l acc = NaN.
Proof.
  induction l as [|x l IH]; intros acc Hin; [ destruct Hin | ].
  cbn [fold_left]. destruct Hin as [->|Hin].
  - replace (add acc NaN) with NaN by (destruct acc; reflexivity).
    apply fold_add_nan.
  - apply IH, Hin.
Qed.

Lemma mean_keeps_nan (l : list float) : In NaN l -> mean l = NaN.
Proof.
  intros Hin. unfold mean, sum. rewrite (sum_keeps_nan l _ Hin).
  destruct l; [ destruct Hin | reflexivity ].
Qed.

Lemma plateau_with_nan (scores : list float) :
  In NaN (Np.last_k 5 scores) -> plateau scores = false.
Proof.
  intros Hin. unfold plateau.
  destruct (le_lt_dec 2 (List.length (Np.last_k 5 scores))) as [H2|H1].
  - rewrite mean_keeps_nan; [ reflexivity | ].
    apply diff_keeps_nan; [ rewrite length_rev; exact H2 | ].
    apply in_rev in Hin. exact Hin.
  - destruct (Np.last_k 5 scores) as [|x [|y tl]]; cbn in H1; try lia;
      reflexivity.
Qed.

(** X1: whenever one of the last five recorded scores is [nan], the callback
    does not ask for a stop, checkpoint or not. *)
Theorem nan_score_blocks_early_stop
    (spearmanr pearsonr : list Q -> list Q -> float)
    (self self' : EarlyStoppingCallback) (w : list Q) (r : option bool) :
  __call__ spearmanr pearsonr self w = Ok (self', r) ->
  In NaN (Np.last_k 5 (test_scores self')) ->
  r <> Some true.
Proof.
  intros Hcall Hin Hr.
  destruct (@EarlyStoppingFacts.call_spec spearmanr pearsonr self self' w r Hcall)
    as (_ & _ & Hiff).
  apply Hiff in Hr. destruct Hr as (_ & _ & _ & Hp).
  rewrite (plateau_with_nan _ Hin) in Hp. discriminate.
Qed.

Lemma nan_score_blocks_early_stop_witness :
  let self := mkEarlyStoppingCallback [[1; 0]; [1; 0]] [1; 2] false false 0 0
                (repeat (Fin 1) 21) 21 in
  exists self',
    __call__ corr_two_points corr_two_points self [1; 0] = Ok (self', Some false)
    /\ Some false <> Some true.
Proof.
  intros self.
  destruct (__call__ corr_two_points corr_two_points self [1; 0])
    as [[self' r]|e] eqn:Hcall; [ | vm_compute in Hcall; discriminate ].
  assert (Hr : r = Some false) by (vm_compute in Hcall; congruence).
  exists self'. subst r. split; [ reflexivity | ].
  apply (@nan_score_blocks_early_stop corr_two_points corr_two_points
           self self' [1; 0] (Some false) Hcall).
  vm_compute in Hcall. injection Hcall as <-. vm_compute. tauto.
Defined.

(** *** [sorted(alphas)[::-1]] *)

Lemma insert_sorted_perm (a : Q) (l : list Q) :
  Permutation (insert_sorted a l) (a :: l).
Proof.
  induction l as [|b l IH]; cbn [insert_sorted]; [ reflexivity | ].
  destruct (Qle_bool a b); [ reflexivity | ].
  rewrite IH. apply perm_swap.
Qed.

Lemma sorted_perm (l : list Q) : Permutation (sorted l) l.
Proof.
  induction l as [|a l IH]; [ reflexivity | ].
  cbn [sorted fold_right]. fold (sorted l).
  rewrite insert_sorted_perm, IH. reflexivity.
Qed.

Lemma insert_sorted_hd (a b : Q) (l : list Q) :
  HdRel Qle b l -> b <= a -> HdRel Qle b (insert_sorted a l).
Proof.
  intros Hl Hba. destruct l as [|c l]; cbn [insert_sorted].
  - constructor. exact Hba.
  - destruct (Qle_bool a c); constructor; [ exact Hba | ].
    inversion Hl; assumption.
Qed.

Lemma insert_sorted_sorted (a : Q) (l : list Q) :
  Sorted Qle l -> Sorted Qle (insert_sorted a l).
Proof.
  induction l as [|b l IH]; intros Hs; cbn [insert_sorted].
  - repeat constructor.
  - destruct (Qle_bool a b) eqn:E.
    + apply Qle_bool_iff in E. constructor; [ exact Hs | constructor; exact E ].
    + inversion Hs as [|? ? Hs' Hhd]; subst.
      constructor; [ apply IH, Hs' | ].
      apply insert_sorted_hd; [ exact Hhd | ].
      apply Qlt_le_weak, Qnot_le_lt. intros Hle.
      apply Qle_bool_iff in Hle. congruence.
Qed.

Lemma sorted_is_sorted (l : list Q) : StronglySorted Qle (sorted l).
Proof.
  apply Sorted_StronglySorted; [ intros x y z; apply Qle_trans | ].
  induction l as [|a l IH]; [ constructor | ].
  cbn [sorted fold_right]. apply insert_sorted_sorted, IH.
Qed.

Lemma strongly_sorted_snoc (A : Type) (R : A -> A -> Prop) (l : list A)
    (a : A) :
  StronglySorted R l -> Forall (fun x => R x a) l ->
  StronglySorted R (l ++ [a]).
Proof.
  induction l as [|x l IH]; intros Hs Hall; cbn.
  - repeat constructor.
  - apply StronglySorted_inv in Hs. destruct Hs as [Hs Hx].
    inversion Hall; subst.
    constructor; [ apply IH; assumption | ].
    apply Forall_app. split; [ exact Hx | repeat constructor; assumption ].
Qed.

Lemma strongly_sorted_rev (A : Type) (R : A -> A -> Prop) (l : list A) :
  StronglySorted R l -> StronglySorted (fun x y => R y x) (rev l).
Proof.
  induction l as [|x l IH]; intros Hs; [ constructor | ].
  apply StronglySorted_inv in Hs. destruct Hs as [Hs Hx].
  cbn [rev]. apply strongly_sorted_snoc; [ apply IH, Hs | ].
  apply Forall_rev. exact Hx.
Qed.

(** X2: the grid the driver scans is a rearrangement of the alphas it was
    given, in decreasing order; its first entry, the initial [best_alpha],
    is at least every alpha of the grid. *)
Theorem sorted_descending_spec (alphas : list Q) :
  Permutation (sorted_descending alphas) alphas
  /\ StronglySorted (fun a b => b <= a) (sorted_descending alphas)
  /\ forall first rest,
       sorted_descending alphas = first :: rest ->
       forall a, In a alphas -> a <= first.
Proof.
  unfold sorted_descending.
  assert (Hperm : Permutation (rev (sorted alphas)) alphas)
    by (rewrite <- Permutation_rev; apply sorted_perm).
  assert (Hsort : StronglySorted (fun a b => b <= a) (rev (sorted alphas)))
    by (apply strongly_sorted_rev, sorted_is_sorted).
  split; [ exact Hperm | split; [ exact Hsort | ] ].
  intros first rest Heq a Hin. rewrite Heq in Hperm, Hsort.
  apply (Permutation_in _ (Permutation_sym Hperm)) in Hin.
  destruct Hin as [<-|Hin]; [ apply Qle_refl | ].
  apply StronglySorted_inv in Hsort. destruct Hsort as [_ Hall].
  rewrite Forall_forall in Hall. apply Hall, Hin.
Qed.

(** *** The alpha that wins the loop *)

Lemma ge_trans (a b c : float) :
  ge a b = true -> ge b c = true -> ge a c = true.
Proof.
  destruct a as [x| | |], b as [y| | |], c as [z| | |]; cbn;
    try discriminate; try reflexivity.
  intros H1 H2. apply Qle_bool_iff in H1, H2. apply Qle_bool_iff.
  eapply Qle_trans; eassumption.
Qed.

Lemma ge_refl_finite (a : float) : isfinite a = true -> ge a a = true.
Proof.
  destruct a; try discriminate. intros _. cbn. apply Qle_bool_iff, Qle_refl.
Qed.

Lemma ge_refl_settled (a : float) : settled a -> ge a a = true.
Proof. intros [->|H]; [ reflexivity | apply ge_refl_finite, H ]. Qed.

Lemma selects_true (State : Type) (score sec : float) (st : loop_state State) :
  selects score sec st = true ->
  isfinite score = true /\ (settled (l_best_score st) ->
                            ge score (l_best_score st) = true).
Proof.
  unfold selects. intros H. apply andb_prop in H. destruct H as [Hf H].
  split; [ exact Hf | ]. intros Hs.
  destruct score as [q| | |]; try discriminate.
  destruct (l_best_score st) as [b| | |]; cbn in *; try reflexivity;
    try (destruct Hs as [Hs|Hs]; discriminate).
  apply orb_prop in H. destruct H as [H|H].
  - apply Qle_bool_iff. apply Qlt_le_weak, Qnot_le_lt. intros Hle.
    apply Qle_bool_iff in Hle. rewrite Hle in H. discriminate.
  - apply andb_prop in H. destruct H as [H _].
    apply Qeq_bool_iff in H. apply Qle_bool_iff. rewrite H. apply Qle_refl.
Qed.

Lemma selects_false (State : Type) (q : Q) (sec : float)
    (st : loop_state State) :
  selects (Fin q) sec st = false -> settled (l_best_score st) ->
  isfinite (l_best_score st) = true /\ ge (l_best_score st) (Fin q) = true.
Proof.
  unfold selects. cbn [isfinite andb]. intros H Hs.
  apply orb_false_iff in H. destruct H as [H _].
  destruct (l_best_score st) as [b| | |]; cbn in *;
    try discriminate; try (destruct Hs as [Hs|Hs]; discriminate).
  split; [ reflexivity | ].
  destruct (Qle_bool q b); [ reflexivity | discriminate ].
Qed.

Section AlphaLoop.

Variables spearmanr pearsonr : list Q -> list Q -> float.
Variable State : Type.
Variable solver :
  list (list Q) -> list Q -> Q -> Q -> mask3 -> option State ->
  option EarlyStoppingCallback -> list Q * State.
Variables (X_train : list (list Q)) (y_train : list Q)
          (X_test : list (list Q)) (y_test : list Q) (l1_ratio : Q)
          (mask : mask3) (is_classif debias : bool) (ymean : Q)
          (verbose : nat).

Let body :=
  loop_body spearmanr pearsonr solver X_train y_train X_test y_test
    l1_ratio mask is_classif debias ymean verbose.

Lemma loop_body_cases (st st' : loop_state State) (alpha : Q) :
  body st alpha = Ok st' ->
  exists score sec,
    l_test_scores st' = l_test_scores st ++ [score]
    /\ ((selects score sec st = true
         /\ l_best_score st' = score /\ l_best_alpha st' = alpha)
        \/ (selects score sec st = false
            /\ l_best_score st' = l_best_score st
            /\ l_best_alpha st' = l_best_alpha st)).
Proof.
  unfold body, loop_body.
  destruct (solver X_train y_train alpha l1_ratio mask (l_init st) _)
    as [w init].
  destruct (test_score spearmanr pearsonr _ w) as [[score sec]|e];
    cbn [bind]; [ | discriminate ].
  destruct (selects score sec st) eqn:Hsel; intros [= <-];
    exists score, sec; (split; [ reflexivity | ]).
  - left. repeat split; assumption.
  - right. repeat split; assumption.
Qed.

Lemma alpha_loop_invariant (alphas : list Q) :
  forall st st' : loop_state State,
    alpha_loop body st alphas = Ok st' ->
    settled (l_best_score st) ->
    exists new,
      l_test_scores st' = l_test_scores st ++ new
      /\ List.length new = List.length alphas
      /\ (forall q, In (Fin q) new -> ge (l_best_score st') (Fin q) = true)
      /\ ge (l_best_score st') (l_best_score st) = true
      /\ settled (l_best_score st')
      /\ ((l_best_score st' = l_best_score st
           /\ l_best_alpha st' = l_best_alpha st
           /\ (l_best_score st = NegInf ->
               forall s, In s new -> isfinite s = false))
          \/ (isfinite (l_best_score st') = true
              /\ In (l_best_score st') new
              /\ In (l_best_alpha st') alphas)).
Proof.
  induction alphas as [|alpha alphas IH]; intros st st' Hloop Hset.
  - cbn in Hloop. injection Hloop as <-. exists [].
    rewrite app_nil_r. repeat split; try reflexivity.
    + intros q [].
    + apply ge_refl_settled, Hset.
    + exact Hset.
    + left. repeat split. intros _ s [].
  - cbn [alpha_loop] in Hloop.
    destruct (body st alpha) as [st1|e] eqn:Hbody; cbn [bind] in Hloop;
      [ | discriminate ].
    destruct (loop_body_cases st st1 alpha Hbody)
      as (score & sec & Hsc & [(Hsel & Hb1 & Ha1) | (Hsel & Hb1 & Ha1)]).
    + destruct (selects_true State score sec st Hsel) as [Hfin Hge].
      specialize (Hge Hset).
      assert (Hset1 : settled (l_best_score st1))
        by (right; rewrite Hb1; exact Hfin).
      destruct (IH st1 st' Hloop Hset1)
        as (new & Hn & Hlen & Hall & Hmono & Hset' & Hcase).
      exists (score :: new). rewrite Hn, Hsc, <- app_assoc. cbn [app].
      split; [ reflexivity | split; [ cbn; lia | ] ].
      split; [ | split; [ | split; [ exact Hset' | ] ] ].
      * intros q [Hq|Hq]; [ | apply Hall, Hq ].
        rewrite <- Hq, <- Hb1. exact Hmono.
      * apply ge_trans with (b := l_best_score st1); [ exact Hmono | ].
        rewrite Hb1. exact Hge.
      * right. destruct Hcase as [(Hb & Ha & _) | (Hf & Hin & Hia)].
        -- rewrite Hb, Ha, Hb1, Ha1.
           repeat split; [ exact Hfin | left; reflexivity | left; reflexivity ].
        -- repeat split; [ exact Hf | right; exact Hin | right; exact Hia ].
    + assert (Hset1 : settled (l_best_score st1)) by (rewrite Hb1; exact Hset).
      destruct (IH st1 st' Hloop Hset1)
        as (new & Hn & Hlen & Hall & Hmono & Hset' & Hcase).
      exists (score :: new). rewrite Hn, Hsc, <- app_assoc. cbn [app].
      split; [ reflexivity | split; [ cbn; lia | ] ].
      split; [ | split; [ | split; [ exact Hset' | ] ] ].
      * intros q [Hq|Hq]; [ | apply Hall, Hq ].
        subst score. destruct (selects_false State q sec st Hsel Hset) as [_ Hge].
        apply ge_trans with (b := l_best_score st1); [ exact Hmono | ].
        rewrite Hb1. exact Hge.
      * rewrite <- Hb1. exact Hmono.
      * destruct Hcase as [(Hb & Ha & Hnone) | (Hf & Hin & Hia)].
        -- left. rewrite Hb, Ha, Hb1, Ha1. repeat split.
           intros Hneg s [<-|Hs]; [ | apply Hnone; [ congruence | exact Hs ] ].
           destruct score as [q| | |]; try reflexivity.
           destruct (selects_false State q sec st Hsel Hset) as [Hf _].
           rewrite Hneg in Hf. discriminate.
        -- right. repeat split; [ exact Hf | right; exact Hin | right; exact Hia ].
Qed.

End AlphaLoop.

(** X3: the scoring loop of [path_scores] records one score per alpha; the
    score it keeps as best is at least every finite score recorded.  Either
    no score was finite and [best_alpha] is still [alphas[0]], or the best
    score is one of the recorded scores, finite, and [best_alpha] is an
    alpha of the grid. *)
Theorem alpha_loop_keeps_the_best_finite_score
    (spearmanr pearsonr : list Q -> list Q -> float) (State : Type)
    (solver : list (list Q) -> list Q -> Q -> Q -> mask3 -> option State ->
              option EarlyStoppingCallback -> list Q * State)
    (X_train : list (list Q)) (y_train : list Q)
    (X_test : list (list Q)) (y_test : list Q) (l1_ratio : Q)
    (mask : mask3) (is_classif debias : bool) (ymean : Q) (verbose : nat)
    (alphas : list Q) (st st' : loop_state State) :
  alpha_loop
    (loop_body spearmanr pearsonr solver X_train y_train X_test y_test
       l1_ratio mask is_classif debias ymean verbose) st alphas = Ok st' ->
  l_best_score st = NegInf ->
  exists new,
    l_test_scores st' = l_test_scores st ++ new
    /\ List.length new = List.length alphas
    /\ (forall q, In (Fin q) new -> ge (l_best_score st') (Fin q) = true)
    /\ ((l_best_score st' = NegInf
         /\ l_best_alpha st' = l_best_alpha st
         /\ forall s, In s new -> isfinite s = false)
        \/ (isfinite (l_best_score st') = true
            /\ In (l_best_score st') new
            /\ In (l_best_alpha st') alphas)).
Proof.
  intros Hloop Hneg.
  destruct (@alpha_loop_invariant spearmanr pearsonr State solver X_train
              y_train X_test y_test l1_ratio mask is_classif debias ymean
              verbose alphas st st' Hloop (or_introl Hneg))
    as (new & Hn & Hlen & Hall & _ & _ & Hcase).
  exists new. repeat (split; [ assumption | ]).
  destruct Hcase as [(Hb & Ha & Hnone) | Hright]; [ left | right; exact Hright ].
  rewrite Hb. repeat split; [ exact Hneg | exact Ha | apply Hnone, Hneg ].
Qed.

Lemma alpha_loop_keeps_the_best_finite_score_witness :
  let solver := fun (_ : list (list Q)) (_ : list Q) (alpha : Q) (_ : Q)
                    (_ : mask3) (_ : option unit)
                    (_ : option EarlyStoppingCallback) =>
                  ([alpha - 1; 0], tt) in
  let st := mkLoop (@None unit) NegInf NegInf 2 None [] None in
  exists st',
    alpha_loop
      (loop_body corr_two_points corr_two_points solver [] []
         [[1; 0]; [2; 0]] [1; 2] (1 # 2) [] false false 0 0) st [2; 1; 0]
    = Ok st'
    /\ exists new, l_test_scores st' = l_test_scores st ++ new
                   /\ List.length new = 3%nat.
Proof.
  intros solver st.
  destruct (alpha_loop
              (loop_body corr_two_points corr_two_points solver [] []
                 [[1; 0]; [2; 0]] [1; 2] (1 # 2) [] false false 0 0)
              st [2; 1; 0]) as [st'|e] eqn:Hloop;
    [ | vm_compute in Hloop; discriminate ].
  exists st'. split; [ reflexivity | ].
  destruct (@alpha_loop_keeps_the_best_finite_score
              corr_two_points corr_two_points unit solver [] []
              [[1; 0]; [2; 0]] [1; 2] (1 # 2) [] false false 0 0
              [2; 1; 0] st st' Hloop eq_refl)
    as (new & Hn & Hlen & _).
  exists new. split; assumption.
Defined.

(** *** Debiasing *)

Lemma dot_ok (a b : list Q) (v : Q) :
  Np.dot a b = Ok v ->
  List.length a = List.length b /\ v = Np.dot_aligned a b.
Proof.
  unfold Np.dot. destruct (List.length a =? List.length b)%nat eqn:E;
    [ | discriminate ].
  intros [= <-]. apply Nat.eqb_eq in E. split; [ exact E | reflexivity ].
Qed.

Lemma matvec_ok (X : list (list Q)) (w : list Q) :
  forall p, Np.matvec X w = Ok p ->
            p = map (fun row => Np.dot_aligned row w) X
            /\ Forall (fun row => List.length row = List.length w) X.
Proof.
  induction X as [|row X IH]; intros p H; cbn [Np.matvec] in H.
  - injection H as <-. split; [ reflexivity | constructor ].
  - destruct (Np.dot row w) as [v|e] eqn:Hd; cbn [bind] in H; [ | discriminate ].
    destruct (Np.matvec X w) as [vs|e]; cbn [bind] in H; [ | discriminate ].
    injection H as <-. destruct (IH vs eq_refl) as [-> Hall].
    destruct (dot_ok _ _ _ Hd) as [Hlen ->].
    split; [ reflexivity | constructor; assumption ].
Qed.

Lemma matvec_of_lengths (X : list (list Q)) (w : list Q) :
  Forall (fun row => List.length row = List.length w) X ->
  Np.matvec X w = Ok (map (fun row => Np.dot_aligned row w) X).
Proof.
  induction 1 as [|row X Hrow Hall IH]; [ reflexivity | ].
  cbn [Np.matvec map]. unfold Np.dot. rewrite Hrow, Nat.eqb_refl.
  cbn [bind]. rewrite IH. reflexivity.
Qed.

Lemma dot_aligned_scale_r (c : Q) (a : list Q) :
  forall b, Np.dot_aligned a (map (fun x => x * c) b)
            == c * Np.dot_aligned a b.
Proof.
  induction a as [|x a IH]; intros [|y b]; cbn [map Np.dot_aligned];
    try ring.
  rewrite IH. ring.
Qed.

(** Two vectors given row by row, the first [c] times the second. *)
Lemma dot_aligned_rows_l (A : Type) (f g : A -> Q) (c : Q) (X : list A) :
  (forall row, f row == c * g row) ->
  forall y, Np.dot_aligned (map f X) y == c * Np.dot_aligned (map g X) y.
Proof.
  intros H. induction X as [|row X IH]; intros [|v y];
    cbn [map Np.dot_aligned]; try ring.
  rewrite IH, H. ring.
Qed.

Lemma dot_aligned_rows_both (A : Type) (f g : A -> Q) (c : Q) (X : list A) :
  (forall row, f row == c * g row) ->
  Np.dot_aligned (map f X) (map f X)
  == c * c * Np.dot_aligned (map g X) (map g X).
Proof.
  intros H. induction X as [|row X IH]; cbn [map Np.dot_aligned]; [ ring | ].
  rewrite IH, H. ring.
Qed.

Lemma square_nonneg (x : Q) : 0 <= x * x.
Proof.
  destruct (Qlt_le_dec x 0) as [Hn|Hp].
  - setoid_replace (x * x) with ((- x) * (- x)) by ring.
    apply Qmult_le_0_compat; lraQ.
  - apply Qmult_le_0_compat; assumption.
Qed.

Lemma dot_self_nonneg (p : list Q) : 0 <= Np.dot_aligned p p.
Proof.
  induction p as [|x p IH]; cbn [Np.dot_aligned]; [ apply Qle_refl | ].
  pose proof (square_nonneg x). lraQ.
Qed.

(** A vector of zero length (in norm) is orthogonal to everything. *)
Lemma dot_self_zero (p : list Q) :
  Np.dot_aligned p p <= 0 -> forall y, Np.dot_aligned p y == 0.
Proof.
  induction p as [|x p IH]; intros Hle [|v y]; cbn [Np.dot_aligned] in *;
    try reflexivity.
  pose proof (square_nonneg x) as Hx. pose proof (dot_self_nonneg p) as Hp.
  assert (Hx0 : x * x == 0) by lraQ.
  assert (Hxz : x == 0).
  { destruct (Qmult_integral _ _ Hx0); assumption. }
  rewrite IH by lraQ. rewrite Hxz. ring.
Qed.

(** X4: after [_debias] the held-out prediction [p' = X_test . w'] satisfies
    [<p', y_test> = <p', p'>]: the residual [y_test - p'] is orthogonal to
    the prediction.  With no held-out sample the weights come back
    unchanged. *)
Theorem debias_makes_residual_orthogonal
    (self : EarlyStoppingCallback) (w w' : list Q) :
  _debias self w = Ok w' ->
  Np.matvec (X_test self) w'
  = Ok (map (fun row => Np.dot_aligned row w') (X_test self))
  /\ Np.dot_aligned (map (fun row => Np.dot_aligned row w') (X_test self))
       (y_test self)
     == Np.dot_aligned (map (fun row => Np.dot_aligned row w') (X_test self))
          (map (fun row => Np.dot_aligned row w') (X_test self))
  /\ (X_test self = [] -> w' = w).
Proof.
  unfold _debias. intros H.
  destruct (Np.matvec (X_test self) w) as [p|e] eqn:Hp; cbn [bind] in H;
    [ | discriminate ].
  destruct (matvec_ok _ _ _ Hp) as [-> Hrows].
  destruct (Np.dot _ _) as [scaling|e] eqn:Hs; cbn [bind] in H;
    [ | discriminate ].
  destruct (dot_ok _ _ _ Hs) as [_ ->].
  set (P := map (fun row => Np.dot_aligned row w) (X_test self)) in *.
  destruct (Qle_bool (Np.dot_aligned P P) 0) eqn:Hle; cbn [negb] in H.
  - injection H as <-. apply Qle_bool_iff in Hle.
    split; [ apply matvec_of_lengths, Hrows | split ].
    + fold P. rewrite !(dot_self_zero P Hle). reflexivity.
    + reflexivity.
  - destruct (Np.dot P (y_test self)) as [num|e] eqn:Hn; cbn [bind] in H;
      [ | discriminate ].
    destruct (dot_ok _ _ _ Hn) as [_ ->]. injection H as <-.
    assert (Hpos : ~ Np.dot_aligned P P == 0).
    { intros Hz. assert (E : Qle_bool (Np.dot_aligned P P) 0 = true)
        by (apply Qle_bool_iff; rewrite Hz; apply Qle_refl).
      congruence. }
    set (c := Np.dot_aligned P (y_test self) / Np.dot_aligned P P).
    assert (Hrow : forall row,
               Np.dot_aligned row (map (fun x => x * c) w)
               == c * Np.dot_aligned row w)
      by (intros row; apply dot_aligned_scale_r).
    split; [ | split ].
    + apply matvec_of_lengths. revert Hrows. apply Forall_impl.
      intros row Hr. rewrite length_map. exact Hr.
    + rewrite (dot_aligned_rows_l _ _ _ c (X_test self) Hrow).
      rewrite (dot_aligned_rows_both _ _ _ c (X_test self) Hrow).
      fold P. unfold c. field. exact Hpos.
    + intros Hempty. exfalso. apply Hpos. unfold P. rewrite Hempty.
      reflexivity.
Qed.

Lemma debias_makes_residual_orthogonal_witness :
  let self := EarlyStoppingCallback_init [[1; 0]; [0; 2]] [3; 4] false true 0 0 in
  _debias self [1; 1] = Ok [1 * ((11 # 1) / (5 # 1)); 1 * ((11 # 1) / (5 # 1))]
  /\ Np.matvec (X_test self)
       [1 * ((11 # 1) / (5 # 1)); 1 * ((11 # 1) / (5 # 1))]
     = Ok (map (fun row =>
                  Np.dot_aligned row
                    [1 * ((11 # 1) / (5 # 1)); 1 * ((11 # 1) / (5 # 1))])
               (X_test self)).
Proof.
  intros self.
  assert (H : _debias self [1; 1]
              = Ok [1 * ((11 # 1) / (5 # 1)); 1 * ((11 # 1) / (5 # 1))])
    by (vm_compute; reflexivity).
  split; [ exact H | ].
  exact (proj1 (debias_makes_residual_orthogonal self _ _ H)).
Defined.

End DriverFacts.

(** ** Scattering into a mask and gathering back *)

Module ScatterFacts.
Import Mask.
Unset Implicit Arguments.
Local Open Scope list_scope.

Lemma length_where1 (row : list bool) :
  forall k0 k1, List.length (where1 k0 row) = List.length (where1 k1 row).
Proof.
  induction row as [|b row IH]; intros k0 k1; [ reflexivity | ].
  cbn [where1]. rewrite !length_app, (IH (S k0) (S k1)).
  destruct b; reflexivity.
Qed.

Lemma where1_cons (b : bool) (row : list bool) :
  List.length (where1 0 (b :: row))
  = ((if b then 1 else 0) + List.length (where1 0 row))%nat.
Proof.
  cbn [where1]. rewrite length_app, (length_where1 row 1 0).
  destruct b; reflexivity.
Qed.

(** One row: what [scatter1] writes and what it leaves. *)
Lemma scatter1_spec (A : Type) (zero : A) (mrow : list bool) :
  forall vals : list A,
    (List.length (where1 0 mrow) <= List.length vals)%nat ->
    List.length (fst (scatter1 zero mrow vals)) = List.length mrow
    /\ snd (scatter1 zero mrow vals)
       = skipn (List.length (where1 0 mrow)) vals
    /\ gather1 (fst (scatter1 zero mrow vals)) mrow
       = firstn (List.length (where1 0 mrow)) vals
    /\ forall i, nth i mrow false = false ->
                 nth i (fst (scatter1 zero mrow vals)) zero = zero.
Proof.
  induction mrow as [|b mrow IH]; intros vals Hlen.
  - cbn. repeat split. intros i _. destruct i; reflexivity.
  - rewrite where1_cons in *. destruct b; cbn [scatter1].
    + destruct vals as [|v vals]; [ cbn in Hlen; lia | ].
      cbn [tl hd]. cbn in Hlen.
      destruct (IH vals ltac:(lia)) as (H1 & H2 & H3 & H4).
      destruct (scatter1 zero mrow vals) as [out rest].
      cbn [fst snd] in *. cbn [Nat.add skipn firstn List.length].
      split; [ cbn; lia | split; [ exact H2 | split ] ].
      * unfold gather1 in *. cbn [map2 List.concat app]. rewrite H3.
        reflexivity.
      * intros [|i] Hi; [ discriminate | ]. cbn [nth]. apply H4, Hi.
    + cbn [Nat.add] in *.
      destruct (IH vals Hlen) as (H1 & H2 & H3 & H4).
      destruct (scatter1 zero mrow vals) as [out rest].
      cbn [fst snd] in *.
      split; [ cbn; lia | split; [ exact H2 | split ] ].
      * unfold gather1 in *. cbn [map2 List.concat app]. exact H3.
      * intros [|i] Hi; [ reflexivity | ]. cbn [nth]. apply H4, Hi.
Qed.

(** What [assigned] hands over, and when. *)
Lemma assigned_spec (A : Type) (n : nat) (vals : list A) :
  is_ok (assigned n vals)
  = ((List.length vals =? 1)%nat || (List.length vals =? n)%nat)
  /\ forall vs, assigned n vals = Ok vs ->
       List.length vs = n
       /\ vs = match vals with
               | [v] => repeat v n
               | _ => vals
               end.
Proof.
  unfold assigned. destruct vals as [|v [|v' vals]].
  - change (List.length (@nil A) =? 1)%nat with false. cbn [orb].
    destruct (Nat.eqb_spec (List.length (@nil A)) n) as [E|E].
    + split; [ reflexivity | ].
      intros vs [= <-]. split; [ exact E | reflexivity ].
    + split; [ reflexivity | discriminate ].
  - split; [ reflexivity | ].
    intros vs [= <-]. split; [ apply repeat_length | reflexivity ].
  - change (List.length (v :: v' :: vals) =? 1)%nat with false. cbn [orb].
    destruct (Nat.eqb_spec (List.length (v :: v' :: vals)) n) as [E|E].
    + split; [ reflexivity | ].
      intros vs [= <-]. split; [ exact E | reflexivity ].
    + split; [ reflexivity | discriminate ].
Qed.

(** One row filled by a boolean-index assignment. *)
Lemma place_spec (support : list bool) (vals out : list Q) :
  (vs <- assigned (count1 support) vals ;;
   Ok (fst (scatter1 0%Q support vs))) = Ok out ->
  List.length out = List.length support
  /\ gather1 out support = match vals with
                           | [v] => repeat v (count1 support)
                           | _ => vals
                           end
  /\ forall i, nth i support false = false -> nth i out 0%Q = 0%Q.
Proof.
  intros H.
  destruct (assigned (count1 support) vals) as [vs|e] eqn:Hvs;
    cbn [bind] in H; [ | discriminate ].
  injection H as <-.
  destruct (proj2 (assigned_spec Q (count1 support) vals) vs Hvs)
    as [Hlen Hval].
  unfold count1 in Hlen.
  destruct (scatter1_spec Q 0%Q support vs ltac:(lia))
    as (H1 & _ & H3 & H4).
  split; [ exact H1 | split; [ | exact H4 ] ].
  rewrite H3, <- Hlen, firstn_all. exact Hval.
Qed.

(** X5: undoing the screening.  The returned vector has one coefficient per
    original feature (plus the intercept for classification); the screened
    weights sit, in order, at the retained positions (a single screened
    weight is broadcast to all of them); every dropped position holds zero;
    the intercept is carried over. *)
Theorem unscreen_fills_dropped_features_with_zero
    (is_classif : bool) (support : list bool) (best_w w_ : list Q) :
  SpaceNet.unscreen is_classif support best_w = Ok w_ ->
  List.length w_
  = (List.length support + (if is_classif then 1 else 0))%nat
  /\ gather1 (firstn (List.length support) w_) support
     = (let vals := if is_classif then Np.but_last best_w else best_w in
        match vals with
        | [v] => repeat v (count1 support)
        | _ => vals
        end)
  /\ (forall i, (i < List.length support)%nat ->
                nth i support false = false -> nth i w_ 0%Q = 0%Q)
  /\ (if is_classif then last w_ 0%Q = last best_w 0%Q else True).
Proof.
  unfold SpaceNet.unscreen.
  destruct is_classif; cbv zeta.
  - destruct (rev best_w) as [|intercept rest] eqn:Hrev; [ discriminate | ].
    destruct (vs <- assigned (count1 support) (Np.but_last best_w) ;;
              Ok (fst (scatter1 0%Q support vs)))
      as [out|e] eqn:Hout; cbn [bind]; [ | discriminate ].
    intros [= <-]. destruct (place_spec _ _ _ Hout) as (H1 & H2 & H3).
    assert (Hbw : best_w = rev rest ++ [intercept])
      by (rewrite <- (rev_involutive best_w), Hrev; reflexivity).
    split; [ rewrite length_app; cbn; lia | split; [ | split ] ].
    + rewrite firstn_app, <- H1, firstn_all, Nat.sub_diag. cbn [firstn].
      rewrite app_nil_r. exact H2.
    + intros i Hi Hs. rewrite app_nth1 by lia. apply H3, Hs.
    + rewrite Hbw, !last_last. reflexivity.
  - intros H. destruct (place_spec _ _ _ H) as (H1 & H2 & H3).
    split; [ lia | split; [ | split; [ | exact I ] ] ].
    + rewrite <- H1, firstn_all. exact H2.
    + intros i _ Hs. apply H3, Hs.
Qed.

Lemma unscreen_length (is_classif : bool) (support : list bool)
    (best_w w_ : list Q) :
  SpaceNet.unscreen is_classif support best_w = Ok w_ ->
  List.length w_ = (List.length support + (if is_classif then 1 else 0))%nat
  /\ True.
Proof.
  unfold SpaceNet.unscreen.
  destruct is_classif.
  - destruct (rev best_w) as [|intercept rest]; [ discriminate | ].
    destruct (vs <- assigned (count1 support) (Np.but_last best_w) ;;
              Ok (fst (scatter1 0%Q support vs)))
      as [out|e] eqn:Hout; cbn [bind]; [ | discriminate ].
    intros [= <-]. rewrite length_app, (proj1 (place_spec _ _ _ Hout)). cbn.
    split; [ reflexivity | exact I ].
  - intros H. rewrite (proj1 (place_spec _ _ _ H)). split; [ lia | exact I ].
Qed.

Lemma unscreen_fills_dropped_features_with_zero_witness :
  SpaceNet.unscreen true [true; false; false; true] [5; 7; 9]%Q
  = Ok [5; 0; 0; 7; 9]%Q
  /\ SpaceNet.unscreen false [true; false; true] [5]%Q = Ok [5; 0; 5]%Q
  /\ gather1 (firstn 3 [5; 0; 5]%Q) [true; false; true] = [5; 5]%Q.
Proof.
  assert (H : SpaceNet.unscreen true [true; false; false; true] [5; 7; 9]%Q
              = Ok [5; 0; 0; 7; 9]%Q) by reflexivity.
  assert (H' : SpaceNet.unscreen false [true; false; true] [5]%Q
               = Ok [5; 0; 5]%Q) by reflexivity.
  split; [ exact H | split; [ exact H' | ] ].
  exact (proj1 (proj2 (unscreen_fills_dropped_features_with_zero false
                         [true; false; true] [5]%Q [5; 0; 5]%Q H'))).
Defined.

(** *** Three dimensions *)

Lemma firstn_plus (A : Type) (a b : nat) :
  forall l : list A, firstn (a + b) l = firstn a l ++ firstn b (skipn a l).
Proof.
  induction a as [|a IH]; intros [|x l]; cbn; try reflexivity.
  - rewrite firstn_nil. reflexivity.
  - rewrite IH. reflexivity.
Qed.

Lemma length_where2 (plane : list (list bool)) :
  forall j0 j1, List.length (where2 j0 plane) = List.length (where2 j1 plane).
Proof.
  induction plane as [|row plane IH]; intros j0 j1; [ reflexivity | ].
  cbn [where2]. rewrite !length_app, !length_map, (IH (S j0) (S j1)).
  reflexivity.
Qed.

Lemma where2_cons (row : list bool) (plane : list (list bool)) :
  List.length (where2 0 (row :: plane))
  = (List.length (where1 0 row) + List.length (where2 0 plane))%nat.
Proof.
  cbn [where2]. rewrite length_app, length_map, (length_where2 plane 1 0).
  reflexivity.
Qed.

Lemma length_where3 (m : mask3) :
  forall i0 i1, List.length (where3 i0 m) = List.length (where3 i1 m).
Proof.
  induction m as [|plane m IH]; intros i0 i1; [ reflexivity | ].
  cbn [where3]. rewrite !length_app, !length_map, (IH (S i0) (S i1)).
  reflexivity.
Qed.

Lemma where3_cons (plane : list (list bool)) (m : mask3) :
  List.length (where3 0 (plane :: m))
  = (List.length (where2 0 plane) + List.length (where3 0 m))%nat.
Proof.
  cbn [where3]. rewrite length_app, length_map, (length_where3 m 1 0).
  reflexivity.
Qed.

Lemma same_len2_of_length (A B : Type) (a : list A) :
  forall b : list B,
    List.length a = List.length b ->
    same_len2 (fun _ _ => true) a b = true.
Proof.
  induction a as [|x a IH]; intros [|y b] H; cbn in *; try lia;
    try reflexivity.
  apply IH. lia.
Qed.

Lemma scatter2_spec (A : Type) (zero : A) (mplane : list (list bool)) :
  forall vals : list A,
    (List.length (where2 0 mplane) <= List.length vals)%nat ->
    same_len2 (same_len2 (fun _ _ => true))
      (fst (scatter2 zero mplane vals)) mplane = true
    /\ snd (scatter2 zero mplane vals)
       = skipn (List.length (where2 0 mplane)) vals
    /\ List.concat (map2 gather1 (fst (scatter2 zero mplane vals)) mplane)
       = firstn (List.length (where2 0 mplane)) vals
    /\ forall j k, nth k (nth j mplane []) false = false ->
                   nth k (nth j (fst (scatter2 zero mplane vals)) []) zero
                   = zero.
Proof.
  induction mplane as [|mrow mplane IH]; intros vals Hlen.
  - cbn. repeat split. intros j k _. destruct j, k; reflexivity.
  - rewrite where2_cons in *. cbn [scatter2].
    destruct (scatter1_spec A zero mrow vals ltac:(lia))
      as (H1 & H2 & H3 & H4).
    destruct (scatter1 zero mrow vals) as [row rest]. cbn [fst snd] in *.
    subst rest.
    destruct (IH (skipn (List.length (where1 0 mrow)) vals)
                ltac:(rewrite length_skipn; lia)) as (G1 & G2 & G3 & G4).
    destruct (scatter2 zero mplane _) as [out rest']. cbn [fst snd] in *.
    split; [ | split; [ | split ] ].
    + cbn [same_len2]. rewrite (same_len2_of_length _ _ row mrow H1), G1.
      reflexivity.
    + rewrite G2, skipn_skipn. f_equal. lia.
    + cbn [map2 List.concat]. rewrite H3, G3. symmetry. apply firstn_plus.
    + intros [|j] k Hk; cbn [nth] in *; [ apply H4, Hk | apply G4, Hk ].
Qed.

Lemma scatter3_spec (A : Type) (zero : A) (mask : mask3) :
  forall vals : list A,
    (List.length (where3 0 mask) <= List.length vals)%nat ->
    same_shape (fst (scatter3 zero mask vals)) mask = true
    /\ snd (scatter3 zero mask vals)
       = skipn (List.length (where3 0 mask)) vals
    /\ List.concat
         (map2 (fun p mp => List.concat (map2 gather1 p mp))
               (fst (scatter3 zero mask vals)) mask)
       = firstn (List.length (where3 0 mask)) vals
    /\ forall i j k, get3 false mask i j k = false ->
                     get3 zero (fst (scatter3 zero mask vals)) i j k = zero.
Proof.
  unfold same_shape, get3.
  induction mask as [|mplane mask IH]; intros vals Hlen.
  - cbn. repeat split. intros i j k _. destruct i, j, k; reflexivity.
  - rewrite where3_cons in *. cbn [scatter3].
    destruct (scatter2_spec A zero mplane vals ltac:(lia))
      as (H1 & H2 & H3 & H4).
    destruct (scatter2 zero mplane vals) as [plane rest]. cbn [fst snd] in *.
    subst rest.
    destruct (IH (skipn (List.length (where2 0 mplane)) vals)
                ltac:(rewrite length_skipn; lia)) as (G1 & G2 & G3 & G4).
    destruct (scatter3 zero mask _) as [out rest']. cbn [fst snd] in *.
    split; [ | split; [ | split ] ].
    + cbn [same_len2]. rewrite H1, G1. reflexivity.
    + rewrite G2, skipn_skipn. f_equal. lia.
    + cbn [map2 List.concat]. rewrite H3, G3. symmetry. apply firstn_plus.
    + intros [|i] j k Hk; cbn [nth] in *; [ apply H4, Hk | apply G4, Hk ].
Qed.

(** X6: [_unmask] succeeds exactly when it is given one value per active
    voxel, or a single value, which is then broadcast.  The volume it
    builds has the shape of the mask, holds zero at every inactive voxel,
    and reading it back through the mask returns the values that went in
    (the single value once per active voxel). *)
Theorem unmask_then_mask_returns_the_values (w : list Q) (mask : mask3) :
  (is_ok (_unmask w mask)
   = ((List.length w =? 1)%nat || (List.length w =? count mask)%nat))
  /\ forall v, _unmask w mask = Ok v ->
       same_shape v mask = true
       /\ gather v mask = Ok match w with
                             | [x] => repeat x (count mask)
                             | _ => w
                             end
       /\ forall i j k, active mask i j k = false ->
                        get3 0%Q v i j k = 0%Q.
Proof.
  unfold _unmask, scatter.
  destruct (assigned_spec Q (count mask) w) as [Hok Hspec]. split.
  - rewrite <- Hok. destruct (assigned (count mask) w); reflexivity.
  - intros v H.
    destruct (assigned (count mask) w) as [vs|e]; cbn [bind] in H;
      [ | discriminate ].
    injection H as <-. destruct (Hspec vs eq_refl) as [Hlen Hval].
    unfold count, where_ in Hlen.
    destruct (scatter3_spec Q 0%Q mask vs ltac:(lia)) as (H1 & _ & H3 & H4).
    split; [ exact H1 | split; [ | exact H4 ] ].
    unfold gather. rewrite H1, H3, <- Hlen, firstn_all, Hval. reflexivity.
Qed.

Lemma unmask_then_mask_returns_the_values_witness :
  _unmask [5]%Q [[[true; false]; [true; true]]]
  = Ok [[[5; 0]; [5; 5]]]%Q
  /\ gather [[[5; 0]; [5; 5]]]%Q [[[true; false]; [true; true]]]
     = Ok [5; 5; 5]%Q.
Proof.
  assert (H : _unmask [5]%Q [[[true; false]; [true; true]]]
              = Ok [[[5; 0]; [5; 5]]]%Q) by reflexivity.
  split; [ exact H | ].
  exact (proj1 (proj2 (proj2 (unmask_then_mask_returns_the_values [5]%Q
                                [[[true; false]; [true; true]]]) _ H))).
Defined.

End ScatterFacts.

(** ** Cropping keeps the number of active voxels *)

Module CropFacts.
Import Mask.
Unset Implicit Arguments.
Local Open Scope list_scope.

(** *** Weights summed along a list *)

Lemma total_zero (A : Type) (wt : A -> nat) (d : A) (l : list A) :
  (forall i, wt (nth i l d) = 0%nat) -> list_sum (map wt l) = 0%nat.
Proof.
  induction l as [|x l IH]; intros H; [ reflexivity | ].
  cbn [map list_sum]. rewrite (H 0%nat : wt x = 0%nat).
  apply IH. intros i. apply (H (S i)).
Qed.

Lemma total_slice (A : Type) (wt : A -> nat) (d : A) (lo hi : nat)
    (l : list A) :
  wt d = 0%nat ->
  (forall i, wt (nth i l d) <> 0%nat -> (lo <= i < hi)%nat) ->
  list_sum (map wt (slice lo hi l)) = list_sum (map wt l).
Proof.
  intros Hd Hin. unfold slice.
  rewrite <- (firstn_skipn lo l) at 2.
  rewrite <- (firstn_skipn (hi - lo) (skipn lo l)) at 2.
  rewrite !map_app, !list_sum_app.
  rewrite (total_zero A wt d (firstn lo l)).
  - rewrite (total_zero A wt d (skipn (hi - lo) (skipn lo l))); [ lia | ].
    intros i. rewrite !nth_skipn.
    destruct (Nat.eq_dec (wt (nth (lo + (hi - lo + i)) l d)) 0) as [E|E];
      [ exact E | ].
    apply Hin in E. lia.
  - intros i. rewrite nth_firstn.
    destruct (i <? lo)%nat eqn:E; [ | exact Hd ].
    apply Nat.ltb_lt in E.
    destruct (Nat.eq_dec (wt (nth i l d)) 0) as [E0|E0]; [ exact E0 | ].
    apply Hin in E0. lia.
Qed.

Lemma total_map_ext (A : Type) (f g : A -> nat) (l : list A) :
  (forall x, In x l -> f x = g x) ->
  list_sum (map f l) = list_sum (map g l).
Proof. intros H. f_equal. apply map_ext_in, H. Qed.

Lemma in_slice (A : Type) (d : A) (lo hi : nat) (l : list A) (x : A) :
  In x (slice lo hi l) -> exists i, (lo <= i < hi)%nat /\ nth i l d = x.
Proof.
  intros Hin. destruct (In_nth _ _ d Hin) as (i & Hi & Hx).
  rewrite MaskFacts.nth_slice in Hx.
  unfold slice in Hi. rewrite length_firstn in Hi.
  replace (i <? hi - lo)%nat with true in Hx
    by (symmetry; apply Nat.ltb_lt; lia).
  exists (lo + i)%nat. split; [ lia | exact Hx ].
Qed.

(** *** Counting active voxels level by level *)

Lemma count1_total (row : list bool) :
  count1 row = list_sum (map (fun b : bool => if b then 1 else 0)%nat row).
Proof.
  unfold count1. induction row as [|b row IH]; [ reflexivity | ].
  rewrite ScatterFacts.where1_cons, IH. reflexivity.
Qed.

Lemma count2_total (plane : list (list bool)) :
  count2 plane = list_sum (map count1 plane).
Proof.
  unfold count2. induction plane as [|row plane IH]; [ reflexivity | ].
  rewrite ScatterFacts.where2_cons, IH. reflexivity.
Qed.

Lemma count_total (m : mask3) : count m = list_sum (map count2 m).
Proof.
  unfold count, where_. induction m as [|plane m IH]; [ reflexivity | ].
  rewrite ScatterFacts.where3_cons, IH. reflexivity.
Qed.

Lemma count1_nonzero (row : list bool) :
  count1 row <> 0%nat -> exists k, nth k row false = true.
Proof.
  intros H. unfold count1 in H.
  destruct (where1 0 row) as [|k l] eqn:E; [ contradiction | ].
  exists k. assert (Hin : In k (where1 0 row)) by (rewrite E; left; reflexivity).
  apply MaskFacts.where1_spec in Hin. rewrite Nat.sub_0_r in Hin. apply Hin.
Qed.

Lemma count2_nonzero (plane : list (list bool)) :
  count2 plane <> 0%nat ->
  exists j k, nth k (nth j plane []) false = true.
Proof.
  intros H. unfold count2 in H.
  destruct (where2 0 plane) as [|[j k] l] eqn:E; [ contradiction | ].
  exists j, k.
  assert (Hin : In (j, k) (where2 0 plane)) by (rewrite E; left; reflexivity).
  apply MaskFacts.where2_spec in Hin. rewrite Nat.sub_0_r in Hin. apply Hin.
Qed.

Lemma count1_slice (lo hi : nat) (row : list bool) :
  (forall k, nth k row false = true -> (lo <= k < hi)%nat) ->
  count1 (slice lo hi row) = count1 row.
Proof.
  intros H. rewrite !count1_total.
  apply (total_slice bool _ false); [ reflexivity | ].
  intros i Hi. apply H. destruct (nth i row false); [ reflexivity | ].
  contradiction.
Qed.

Lemma count2_slice (j0 j1 k0 k1 : nat) (plane : list (list bool)) :
  (forall j k, nth k (nth j plane []) false = true ->
               (j0 <= j < j1)%nat /\ (k0 <= k < k1)%nat) ->
  count2 (map (slice k0 k1) (slice j0 j1 plane)) = count2 plane.
Proof.
  intros H. rewrite !count2_total, map_map.
  rewrite (total_map_ext _ (fun row => count1 (slice k0 k1 row)) count1).
  - apply (total_slice _ count1 []); [ reflexivity | ].
    intros j Hj. destruct (count1_nonzero _ Hj) as (k & Hk).
    apply (H j k Hk).
  - intros row Hin. destruct (in_slice _ [] _ _ _ _ Hin) as (j & _ & <-).
    apply count1_slice. intros k Hk. apply (H j k Hk).
Qed.

Lemma count_slice3 (i0 i1 j0 j1 k0 k1 : nat) (m : mask3) :
  (forall i j k, active m i j k = true ->
                 (i0 <= i < i1)%nat /\ (j0 <= j < j1)%nat
                 /\ (k0 <= k < k1)%nat) ->
  count (slice3 i0 i1 j0 j1 k0 k1 m) = count m.
Proof.
  intros H. unfold slice3. rewrite !count_total, map_map.
  rewrite (total_map_ext _
             (fun plane => count2 (map (slice k0 k1) (slice j0 j1 plane)))
             count2).
  - apply (total_slice _ count2 []); [ reflexivity | ].
    intros i Hi. destruct (count2_nonzero _ Hi) as (j & k & Hk).
    apply (H i j k Hk).
  - intros plane Hin. destruct (in_slice _ [] _ _ _ _ Hin) as (i & _ & <-).
    apply count2_slice. intros j k Hk. apply (H i j k Hk).
Qed.

(** *** The box holds every active voxel *)

Lemma crop_box_bounds (mask : mask3) (i0 i1 j0 j1 k0 k1 : nat) :
  crop_box mask = Ok (i0, i1, j0, j1, k0, k1) ->
  forall i j k, active mask i j k = true ->
                (i0 <= i <= i1)%nat /\ (j0 <= j <= j1)%nat
                /\ (k0 <= k <= k1)%nat.
Proof.
  unfold crop_box.
  destruct (idx_min (map axis0 (where_ mask))) as [i_lo|e] eqn:Hi0;
    cbn [bind]; [ | discriminate ].
  destruct (idx_max (map axis0 (where_ mask))) as [i_max|e] eqn:Hi1;
    cbn [bind]; [ | discriminate ].
  destruct (idx_min (map axis1 (where_ mask))) as [j_lo|e] eqn:Hj0;
    cbn [bind]; [ | discriminate ].
  destruct (idx_max (map axis1 (where_ mask))) as [j_max|e] eqn:Hj1;
    cbn [bind]; [ | discriminate ].
  destruct (idx_min (map axis2 (where_ mask))) as [k_lo|e] eqn:Hk0;
    cbn [bind]; [ | discriminate ].
  destruct (idx_max (map axis2 (where_ mask))) as [k_max|e] eqn:Hk1;
    cbn [bind]; [ | discriminate ].
  intros [= <- <- <- <- <- <-] i j k Hact.
  assert (Hin : In (i, j, k) (where_ mask))
    by (apply MaskFacts.where_spec; exact Hact).
  pose proof (@MaskFacts.idx_min_le _ _ _ Hi0 (in_map axis0 _ _ Hin)) as Ha.
  pose proof (@MaskFacts.idx_max_ge _ _ _ Hi1 (in_map axis0 _ _ Hin)) as Hb.
  pose proof (@MaskFacts.idx_min_le _ _ _ Hj0 (in_map axis1 _ _ Hin)) as Hc.
  pose proof (@MaskFacts.idx_max_ge _ _ _ Hj1 (in_map axis1 _ _ Hin)) as Hd.
  pose proof (@MaskFacts.idx_min_le _ _ _ Hk0 (in_map axis2 _ _ Hin)) as He.
  pose proof (@MaskFacts.idx_max_ge _ _ _ Hk1 (in_map axis2 _ _ Hin)) as Hf.
  cbn [axis0 axis1 axis2 fst snd] in Ha, Hb, Hc, Hd, He, Hf. lia.
Qed.

Lemma crop_mask_count (mask cropped : mask3) :
  _crop_mask mask = Ok cropped -> count cropped = count mask.
Proof.
  unfold _crop_mask.
  destruct (crop_box mask) as [[[[[[i0 i1] j0] j1] k0] k1]|e] eqn:Hbox;
    cbn [bind]; [ | discriminate ].
  intros [= <-]. apply count_slice3. intros i j k Hact.
  pose proof (crop_box_bounds mask _ _ _ _ _ _ Hbox i j k Hact). lia.
Qed.

(** X7: [_crop_mask] raises [ValueError] on a mask without active voxel and
    returns on every other mask; the cropped mask has exactly as many active
    voxels as the mask it was cut from. *)
Theorem crop_mask_keeps_the_voxel_count (mask : mask3) :
  (count mask = 0%nat -> is_value_error (_crop_mask mask) = true)
  /\ (count mask <> 0%nat ->
      exists cropped, _crop_mask mask = Ok cropped
                      /\ count cropped = count mask).
Proof.
  split.
  - unfold count, _crop_mask, crop_box. intros H.
    destruct (where_ mask); [ reflexivity | discriminate ].
  - intros Hne.
    assert (Hbox : exists box, crop_box mask = Ok box).
    { unfold crop_box, count in *.
      destruct (where_ mask) as [|p l]; [ contradiction | ].
      cbn. eexists. reflexivity. }
    destruct Hbox as ([[[[[i0 i1] j0] j1] k0] k1] & Hbox).
    unfold _crop_mask. rewrite Hbox. cbn [bind]. eexists.
    split; [ reflexivity | ].
    apply count_slice3. intros i j k Hact.
    pose proof (crop_box_bounds mask _ _ _ _ _ _ Hbox i j k Hact). lia.
Qed.

End CropFacts.

(** ** The length of the weights [path_scores] returns *)

Module PathLengthFacts.
Import Float Mask SpaceNet.
Unset Implicit Arguments.
Local Open Scope list_scope.
Local Open Scope Q_scope.

Lemma same_len2_length (A B : Type) (same : A -> B -> bool) (a : list A) :
  forall b : list B, same_len2 same a b = true ->
                     List.length a = List.length b.
Proof.
  induction a as [|x a IH]; intros [|y b] H; cbn in *; try discriminate;
    try reflexivity.
  apply andb_prop in H. f_equal. apply IH, H.
Qed.

Lemma length_gather1 (A : Type) (row : list A) :
  forall mrow : list bool,
    List.length row = List.length mrow ->
    List.length (gather1 row mrow) = count1 mrow.
Proof.
  unfold gather1, count1.
  induction row as [|x row IH]; intros [|b mrow] H; cbn in H; try lia;
    [ reflexivity | ].
  rewrite ScatterFacts.where1_cons. cbn [map2 List.concat].
  rewrite length_app, IH by lia. destruct b; reflexivity.
Qed.

Lemma length_gather2 (A : Type) (p : list (list A)) :
  forall mp : list (list bool),
    same_len2 (same_len2 (fun _ _ => true)) p mp = true ->
    List.length (List.concat (map2 gather1 p mp)) = count2 mp.
Proof.
  unfold count2.
  induction p as [|row p IH]; intros [|mrow mp] H; cbn in H;
    try discriminate; [ reflexivity | ].
  apply andb_prop in H. destruct H as [Hr Hp].
  rewrite ScatterFacts.where2_cons. cbn [map2 List.concat].
  rewrite length_app, IH by exact Hp.
  rewrite length_gather1 by (apply (same_len2_length _ _ _ _ _ Hr)).
  reflexivity.
Qed.

Lemma length_gather (A : Type) (a : vol A) (mask : mask3) (l : list A) :
  gather a mask = Ok l -> List.length l = count mask.
Proof.
  unfold gather. destruct (same_shape a mask) eqn:Hs; [ | discriminate ].
  intros [= <-]. unfold same_shape in Hs. unfold count, where_.
  revert mask Hs.
  induction a as [|p a IH]; intros [|mp mask] H; cbn in H;
    try discriminate; [ reflexivity | ].
  apply andb_prop in H. destruct H as [Hp Ha].
  rewrite ScatterFacts.where3_cons. cbn [map2 List.concat].
  rewrite length_app, IH by exact Ha.
  rewrite length_gather2 by exact Hp. reflexivity.
Qed.

Lemma length_debias (self : EarlyStoppingCallback) (w w' : list Q) :
  _debias self w = Ok w' -> List.length w' = List.length w.
Proof.
  unfold _debias.
  destruct (Np.matvec (X_test self) w) as [p|e]; cbn [bind]; [ | discriminate ].
  destruct (Np.dot p p) as [sc|e]; cbn [bind]; [ | discriminate ].
  destruct (negb (Qle_bool sc 0)).
  - destruct (Np.dot p (y_test self)) as [num|e]; cbn [bind];
      [ | discriminate ].
    intros [= <-]. apply length_map.
  - intros [= <-]. reflexivity.
Qed.

Lemma screening_support_length
    (gaussian_filter : vol Q -> Q -> vol Q)
    (select_percentile : bool -> Q -> list (list Q) -> list Q -> list bool)
    (binary_erosion binary_dilation : mask3 -> mask3)
    (X : list (list Q)) (y : list Q) (mask : mask3) (is_classif : bool)
    (screening_percentile smooth : Q)
    (X' : list (list Q)) (mask_ : mask3) (support : list bool) :
  _univariate_feature_screening gaussian_filter select_percentile
    binary_erosion binary_dilation X y mask is_classif screening_percentile
    smooth = Ok (X', mask_, support) ->
  List.length support = count mask.
Proof.
  unfold _univariate_feature_screening. intros H.
  destruct (smooth_rows gaussian_filter smooth X mask) as [sX|e];
    cbn [bind] in H; [ | discriminate ].
  destruct (scatter false mask _) as [m0|e]; cbn [bind] in H; [ | discriminate ].
  destruct (clear_outside (binary_dilation (binary_erosion m0)) mask)
    as [m1|e]; cbn [bind] in H; [ | discriminate ].
  destruct (gather m1 mask) as [sup|e] eqn:Hg; cbn [bind] in H;
    [ | discriminate ].
  destruct (select_columns X sup) as [Xs|e]; cbn [bind] in H;
    [ | discriminate ].
  injection H as <- <- <-. exact (length_gather _ _ _ _ Hg).
Qed.

(** X8: when the mask has one active voxel per column of [X] and the solver
    returns one weight per active voxel of the mask it is handed (one more
    for classification), every call of [path_scores] that returns gives
    back [n_features + 1] weights, whether or not screening, debiasing or
    the scoring loop took place. *)
Theorem path_scores_returns_full_length_weights
    (spearmanr pearsonr : list Q -> list Q -> float)
    (gaussian_filter : vol Q -> Q -> vol Q)
    (select_percentile : bool -> Q -> list (list Q) -> list Q -> list bool)
    (binary_erosion binary_dilation : mask3 -> mask3)
    (center_data :
       list (list Q) -> list Q -> list (list Q) * list Q * list Q * Q)
    (State : Type)
    (solver : list (list Q) -> list Q -> Q -> Q -> mask3 -> option State ->
              option EarlyStoppingCallback -> list Q * State)
    (alpha_grid :
       list (list Q) -> list Q -> Q -> nat -> Q -> bool -> result (list Q))
    (X : list (list Q)) (y : list Q) (mask : mask3)
    (alphas : option (list Q)) (l1_ratio : Q) (train test : list nat)
    (n_alphas : nat) (eps : Q) (is_classif : bool) (init : option State)
    (key : nat) (debias : bool) (Xmean : option (list Q)) (ymean : Q)
    (screening_percentile : Q) (verbose : nat)
    (scores : list float) (best_w : list Q) (best_alpha : Q) (key' : nat) :
  count mask = n_columns X ->
  (forall X_train y_train alpha l1 m init cb,
      List.length (fst (solver X_train y_train alpha l1 m init cb))
      = (count m + (if is_classif then 1 else 0))%nat) ->
  path_scores spearmanr pearsonr gaussian_filter select_percentile
    binary_erosion binary_dilation center_data solver alpha_grid
    X y mask alphas l1_ratio train test n_alphas eps is_classif init key
    debias Xmean ymean screening_percentile verbose
  = Ok (scores, best_w, best_alpha, key') ->
  List.length best_w = S (n_columns X).
Proof.
  intros Hcount Hsolver. unfold path_scores. intros H.
  assert (Hfinish : forall (w1 out : list Q),
    List.length w1 = (n_columns X + (if is_classif then 1 else 0))%nat ->
    (if (List.length w1 =? n_columns X)%nat
     then d <- Np.dot match Xmean with
                      | Some m => m
                      | None => repeat 0 (n_columns X)
                      end w1 ;;
          Ok (w1 ++ [ymean - d])
     else Ok w1) = Ok out ->
    List.length out = S (n_columns X)).
  { intros w1 out Hlen Hout. destruct is_classif.
    - replace (List.length w1 =? n_columns X)%nat with false in Hout
        by (symmetry; apply Nat.eqb_neq; lia).
      injection Hout as <-. lia.
    - replace (List.length w1 =? n_columns X)%nat with true in Hout
        by (symmetry; apply Nat.eqb_eq; lia).
      destruct (Np.dot _ w1) as [d|e]; cbn [bind] in Hout; [ | discriminate ].
      injection Hout as <-. rewrite length_app. cbn. lia. }
  destruct ((100 <? n_columns X)%nat
            && negb (Qle_bool 100 screening_percentile)) eqn:Hdo.
  - destruct (_univariate_feature_screening _ _ _ _ X y mask is_classif
                screening_percentile 2) as [[[X' mask'] support]|e] eqn:Hscr;
      cbn [bind] in H; [ | discriminate ].
    pose proof (screening_support_length _ _ _ _ _ _ _ _ _ _ _ _ _ Hscr)
      as Hsup.
    destruct (_crop_mask mask') as [mask''|e]; cbn [bind] in H;
      [ | discriminate ].
    destruct (Np.take X' train) as [X_tr|e]; cbn [bind] in H; [ | discriminate ].
    destruct (Np.take y train) as [y_tr|e]; cbn [bind] in H; [ | discriminate ].
    destruct (Np.take X' test) as [X_te|e]; cbn [bind] in H; [ | discriminate ].
    destruct (Np.take y test) as [y_te|e]; cbn [bind] in H; [ | discriminate ].
    destruct (center_data X_tr y_tr) as [[[X_train y_train] X_mean] y_mean].
    destruct (match alphas with Some l => Ok l | None => _ end) as [grid|e];
      cbn [bind] in H; [ | discriminate ].
    destruct (sorted_descending grid) as [|a0 rest]; cbn [bind] in H;
      [ discriminate | ].
    destruct (if (0 <? List.length test)%nat then _ else _) as [st|e];
      cbn [bind] in H; [ | discriminate ].
    destruct (solver X_train y_train (l_best_alpha st) l1_ratio mask''
                (l_best_init st) None) as [w0 st_] eqn:Hsolve.
    destruct (if debias then _ else _) as [w0'|e]; cbn [bind] in H;
      [ | discriminate ].
    destruct (unscreen is_classif support w0') as [w1|e] eqn:Hun;
      cbn [bind] in H; [ | discriminate ].
    destruct (if (List.length w1 =? n_columns X)%nat then _ else _)
      as [out|e] eqn:Hout; cbn [bind] in H; [ | discriminate ].
    injection H as <- <- <- <-.
    apply (Hfinish w1 out); [ | exact Hout ].
    destruct (ScatterFacts.unscreen_length is_classif support w0' w1 Hun).
    lia.
  - cbn [bind] in H.
    destruct (_crop_mask mask) as [mask''|e] eqn:Hcrop; cbn [bind] in H;
      [ | discriminate ].
    destruct (Np.take X train) as [X_tr|e]; cbn [bind] in H; [ | discriminate ].
    destruct (Np.take y train) as [y_tr|e]; cbn [bind] in H; [ | discriminate ].
    destruct (Np.take X test) as [X_te|e]; cbn [bind] in H; [ | discriminate ].
    destruct (Np.take y test) as [y_te|e]; cbn [bind] in H; [ | discriminate ].
    destruct (center_data X_tr y_tr) as [[[X_train y_train] X_mean] y_mean].
    destruct (match alphas with Some l => Ok l | None => _ end) as [grid|e];
      cbn [bind] in H; [ | discriminate ].
    destruct (sorted_descending grid) as [|a0 rest]; cbn [bind] in H;
      [ discriminate | ].
    destruct (if (0 <? List.length test)%nat then _ else _) as [st|e];
      cbn [bind] in H; [ | discriminate ].
    pose proof (Hsolver X_train y_train (l_best_alpha st) l1_ratio mask''
                  (l_best_init st) None) as Hlen0.
    destruct (solver X_train y_train (l_best_alpha st) l1_ratio mask''
                (l_best_init st) None) as [w0 st_].
    cbn [fst] in Hlen0.
    destruct (if debias then _ else _) as [w0'|e] eqn:Hdeb; cbn [bind] in H;
      [ | discriminate ].
    assert (Hlen1 : List.length w0' = List.length w0).
    { destruct debias; [ | injection Hdeb as <-; reflexivity ].
      destruct (l_early_stopper st) as [es|]; [ | discriminate ].
      exact (length_debias es w0 w0' Hdeb). }
    destruct (if (List.length w0' =? n_columns X)%nat then _ else _)
      as [out|e] eqn:Hout; cbn [bind] in H; [ | discriminate ].
    injection H as <- <- <- <-.
    apply (Hfinish w0' out); [ | exact Hout ].
    rewrite Hlen1, Hlen0, (CropFacts.crop_mask_count _ _ Hcrop), Hcount.
    reflexivity.
Qed.

Lemma path_scores_returns_full_length_weights_witness :
  let X := [[1; 0]; [2; 0]; [3; 1]] in
  let solver := fun (_ : list (list Q)) (_ : list Q) (_ _ : Q) (m : mask3)
                    (_ : option unit) (_ : option EarlyStoppingCallback) =>
                  (repeat 1 (count m), tt) in
  exists scores best_w best_alpha key,
    path_scores corr_two_points corr_two_points (fun v _ => v)
      (fun _ _ _ _ => [true; true]) (fun m => m) (fun m => m)
      (fun X y => (X, y, [0; 0], 0)) solver
      (fun _ _ _ _ _ _ => Ok [1])
      X [1; 2; 3] [[[true; true]]] (Some [1 # 2; 2]) (1 # 2) [0%nat]
      [1%nat; 2%nat] 10 (1 # 1000) false None 0 false None 0 20 0
    = Ok (scores, best_w, best_alpha, key)
    /\ List.length best_w = S (n_columns X).
Proof.
  intros X solver.
  eexists _, _, _, _.
  assert (Hrun :
    path_scores corr_two_points corr_two_points (fun v _ => v)
      (fun _ _ _ _ => [true; true]) (fun m => m) (fun m => m)
      (fun X y => (X, y, [0; 0], 0)) solver
      (fun _ _ _ _ _ _ => Ok [1])
      X [1; 2; 3] [[[true; true]]] (Some [1 # 2; 2]) (1 # 2) [0%nat]
      [1%nat; 2%nat] 10 (1 # 1000) false None 0 false None 0 20 0
    = Ok (_, _, _, _)) by (vm_compute; reflexivity).
  split; [ exact Hrun | ].
  refine (path_scores_returns_full_length_weights _ _ _ _ _ _ _ _ _ _
            _ _ _ _ _ _ _ _ _ _ _ _ _ _ _ _ _ _ _ _ _ _ _ Hrun).
  - reflexivity.
  - intros. unfold solver. cbn [fst]. rewrite repeat_length. lia.
Defined.

End PathLengthFacts.

(** ** Shapes of [gradient_id] and [div_id]; the wrappers [gradient], [div] *)

Module OperatorFacts.
Import Spatial SpatialFacts.
Unset Implicit Arguments.
Local Open Scope list_scope.
Local Open Scope Q_scope.

Lemma shaped_forward_difference (d : nat) :
  forall (n : nat) (s : list nat) (u : arr n),
    (d < n)%nat -> shaped n s u -> shaped n s (forward_difference n d u).
Proof.
  induction d as [|d IH]; intros [|n] s; try (intros; lia);
    change (arr (S n)) with (list (arr n)); intros u Hd Hu;
    destruct (shaped_cons _ _ _ Hu) as (m & s' & ->);
    pose proof (shaped_length _ _ _ _ Hu) as Hlu.
  - apply shaped_of_nth; [ rewrite length_forward_difference_0; exact Hlu | ].
    intros i Hi. rewrite (forward_difference_0_nth n m) by assumption.
    destruct (i <? m - 1)%nat eqn:E.
    + apply Nat.ltb_lt in E.
      apply shaped_sub; apply shaped_nth with (m := m); try assumption; lia.
    + apply shaped_zeros_like, shaped_nth with (m := m); assumption.
  - rewrite forward_difference_S.
    apply shaped_of_nth; [ rewrite length_map; exact Hlu | ].
    intros i Hi. rewrite (nth_map_in _ _ _ (blank n)) by lia.
    apply IH; [ lia | ]. apply shaped_nth with (m := m); assumption.
Qed.

Lemma last_channel (n : nat) (v : list (arr n)) (grad_last : arr n)
    (rest : list (arr n)) :
  List.length v = S n -> rev v = grad_last :: rest ->
  grad_last = nth n v (blank n).
Proof.
  intros Hlv Hrev.
  assert (Hv' : v = rev rest ++ [grad_last])
    by (rewrite <- (rev_involutive v), Hrev; reflexivity).
  assert (Hlr : List.length (rev rest) = n).
  { apply (f_equal (@List.length _)) in Hv'.
    rewrite length_app in Hv'. cbn in Hv'. lia. }
  rewrite Hv', app_nth2 by lia. rewrite Hlr, Nat.sub_diag. reflexivity.
Qed.

(** Both operators on arrays of matching shapes: they return, the results
    have the shapes of the arguments of the other operator, and the two
    inner products are opposite. *)
Lemma operators_spec (n : nat) (s : list nat) (u : arr n)
    (v : list (arr n)) (r : Q) :
  0 <= r -> r <= 1 ->
  shaped n s u -> shaped (S n) (S n :: s) v ->
  exists (gu : list (arr n)) (dv : arr n),
    gradient_id n u r = Ok gu
    /\ div_id n v r = Ok dv
    /\ gu = map (scale n (1 - r))
              (map (fun d => forward_difference n d u) (seq 0 n))
            ++ [scale n r u]
    /\ shaped (S n) (S n :: s) gu
    /\ shaped n s dv
    /\ inner (S n) gu v == - inner n u dv.
Proof.
  intros H0 H1 Hu Hv.
  pose proof (shaped_length _ _ _ _ Hv) as Hlv.
  assert (Hch : forall d, (d < S n)%nat -> shaped n s (nth d v (blank n)))
    by (intros d Hd; apply shaped_nth with (m := S n); assumption).
  rewrite div_id_unfold. unfold gradient_id.
  rewrite (check_l1_ratio_ok r H0 H1). cbn [bind].
  destruct (rev v) as [|grad_last rest] eqn:Hrev.
  { apply (f_equal (@List.length _)) in Hrev. rewrite length_rev in Hrev.
    cbn in Hrev. lia. }
  pose proof (last_channel n v grad_last rest Hlv Hrev) as ->.
  rewrite Hlv. cbn [Nat.sub]. rewrite Nat.sub_0_r.
  assert (Hhd : shaped n s (hd (blank n) v)).
  { replace (hd (blank n) v) with (nth 0 v (blank n))
      by (destruct v; reflexivity).
    apply Hch. lia. }
  destruct (divergence_loop_spec n s u (zeros_like n (hd (blank n) v)) v n)
    as [Hls Hli]; trivial;
    [ apply shaped_zeros_like; exact Hhd | intros d Hd; apply Hch; lia | ].
  eexists. eexists.
  split; [ reflexivity | split; [ reflexivity | split; [ reflexivity | ] ] ].
  split; [ | split ].
  - apply shaped_of_nth.
    + rewrite length_app, !length_map, length_seq. cbn. lia.
    + intros d Hd. destruct (Nat.eq_dec d n) as [->|Hne].
      * rewrite identity_channel. apply shaped_scale, Hu.
      * rewrite gradient_channel by lia.
        apply shaped_scale, shaped_forward_difference; [ lia | exact Hu ].
  - apply shaped_sub; apply shaped_scale; [ exact Hls | apply Hch; lia ].
  - rewrite (inner_sub_r n s); trivial;
      [ | apply shaped_scale; exact Hls | apply shaped_scale, Hch; lia ].
    rewrite !inner_scale_r, Hli, inner_zeros_r.
    rewrite (inner_sum n (S n));
      [ | rewrite length_app, !length_map, length_seq; cbn; lia | exact Hlv ].
    cbn [sum_upto]. rewrite identity_channel, inner_scale_l.
    rewrite (sum_upto_ext n _
               (fun d => (1 - r) * inner n (forward_difference n d u)
                                     (nth d v (blank n)))).
    + rewrite sum_upto_scale. ring.
    + intros d Hd. rewrite gradient_channel by exact Hd.
      apply inner_scale_l.
Qed.

(** X9: on an image of shape [s] with [N] axes, [gradient_id] returns an
    array of shape [(N + 1, *s)] (one channel per axis and the identity
    channel), and on an array of that shape [div_id] returns an array of
    shape [s]. *)
Theorem gradient_id_and_div_id_shapes (n : nat) (s : list nat) (u : arr n)
    (v : arr (S n)) (r : Q) :
  0 <= r -> r <= 1 ->
  shaped n s u -> shaped (S n) (S n :: s) v ->
  exists (gu : arr (S n)) (dv : arr n),
    gradient_id n u r = Ok gu /\ div_id n v r = Ok dv
    /\ shaped (S n) (S n :: s) gu /\ shaped n s dv.
Proof.
  intros H0 H1 Hu Hv.
  destruct (operators_spec n s u v r H0 H1 Hu Hv)
    as (gu & dv & Hg & Hd & _ & Hsg & Hsd & _).
  exists gu, dv.
  split; [ exact Hg | split; [ exact Hd | split; [ exact Hsg | exact Hsd ] ] ].
Qed.

Lemma gradient_id_and_div_id_shapes_witness :
  exists (gu : arr 3) (dv : arr 2),
    gradient_id 2 [[1; 2; 4]; [8; 16; 32]] (1 # 4) = Ok gu
    /\ div_id 2 [[[1; 0; 2]; [0; 3; 0]]; [[0; 1; 0]; [5; 0; 1]];
                 [[2; 2; 2]; [1; 1; 1]]] (1 # 4) = Ok dv
    /\ shaped 3 [3; 2; 3]%nat gu /\ shaped 2 [2; 3]%nat dv.
Proof.
  apply (gradient_id_and_div_id_shapes 2 [2; 3]%nat).
  - unfold Qle; simpl; lia.
  - unfold Qle; simpl; lia.
  - cbn. repeat constructor.
  - cbn. repeat constructor.
Defined.

Lemma but_last_snoc (A : Type) (l : list A) (x : A) :
  Np.but_last (l ++ [x]) = l.
Proof.
  unfold Np.but_last. rewrite length_app. cbn [List.length].
  replace (List.length l + 1 - 1)%nat with (List.length l + 0)%nat by lia.
  rewrite firstn_app_2. cbn. apply app_nil_r.
Qed.

(** X10: the wrappers [gradient] (the difference channels alone) and [div]
    (the divergence of [v] completed by a zero identity channel) return on
    an image with at least one axis and on [N] channels of its shape, and
    [<gradient(u), v> = - <u, div(v)>]. *)
Theorem div_is_negative_adjoint_of_gradient (n : nat) (s : list nat)
    (u : arr n) (v : arr (S n)) :
  (0 < n)%nat ->
  shaped n s u -> shaped (S n) (n :: s) v ->
  exists (gu : arr (S n)) (dv : arr n),
    gradient n u = Ok gu /\ div n v = Ok dv
    /\ shaped (S n) (n :: s) gu
    /\ inner (S n) gu v == - inner n u dv.
Proof.
  revert v. change (arr (S n)) with (list (arr n)). intros v Hn Hu Hv.
  pose proof (shaped_length _ _ _ _ Hv) as Hlv.
  assert (Hch : forall d, (d < n)%nat -> shaped n s (nth d v (blank n)))
    by (intros d Hd; apply shaped_nth with (m := n); assumption).
  destruct v as [|v0 v'] eqn:Ev; [ cbn in Hlv; lia | ]. rewrite <- Ev in *.
  assert (Hv0 : shaped n s v0).
  { specialize (Hch 0%nat Hn). rewrite Ev in Hch. exact Hch. }
  assert (Hvz : shaped (S n) (S n :: s) (v ++ [zeros_like n v0])).
  { apply shaped_of_nth; [ rewrite length_app; cbn; lia | ].
    intros d Hd. destruct (Nat.eq_dec d n) as [->|Hne].
    - rewrite app_nth2 by lia. rewrite Hlv, Nat.sub_diag.
      apply shaped_zeros_like, Hv0.
    - rewrite app_nth1 by lia. apply Hch. lia. }
  assert (H0 : 0 <= 0) by (unfold Qle; simpl; lia).
  assert (H1 : 0 <= 1) by (unfold Qle; simpl; lia).
  destruct (operators_spec n s u _ 0 H0 H1 Hu Hvz)
    as (gu & dv & Hg & Hd & Egu & Hsg & Hsd & Hadj).
  unfold gradient, div. rewrite Hg. cbn [bind].
  replace (match v with
           | [] => Raise (IndexError "index 0 is out of bounds for axis 0 with size 0")
           | v1 :: _ => div_id n (v ++ [zeros_like n v1]) 0
           end) with (Ok dv) by (rewrite Ev in *; symmetry; exact Hd).
  set (ch := map (scale n (1 - 0))
               (map (fun d => forward_difference n d u) (seq 0 n))) in *.
  assert (Hlch : List.length ch = n)
    by (unfold ch; rewrite !length_map, length_seq; reflexivity).
  exists ch, dv.
  split; [ rewrite Egu, but_last_snoc; reflexivity | ].
  split; [ reflexivity | split ].
  - apply shaped_of_nth; [ exact Hlch | ].
    intros d Hd'.
    replace (nth d ch (blank n)) with (nth d (ch ++ [scale n 0 u]) (blank n))
      by (rewrite app_nth1 by lia; reflexivity).
    rewrite <- Egu. apply shaped_nth with (m := S n); [ exact Hsg | lia ].
  - rewrite <- Hadj, Egu.
    rewrite (inner_sum n n ch v Hlch Hlv).
    rewrite (inner_sum n (S n));
      [ | rewrite length_app; cbn; lia | rewrite length_app; cbn; lia ].
    cbn [sum_upto].
    rewrite !app_nth2 by lia. rewrite Hlch, Hlv, Nat.sub_diag.
    cbn [nth]. rewrite inner_zeros_r.
    rewrite (sum_upto_ext n
               (fun i => inner n (nth i (ch ++ [scale n 0 u]) (blank n))
                           (nth i (v ++ [zeros_like n v0]) (blank n)))
               (fun i => inner n (nth i ch (blank n)) (nth i v (blank n)))).
    + ring.
    + intros i Hi. rewrite !app_nth1 by lia. reflexivity.
Qed.

Lemma div_is_negative_adjoint_of_gradient_witness :
  exists (gu : arr 3) (dv : arr 2),
    gradient 2 [[1; 2; 4]; [8; 16; 32]] = Ok gu
    /\ div 2 [[[1; 0; 2]; [0; 3; 0]]; [[0; 1; 0]; [5; 0; 1]]] = Ok dv
    /\ shaped 3 [2; 2; 3]%nat gu
    /\ inner 3 gu [[[1; 0; 2]; [0; 3; 0]]; [[0; 1; 0]; [5; 0; 1]]]
       == - inner 2 [[1; 2; 4]; [8; 16; 32]] dv.
Proof.
  apply (div_is_negative_adjoint_of_gradient 2 [2; 3]%nat).
  - lia.
  - cbn. repeat constructor.
  - cbn. repeat constructor.
Defined.

End OperatorFacts.

(** ** [squared_loss]: the gradient it returns *)

Module SquaredLossFacts.
Import SquaredLoss.
Unset Implicit Arguments.
Local Open Scope list_scope.
Local Open Scope Q_scope.

Lemma length_map2_same (A B C : Type) (f : A -> B -> C) (a : list A) :
  forall b : list B, List.length a = List.length b ->
                     List.length (map2 f a b) = List.length a.
Proof.
  induction a as [|x a IH]; intros [|y b] H; cbn in *; try lia.
  rewrite IH; lia.
Qed.

Lemma length_XT_dot_aligned (p : nat) (X : list (list Q)) :
  forall v, Forall (fun row => List.length row = p) X ->
            List.length (XT_dot_aligned p X v) = p.
Proof.
  induction X as [|row X IH]; intros v Hall; cbn [XT_dot_aligned].
  - apply repeat_length.
  - destruct v as [|c v]; [ apply repeat_length | ].
    inversion Hall as [|? ? Hrow Hall']; subst.
    unfold AlphaGrid.vadd, AlphaGrid.vscale.
    rewrite length_map2_same; rewrite length_map; [ reflexivity | ].
    rewrite IH by exact Hall'. reflexivity.
Qed.

Lemma dot_aligned_add_r (a : list Q) :
  forall w h, List.length w = List.length h ->
              Np.dot_aligned a (map2 Qplus w h)
              == Np.dot_aligned a w + Np.dot_aligned a h.
Proof.
  induction a as [|x a IH]; intros [|u w] [|v h] H; cbn in H;
    cbn [map2 Np.dot_aligned]; try lia; try ring.
  rewrite IH by lia. ring.
Qed.

Lemma dot_aligned_vadd_l (a : list Q) :
  forall b h, List.length a = List.length b ->
              Np.dot_aligned (AlphaGrid.vadd a b) h
              == Np.dot_aligned a h + Np.dot_aligned b h.
Proof.
  unfold AlphaGrid.vadd.
  induction a as [|x a IH]; intros [|u b] [|v h] H; cbn in H;
    cbn [map2 Np.dot_aligned]; try lia; try ring.
  rewrite IH by lia. ring.
Qed.

Lemma dot_aligned_vscale_l (c : Q) (a : list Q) :
  forall h, Np.dot_aligned (AlphaGrid.vscale c a) h
            == c * Np.dot_aligned a h.
Proof.
  unfold AlphaGrid.vscale.
  induction a as [|x a IH]; intros [|v h]; cbn [map Np.dot_aligned];
    try ring.
  rewrite IH. ring.
Qed.

Lemma dot_aligned_zeros_l (p : nat) :
  forall h, Np.dot_aligned (repeat 0 p) h == 0.
Proof.
  induction p as [|p IH]; intros [|v h]; cbn [repeat Np.dot_aligned];
    try ring.
  rewrite IH. ring.
Qed.

(** [<X.T r, h> = <r, X h>] *)
Lemma XT_dot_aligned_adjoint (p : nat) (h : list Q) (X : list (list Q)) :
  forall r, Forall (fun row => List.length row = p) X ->
            List.length X = List.length r ->
            Np.dot_aligned (XT_dot_aligned p X r) h
            == Np.dot_aligned r (map (fun row => Np.dot_aligned row h) X).
Proof.
  induction X as [|row X IH]; intros [|c r] Hall Hlen; cbn in Hlen;
    try lia; cbn [XT_dot_aligned map Np.dot_aligned].
  - apply dot_aligned_zeros_l.
  - inversion Hall as [|? ? Hrow Hall']; subst.
    rewrite dot_aligned_vadd_l, dot_aligned_vscale_l, IH; trivial;
      [ reflexivity | lia | ].
    unfold AlphaGrid.vscale. rewrite length_map.
    rewrite length_XT_dot_aligned by exact Hall'. reflexivity.
Qed.

(** The squared residual after a step [h], expanded around [w]. *)
Lemma residual_expansion (w h : list Q) (X : list (list Q)) :
  List.length h = List.length w ->
  forall y, List.length X = List.length y ->
    let r := map2 Qminus (map (fun row => Np.dot_aligned row w) X) y in
    let r' := map2 Qminus
                (map (fun row => Np.dot_aligned row (map2 Qplus w h)) X) y in
    let t := map (fun row => Np.dot_aligned row h) X in
    Np.dot_aligned r' r'
    == Np.dot_aligned r r + 2 * Np.dot_aligned r t + Np.dot_aligned t t.
Proof.
  intros Hh. induction X as [|row X IH]; intros [|yi y] Hlen; cbn in Hlen;
    try lia; cbn [map map2 Np.dot_aligned]; [ ring | ].
  cbn zeta in IH. rewrite IH by lia.
  rewrite dot_aligned_add_r by lia. ring.
Qed.

(** X11: on a design matrix with one row per target and one column per
    weight, [squared_loss] returns in every mode, the modes agree, and the
    gradient is the gradient of the energy: a step [h] changes the energy
    by [<grad, h> + .5 * ||X h||^2], so the energy lies on or above its
    tangent at [w]. *)
Theorem squared_loss_gradient_is_exact (X : list (list Q))
    (y w h : list Q) :
  List.length X = List.length y ->
  Forall (fun row => List.length row = List.length w) X ->
  List.length h = List.length w ->
  exists (energy energy' : Q) (grad Xh : list Q),
    squared_loss X y w true true = Ok (Both energy grad)
    /\ squared_loss X y w true false = Ok (Energy energy)
    /\ squared_loss_grad X y w = Ok (Gradient grad)
    /\ Np.matvec X h = Ok Xh
    /\ squared_loss X y (map2 Qplus w h) true false = Ok (Energy energy')
    /\ energy' == energy + Np.dot_aligned grad h
                  + (1 # 2) * Np.dot_aligned Xh Xh
    /\ energy + Np.dot_aligned grad h <= energy'.
Proof.
  intros Hlen Hall Hh.
  assert (Hwh : List.length (map2 Qplus w h) = List.length w)
    by (apply length_map2_same; lia).
  assert (Hall' : Forall (fun row => List.length row
                                     = List.length (map2 Qplus w h)) X)
    by (rewrite Hwh; exact Hall).
  assert (Hallh : Forall (fun row => List.length row = List.length h) X)
    by (rewrite Hh; exact Hall).
  assert (Hbc : forall f : list Q -> Q,
            broadcast Qminus (map f X) y = Ok (map2 Qminus (map f X) y)).
  { intros f. unfold broadcast. rewrite length_map, Hlen, Nat.eqb_refl.
    reflexivity. }
  assert (Hlr : forall f : list Q -> Q,
            List.length X = List.length (map2 Qminus (map f X) y)).
  { intros f. rewrite length_map2_same; rewrite length_map; lia. }
  unfold squared_loss_grad, squared_loss.
  rewrite (DriverFacts.matvec_of_lengths X w Hall),
    (DriverFacts.matvec_of_lengths X _ Hall'),
    (DriverFacts.matvec_of_lengths X h Hallh).
  cbn [bind negb orb andb]. rewrite !Hbc. cbn [bind].
  unfold XT_dot. rewrite <- Hlr, Nat.eqb_refl. cbn [bind].
  eexists _, _, _, _.
  do 5 (split; [ reflexivity | ]).
  pose proof (residual_expansion w h X Hh y Hlen) as Hexp. cbn zeta in Hexp.
  pose proof (XT_dot_aligned_adjoint (List.length w) h X
                (map2 Qminus (map (fun row => Np.dot_aligned row w) X) y)
                Hall (Hlr _)) as Hadj.
  pose proof (DriverFacts.dot_self_nonneg
                (map (fun row => Np.dot_aligned row h) X)) as Hpos.
  split.
  - rewrite Hexp, Hadj. ring.
  - rewrite Hexp, Hadj. lraQ.
Qed.

Lemma squared_loss_gradient_is_exact_witness :
  exists (energy energy' : Q) (grad Xh : list Q),
    squared_loss [[1; 2]; [3; 4]; [0; 1]] [1; 1; 2] [1; 0] true true
    = Ok (Both energy grad)
    /\ squared_loss [[1; 2]; [3; 4]; [0; 1]] [1; 1; 2] [1; 0] true false
       = Ok (Energy energy)
    /\ squared_loss_grad [[1; 2]; [3; 4]; [0; 1]] [1; 1; 2] [1; 0]
       = Ok (Gradient grad)
    /\ Np.matvec [[1; 2]; [3; 4]; [0; 1]] [1 # 2; - (1)] = Ok Xh
    /\ squared_loss [[1; 2]; [3; 4]; [0; 1]] [1; 1; 2]
         (map2 Qplus [1; 0] [1 # 2; - (1)]) true false = Ok (Energy energy')
    /\ energy' == energy + Np.dot_aligned grad [1 # 2; - (1)]
                  + (1 # 2) * Np.dot_aligned Xh Xh
    /\ energy + Np.dot_aligned grad [1 # 2; - (1)] <= energy'.
Proof.
  apply (squared_loss_gradient_is_exact [[1; 2]; [3; 4]; [0; 1]] [1; 1; 2]
           [1; 0] [1 # 2; - (1)]).
  - reflexivity.
  - repeat constructor.
  - reflexivity.
Defined.

End SquaredLossFacts.

(** ** [logistic] and [logistic_loss_grad] *)

Module LogisticFacts.
Import Logistic.
Unset Implicit Arguments.
Local Open Scope list_scope.
Local Open Scope R_scope.

Lemma one_plus_exp_pos (t : R) : 0 < 1 + exp t.
Proof. pose proof (exp_pos t). lraR. Qed.

(** Both branches of [out_entry] are [log(1 + exp(-yz))]. *)
Lemma out_entry_softplus (t : R) : out_entry t = ln (1 + exp (- t)).
Proof.
  unfold out_entry, log1p, Estimator.Rlt_bool.
  destruct (Rlt_dec 0 t) as [_|_]; [ reflexivity | ].
  replace (1 + exp (- t)) with (exp (- t) * (1 + exp t)).
  - rewrite ln_mult by (try apply exp_pos; apply one_plus_exp_pos).
    rewrite ln_exp. reflexivity.
  - rewrite Rmult_plus_distr_l, Rmult_1_r, <- exp_plus.
    replace (- t + t) with 0 by ring. rewrite exp_0. ring.
Qed.

Lemma softplus_pos (t : R) : 0 < ln (1 + exp (- t)).
Proof.
  rewrite <- ln_1. apply ln_increasing; [ lraR | ].
  pose proof (exp_pos (- t)). lraR.
Qed.

Lemma sum_softplus_nonneg (yz : list R) :
  0 <= sum (map (fun t => ln (1 + exp (- t))) yz)
  /\ (yz <> [] -> 0 < sum (map (fun t => ln (1 + exp (- t))) yz)).
Proof.
  induction yz as [|t yz [IH _]]; cbn [map sum].
  - split; [ lraR | congruence ].
  - pose proof (softplus_pos t). split; [ | intros _ ]; lraR.
Qed.

(** X12: whenever [logistic] returns, its value is the sum over the
    samples of [log(1 + exp(-y_i z_i))], whichever branch each sample takes;
    it is never negative, and positive as soon as there is a sample. *)
Theorem logistic_is_the_sum_of_softplus (X : list (list R)) (y w : list R)
    (energy : R) :
  logistic X y w = Ok energy ->
  exists yz, margins X y w = Ok yz
             /\ energy = sum (map (fun t => ln (1 + exp (- t))) yz)
             /\ 0 <= energy
             /\ (yz <> [] -> 0 < energy).
Proof.
  unfold logistic.
  destruct (margins X y w) as [yz|e]; cbn [bind]; [ | discriminate ].
  intros [= <-]. exists yz.
  assert (E : sum (map out_entry yz)
              = sum (map (fun t => ln (1 + exp (- t))) yz)).
  { induction yz as [|t yz IH]; cbn [map sum]; [ reflexivity | ].
    rewrite IH, out_entry_softplus. reflexivity. }
  rewrite E. destruct (sum_softplus_nonneg yz) as [H0 H1].
  split; [ reflexivity | split; [ reflexivity | split; assumption ] ].
Qed.

Lemma logistic_is_the_sum_of_softplus_witness :
  exists energy yz,
    margins [[1; 2]; [3; 4]] [1; -1] [1; 0; 2] = Ok yz
    /\ energy = sum (map (fun t => ln (1 + exp (- t))) yz)
    /\ 0 <= energy
    /\ (yz <> [] -> 0 < energy).
Proof.
  eexists.
  apply (logistic_is_the_sum_of_softplus [[1; 2]; [3; 4]] [1; -1] [1; 0; 2]).
  reflexivity.
Defined.

(** *** The gradient *)

Lemma affine_derivative (c d x : R) :
  derivable_pt_lim (fun e => c + e * d) x d.
Proof.
  intros eps Heps. exists (mkposreal 1 Rlt_0_1). intros h Hh _.
  replace ((c + (x + h) * d - (c + x * d)) / h - d) with 0
    by (field; exact Hh).
  rewrite Rabs_R0. exact Heps.
Qed.

(** One sample along a line: the derivative of
    [e -> log(1 + exp(-(m + e k)))] at [0]. *)
Lemma softplus_derivative (m k : R) :
  derivable_pt_lim (fun e => ln (1 + exp (- (m + e * k)))) 0
    ((/ (exp (m * -1) + 1) - 1) * k).
Proof.
  pose (a := fun e : R => - m + e * - k).
  assert (Ha : derivable_pt_lim a 0 (- k)) by apply affine_derivative.
  assert (Hb : derivable_pt_lim (comp exp a) 0 (exp (a 0) * - k))
    by (apply derivable_pt_lim_comp;
        [ exact Ha | apply derivable_pt_lim_exp ]).
  assert (Hc : derivable_pt_lim (fct_cte 1 + comp exp a)%F 0
                 (0 + exp (a 0) * - k))
    by (apply derivable_pt_lim_plus;
        [ apply derivable_pt_lim_const | exact Hb ]).
  assert (Hd : derivable_pt_lim (comp ln (fct_cte 1 + comp exp a)%F) 0
                 (/ (1 + exp (a 0)) * (0 + exp (a 0) * - k))).
  { apply (derivable_pt_lim_comp (fct_cte 1 + comp exp a)%F ln);
      [ exact Hc | ].
    apply derivable_pt_lim_ln. unfold plus_fct, fct_cte, comp.
    apply one_plus_exp_pos. }
  assert (Ea : a 0 = - m) by (unfold a; ring).
  rewrite Ea in Hd.
  replace ((/ (exp (m * -1) + 1) - 1) * k)
    with (/ (1 + exp (- m)) * (0 + exp (- m) * - k)).
  - apply (derivable_pt_lim_ext
             (comp ln (fct_cte 1 + comp exp a)%F)); [ | exact Hd ].
    intros z. unfold comp, plus_fct, fct_cte, a.
    replace (- m + z * - k) with (- (m + z * k)) by ring. reflexivity.
  - replace (m * -1) with (- m) by ring.
    pose proof (exp_pos (- m)). field. lraR.
Qed.

(** The samples as pairs: the margin at [w] and its slope along [h]. *)
Lemma sum_softplus_derivative (l : list (R * R)) :
  derivable_pt_lim
    (fun e => sum (map (fun mk => ln (1 + exp (- (fst mk + e * snd mk)))) l))
    0
    (sum (map (fun mk => (/ (exp (fst mk * -1) + 1) - 1) * snd mk) l)).
Proof.
  induction l as [|[m k] l IH]; cbn [map sum fst snd].
  - apply (derivable_pt_lim_ext (fct_cte 0));
      [ reflexivity | apply derivable_pt_lim_const ].
  - apply (derivable_pt_lim_plus
             (fun e => ln (1 + exp (- (m + e * k))))
             (fun e => sum (map (fun mk => ln (1 + exp (- (fst mk + e * snd mk)))) l)));
      [ apply softplus_derivative | exact IH ].
Qed.

Lemma rdot_add_scaled_r (e : R) (a : list R) :
  forall w h, List.length w = List.length h ->
    Estimator.dot a (map2 Rplus w (map (Rmult e) h))
    = Estimator.dot a w + e * Estimator.dot a h.
Proof.
  induction a as [|x a IH]; intros [|u w] [|v h] H; cbn in H;
    cbn [map map2 Estimator.dot]; try lia; try ring.
  rewrite IH by lia. ring.
Qed.

Lemma rdot_add_l (a : list R) :
  forall b h, List.length a = List.length b ->
    Estimator.dot (map2 Rplus a b) h
    = Estimator.dot a h + Estimator.dot b h.
Proof.
  induction a as [|x a IH]; intros [|u b] [|v h] H; cbn in H;
    cbn [map2 Estimator.dot]; try lia; try ring.
  rewrite IH by lia. ring.
Qed.

Lemma rdot_scale_l (c : R) (a : list R) :
  forall h, Estimator.dot (map (Rmult c) a) h = c * Estimator.dot a h.
Proof.
  induction a as [|x a IH]; intros [|v h]; cbn [map Estimator.dot];
    try ring.
  rewrite IH. ring.
Qed.

Lemma rdot_zeros_l (p : nat) :
  forall h, Estimator.dot (repeat 0 p) h = 0.
Proof.
  induction p as [|p IH]; intros [|v h]; cbn [repeat Estimator.dot];
    try ring.
  rewrite IH. ring.
Qed.

Lemma rdot_snoc (a h : list R) (x c : R) :
  List.length a = List.length h ->
  Estimator.dot (a ++ [x]) (h ++ [c]) = Estimator.dot a h + x * c.
Proof.
  revert h. induction a as [|u a IH]; intros [|v h] H; cbn in H;
    try lia; cbn [app Estimator.dot]; [ ring | ].
  rewrite IH by lia. ring.
Qed.

Lemma length_rXT_dot_aligned (p : nat) (X : list (list R)) :
  forall v, Forall (fun row => List.length row = p) X ->
            List.length (XT_dot_aligned p X v) = p.
Proof.
  induction X as [|row X IH]; intros v Hall; cbn [XT_dot_aligned].
  - apply repeat_length.
  - destruct v as [|c v]; [ apply repeat_length | ].
    inversion Hall as [|? ? Hrow Hall']; subst.
    rewrite SquaredLossFacts.length_map2_same; rewrite length_map;
      [ reflexivity | ].
    rewrite IH by exact Hall'. reflexivity.
Qed.

Lemma rmatvec_of_lengths (X : list (list R)) (w : list R) :
  Forall (fun row => List.length row = List.length w) X ->
  matvec X w = Ok (map (fun row => Estimator.dot row w) X).
Proof.
  induction 1 as [|row X Hrow Hall IH]; [ reflexivity | ].
  cbn [matvec map]. unfold dot. rewrite Hrow, Nat.eqb_refl.
  cbn [bind]. rewrite IH. reflexivity.
Qed.

Lemma snoc_of_length (w : list R) (p : nat) :
  List.length w = S p ->
  exists w' b, w = w' ++ [b] /\ List.length w' = p.
Proof.
  intros H. destruct (exists_last (l := w)) as (w' & b & ->).
  - intros ->. discriminate.
  - exists w', b. split; [ reflexivity | ].
    rewrite length_app in H. cbn in H. lia.
Qed.

Lemma map2_snoc (A B C : Type) (f : A -> B -> C) (a : list A) :
  forall (b : list B) (x : A) (y : B),
    List.length a = List.length b ->
    map2 f (a ++ [x]) (b ++ [y]) = map2 f a b ++ [f x y].
Proof.
  induction a as [|u a IH]; intros [|v b] x y H; cbn in H; try lia;
    [ reflexivity | ].
  cbn [app map2]. rewrite IH by lia. reflexivity.
Qed.

(** [margins] on data of matching shapes. *)
Lemma margins_of_lengths (X : list (list R)) (y w' : list R) (b : R) :
  List.length X = List.length y ->
  Forall (fun row => List.length row = List.length w') X ->
  margins X y (w' ++ [b])
  = Ok (map2 Rmult y
          (map (fun v => v + b) (map (fun row => Estimator.dot row w') X))).
Proof.
  intros Hlen Hall. unfold margins.
  rewrite OperatorFacts.but_last_snoc, (rmatvec_of_lengths X w' Hall).
  cbn [bind]. rewrite rev_unit. cbn [bind].
  unfold broadcast. rewrite !length_map, Hlen, Nat.eqb_refl. reflexivity.
Qed.

(** The pairs (margin, slope) of the samples. *)
Lemma margins_along_a_line (w' h' : list R) (b c e : R)
    (X : list (list R)) :
  List.length w' = List.length h' ->
  forall y,
    map (fun t => ln (1 + exp (- t)))
      (map2 Rmult y
         (map (fun v => v + (b + e * c))
            (map (fun row =>
                    Estimator.dot row (map2 Rplus w' (map (Rmult e) h')))
               X)))
    = map (fun mk => ln (1 + exp (- (fst mk + e * snd mk))))
        (map2 (fun yi row => (yi * (Estimator.dot row w' + b),
                              yi * (Estimator.dot row h' + c))) y X).
Proof.
  intros Hl. induction X as [|row X IH]; intros [|yi y];
    cbn [map map2 fst snd]; try reflexivity.
  rewrite IH, rdot_add_scaled_r by exact Hl.
  f_equal. f_equal. f_equal. f_equal. ring.
Qed.

Lemma gradient_along_a_line (p : nat) (w' h' : list R) (b c : R)
    (X : list (list R)) :
  List.length h' = p ->
  Forall (fun row => List.length row = p) X ->
  forall y,
    let z0 := map2 Rmult
                (map (fun v => v - 1)
                   (_sigmoid
                      (map2 Rmult y
                         (map (fun v => v + b)
                            (map (fun row => Estimator.dot row w') X)))))
                y in
    Estimator.dot (XT_dot_aligned p X z0) h' + sum z0 * c
    = sum (map (fun mk => (/ (exp (fst mk * -1) + 1) - 1) * snd mk)
             (map2 (fun yi row => (yi * (Estimator.dot row w' + b),
                                   yi * (Estimator.dot row h' + c))) y X)).
Proof.
  intros Hh Hall. induction Hall as [|row X Hrow Hall IH]; intros y;
    cbn zeta in *.
  - destruct y; cbn [map map2 _sigmoid XT_dot_aligned sum];
      rewrite rdot_zeros_l; ring.
  - destruct y as [|yi y].
    + cbn [map map2 _sigmoid XT_dot_aligned sum].
      rewrite rdot_zeros_l. ring.
    + cbn [map map2 _sigmoid XT_dot_aligned sum fst snd].
      rewrite rdot_add_l, rdot_scale_l.
      * rewrite <- (IH y). unfold _sigmoid. ring.
      * rewrite length_map, length_rXT_dot_aligned by exact Hall.
        exact Hrow.
Qed.

(** X13: on a design matrix with one row per label and one column per
    weight, [w] and [h] carrying the intercept last, [logistic] returns all
    along the line [w + e h], and its derivative at [e = 0] is the inner
    product of [logistic_loss_grad(X, y, w)] with [h]:
    [logistic_loss_grad] is the gradient of [logistic]. *)
Theorem logistic_loss_grad_is_the_gradient (X : list (list R))
    (y w h : list R) (p : nat) :
  List.length X = List.length y ->
  Forall (fun row => List.length row = p) X ->
  List.length w = S p -> List.length h = S p ->
  exists (grad : list R) (energy : R -> R),
    logistic_loss_grad X y w = Ok grad
    /\ List.length grad = S p
    /\ (forall e, logistic X y (map2 Rplus w (map (Rmult e) h))
                  = Ok (energy e))
    /\ derivable_pt_lim energy 0 (Estimator.dot grad h).
Proof.
  intros Hlen Hall Hw Hh.
  destruct (snoc_of_length w p Hw) as (w' & b & -> & Hw').
  destruct (snoc_of_length h p Hh) as (h' & c & -> & Hh').
  assert (Hallw : Forall (fun row => List.length row = List.length w') X)
    by (rewrite Hw'; exact Hall).
  set (yz := map2 Rmult y
               (map (fun v => v + b)
                  (map (fun row => Estimator.dot row w') X))).
  set (z0 := map2 Rmult (map (fun v => v - 1) (_sigmoid yz)) y).
  set (pairs := map2 (fun yi row => (yi * (Estimator.dot row w' + b),
                                     yi * (Estimator.dot row h' + c))) y X).
  assert (Hlyz : List.length yz = List.length y).
  { unfold yz. rewrite SquaredLossFacts.length_map2_same;
      rewrite ?length_map; lia. }
  assert (Hlz0 : List.length z0 = List.length y).
  { unfold z0, _sigmoid.
    rewrite SquaredLossFacts.length_map2_same; rewrite !length_map; lia. }
  exists (XT_dot_aligned p X z0 ++ [sum z0]),
    (fun e => sum (map (fun mk => ln (1 + exp (- (fst mk + e * snd mk))))
                     pairs)).
  split; [ | split; [ | split ] ].
  - unfold logistic_loss_grad.
    rewrite (margins_of_lengths X y w' b Hlen Hallw). cbn [bind].
    fold yz. unfold broadcast.
    replace (Nat.eqb (List.length (map (fun v => v - 1) (_sigmoid yz)))
               (List.length y))
      with true
      by (symmetry; apply Nat.eqb_eq; unfold _sigmoid;
          rewrite !length_map; exact Hlyz).
    cbn [bind]. fold z0. unfold XT_dot.
    rewrite Hlz0, Hlen, Nat.eqb_refl. cbn [bind].
    rewrite length_app, Hw'. cbn [List.length].
    replace (p + 1 - 1)%nat with p by lia. reflexivity.
  - rewrite length_app, length_rXT_dot_aligned by exact Hall. cbn. lia.
  - intros e. unfold logistic.
    rewrite map_app. cbn [map].
    rewrite map2_snoc by (rewrite length_map; lia).
    rewrite margins_of_lengths;
      [ | exact Hlen
        | rewrite SquaredLossFacts.length_map2_same;
          rewrite ?length_map; [ exact Hallw | lia ] ].
    cbn [bind]. f_equal. unfold pairs.
    rewrite <- (margins_along_a_line w' h' b c e X) by lia.
    generalize (map2 Rmult y
                  (map (fun v => v + (b + e * c))
                     (map (fun row =>
                             Estimator.dot row
                               (map2 Rplus w' (map (Rmult e) h'))) X))).
    intros l. induction l as [|t l IH]; cbn [map sum]; [ reflexivity | ].
    rewrite IH, out_entry_softplus. reflexivity.
  - rewrite rdot_snoc by (rewrite length_rXT_dot_aligned by exact Hall; lia).
    unfold z0, yz.
    rewrite (gradient_along_a_line p w' h' b c X Hh' Hall y).
    apply sum_softplus_derivative.
Qed.

Lemma logistic_loss_grad_is_the_gradient_witness :
  exists (grad : list R) (energy : R -> R),
    logistic_loss_grad [[1; 2]; [3; 4]] [1; -1] [1; 0; 2] = Ok grad
    /\ List.length grad = 3%nat
    /\ (forall e, logistic [[1; 2]; [3; 4]] [1; -1]
                    (map2 Rplus [1; 0; 2] (map (Rmult e) [0; 1; 1]))
                  = Ok (energy e))
    /\ derivable_pt_lim energy 0 (Estimator.dot grad [0; 1; 1]).
Proof.
  apply (logistic_loss_grad_is_the_gradient [[1; 2]; [3; 4]] [1; -1]
           [1; 0; 2] [0; 1; 1] 2).
  - reflexivity.
  - repeat constructor.
  - reflexivity.
  - reflexivity.
Defined.

End LogisticFacts.

(** ** The spacing of the regularisation grid *)

Module GridSpacingFacts.
Import AlphaGrid AlphaGridFacts.
Unset Implicit Arguments.
Local Open Scope list_scope.
Local Open Scope R_scope.

Lemma log10_mult (a b : R) : 0 < a -> 0 < b ->
  log10 (a * b) = log10 a + log10 b.
Proof.
  intros Ha Hb. unfold log10. rewrite ln_mult by assumption.
  field. apply Rgt_not_eq, ln_10_pos.
Qed.

Lemma pow10_plus (x y : R) : pow10 (x + y) = pow10 x * pow10 y.
Proof. unfold pow10. apply Rpower_plus. Qed.

(** [10 ** (c * log10(x)) = x ** c] *)
Lemma pow10_scaled_log10 (c x : R) :
  pow10 (c * log10 x) = Rpower x c.
Proof.
  unfold pow10, log10, Rpower. f_equal. field.
  apply Rgt_not_eq, ln_10_pos.
Qed.

(** The reversed log-spaced ramp from [hi] down to [hi * eps]. *)
Lemma reversed_logspace_spacing (hi eps : R) (num : nat) :
  0 < hi -> 0 < eps -> (2 <= num)%nat ->
  let grid := rev (logspace (log10 (hi * eps)) (log10 hi) num) in
  nth (num - 1) grid 0 = hi * eps
  /\ forall i, (S i < num)%nat ->
       nth (S i) grid 0 = nth i grid 0 * Rpower eps (/ INR (num - 1)).
Proof.
  intros Hhi Heps Hnum grid.
  assert (Hlo : 0 < hi * eps) by (apply Rmult_lt_0_compat; assumption).
  assert (Hlen : List.length (logspace (log10 (hi * eps)) (log10 hi) num)
                 = num)
    by (unfold logspace; rewrite length_map; apply length_linspace).
  assert (Hn : INR (num - 1) <> 0) by (apply not_0_INR; lia).
  assert (Hnth : forall i, (i < num)%nat ->
            nth i grid 0
            = pow10 (log10 (hi * eps)
                     + INR (num - S i)
                       * ((log10 hi - log10 (hi * eps)) / INR (num - 1)))).
  { intros i Hi. unfold grid. rewrite rev_nth by (rewrite Hlen; exact Hi).
    rewrite Hlen, logspace_nth, linspace_nth by lia. reflexivity. }
  split.
  - rewrite Hnth by lia.
    replace (num - S (num - 1))%nat with 0%nat by lia. cbn [INR].
    rewrite Rmult_0_l, Rplus_0_r. apply pow10_log10, Hlo.
  - intros i Hi. rewrite !Hnth by lia.
    replace (num - S i)%nat with (S (num - S (S i))) by lia.
    rewrite S_INR.
    set (k := INR (num - S (S i))).
    set (step := (log10 hi - log10 (hi * eps)) / INR (num - 1)).
    replace (log10 (hi * eps) + (k + 1) * step)
      with ((log10 (hi * eps) + k * step) + step) by ring.
    rewrite (pow10_plus (log10 (hi * eps) + k * step) step), Rmult_assoc.
    rewrite <- (Rmult_1_r (pow10 (log10 (hi * eps) + k * step))) at 1.
    f_equal.
    rewrite <- pow10_scaled_log10, <- pow10_plus.
    replace (step + / INR (num - 1) * log10 eps) with 0.
    + unfold pow10. symmetry. apply Rpower_O. lraR.
    + unfold step. rewrite log10_mult by assumption. field. exact Hn.
Qed.

(** X14: with at least two alphas, a positive [alpha_max] and a positive
    [eps], the grid is geometric: it ends at [alpha_max * eps] and each
    entry is the one before it times [eps ** (1 / (n_alphas - 1))]. *)
Theorem alpha_grid_is_geometric
    (X : list (list Q)) (y : list Q) (eps : Q) (n_alphas : nat)
    (l1_ratio : Q) (logistic : bool) (alpha_max : Q) :
  (0 < eps)%Q -> (2 <= n_alphas)%nat ->
  scaled_alpha_max X y l1_ratio logistic = Ok alpha_max ->
  (0 < alpha_max)%Q ->
  exists grid,
    _space_net_alpha_grid X y eps n_alphas l1_ratio logistic = Ok grid
    /\ nth (n_alphas - 1) grid 0 = Q2R alpha_max * Q2R eps
    /\ forall i, (S i < n_alphas)%nat ->
         nth (S i) grid 0
         = nth i grid 0 * Rpower (Q2R eps) (/ INR (n_alphas - 1)).
Proof.
  intros He Hn Hscaled Hpos.
  unfold _space_net_alpha_grid. rewrite Hscaled. cbn [bind].
  replace (n_alphas =? 1)%nat with false
    by (symmetry; apply Nat.eqb_neq; lia).
  assert (Hmin : (0 < alpha_max * eps)%Q)
    by (apply Qmult_lt_0_compat; assumption).
  rewrite (Qle_bool_false Hmin), (Qle_bool_false Hpos). cbn [orb].
  eexists. split; [ reflexivity | ].
  rewrite Q2R_mult.
  apply reversed_logspace_spacing; [ apply Q2R_pos, Hpos
                                   | apply Q2R_pos, He | exact Hn ].
Qed.

Lemma alpha_grid_is_geometric_witness :
  exists grid,
    _space_net_alpha_grid [[1; 2]; [3; 5]]%Q [1; - (1)]%Q (1 # 1000)%Q 3
      (1 # 2)%Q false = Ok grid
    /\ nth (3 - 1) grid 0 = Q2R (6 # 2) * Q2R (1 # 1000)
    /\ forall i, (S i < 3)%nat ->
         nth (S i) grid 0
         = nth i grid 0 * Rpower (Q2R (1 # 1000)) (/ INR (3 - 1)).
Proof.
  apply (alpha_grid_is_geometric [[1; 2]; [3; 5]]%Q [1; - (1)]%Q
           (1 # 1000)%Q 3 (1 # 2)%Q false (6 # 2)%Q).
  - reflexivity.
  - lia.
  - vm_compute. reflexivity.
  - reflexivity.
Defined.

End GridSpacingFacts.

(** ** What [_standardize_X] achieves *)

Module StandardizeFacts.
Import Estimator.
Unset Implicit Arguments.
Local Open Scope list_scope.
Local Open Scope R_scope.

Lemma length_col_sums (p : nat) (X : list (list R)) :
  Forall (fun row => List.length row = p) X ->
  List.length (col_sums p X) = p.
Proof.
  induction 1 as [|row X Hrow Hall IH]; cbn [col_sums].
  - apply repeat_length.
  - rewrite SpatialFacts.length_map2, Hrow, IH. lia.
Qed.

Lemma nth_col_sums (p : nat) (X : list (list R)) (j : nat) :
  Forall (fun row => List.length row = p) X -> (j < p)%nat ->
  nth j (col_sums p X) 0 = fold_right Rplus 0 (map (fun row => nth j row 0) X).
Proof.
  intros Hall Hj.
  induction Hall as [|row X Hrow Hall IH]; cbn [col_sums map fold_right].
  - apply nth_repeat.
  - rewrite (SpatialFacts.nth_map2 _ _ _ _ 0 0 0)
      by (rewrite ?length_col_sums; trivial; lia).
    rewrite IH. reflexivity.
Qed.

Lemma hd_length (p : nat) (X : list (list R)) :
  X <> [] -> Forall (fun row => List.length row = p) X ->
  List.length (hd [] X) = p.
Proof.
  intros Hne Hall. destruct X as [|row X]; [ congruence | ].
  inversion Hall; assumption.
Qed.

Lemma length_mean_axis0 (p : nat) (X : list (list R)) :
  X <> [] -> Forall (fun row => List.length row = p) X ->
  List.length (mean_axis0 X) = p.
Proof.
  intros Hne Hall. unfold mean_axis0.
  rewrite length_map, (hd_length p X Hne Hall). apply length_col_sums, Hall.
Qed.

Lemma nth_mean_axis0 (p : nat) (X : list (list R)) (j : nat) :
  X <> [] -> Forall (fun row => List.length row = p) X -> (j < p)%nat ->
  nth j (mean_axis0 X) 0 = fold_right Rplus 0 (map (fun row => nth j row 0) X) / INR (List.length X).
Proof.
  intros Hne Hall Hj. unfold mean_axis0.
  rewrite (hd_length p X Hne Hall).
  rewrite (SpatialFacts.nth_map_in _ _ _ 0 0)
    by (rewrite length_col_sums; assumption).
  rewrite (nth_col_sums p) by assumption. reflexivity.
Qed.

(** Rows combined entry by entry with a vector of their length. *)
Lemma rows_map2 (F : R -> R -> R) (p : nat) (v : list R)
    (X : list (list R)) :
  List.length v = p -> Forall (fun row => List.length row = p) X ->
  Forall (fun row => List.length row = p)
    (map (fun row => map2 F row v) X)
  /\ forall j, (j < p)%nat ->
       fold_right Rplus 0
           (map (fun row => nth j row 0) (map (fun row => map2 F row v) X))
       = fold_right Rplus 0
           (map (fun row => F (nth j row 0) (nth j v 0)) X).
Proof.
  intros Hv Hall. split.
  - apply Forall_map. revert Hall. apply Forall_impl. intros row Hrow.
    rewrite SpatialFacts.length_map2. lia.
  - intros j Hj. rewrite map_map. f_equal. apply map_ext_in.
    intros row Hin. rewrite Forall_forall in Hall.
    apply SpatialFacts.nth_map2; rewrite ?(Hall row Hin); lia.
Qed.

Lemma sum_centred_scaled (A : Type) (f : A -> R) (mu sigma : R)
    (X : list A) :
  sigma <> 0 ->
  fold_right Rplus 0 (map (fun row => (f row - mu) / sigma) X)
  = (fold_right Rplus 0 (map f X) - INR (List.length X) * mu) / sigma.
Proof.
  intros Hs. induction X as [|row X IH].
  - cbn. field. exact Hs.
  - cbn [map fold_right List.length]. rewrite IH, S_INR. field. exact Hs.
Qed.

Lemma sum_squares_scaled (A : Type) (f : A -> R) (sigma : R) (X : list A) :
  sigma <> 0 ->
  fold_right Rplus 0 (map (fun row => Rsqr (f row / sigma - 0)) X)
  = fold_right Rplus 0 (map (fun row => Rsqr (f row)) X) / (sigma * sigma).
Proof.
  intros Hs. induction X as [|row X IH].
  - cbn. field. exact Hs.
  - cbn [map fold_right]. rewrite IH. unfold Rsqr. field. exact Hs.
Qed.

Lemma sum_squares_nonneg (A : Type) (f : A -> R) (X : list A) :
  0 <= fold_right Rplus 0 (map (fun row => Rsqr (f row)) X).
Proof.
  induction X as [|row X IH]; cbn [map fold_right]; [ lraR | ].
  pose proof (Rle_0_sqr (f row)). lraR.
Qed.

Lemma existsb_zero_false (l : list R) (j : nat) :
  existsb (fun s => Req_bool s 0) l = false ->
  (j < List.length l)%nat -> nth j l 0 <> 0.
Proof.
  intros H Hj Hz.
  assert (Hin : In (nth j l 0) l) by (apply nth_In, Hj).
  assert (Hex : existsb (fun s => Req_bool s 0) l = true).
  { apply existsb_exists. exists (nth j l 0). split; [ exact Hin | ].
    unfold Req_bool. destruct (Req_dec_T (nth j l 0) 0); tauto. }
  congruence.
Qed.

(** What [_standardize_X] returns, entry by entry: the column means, the
    column deviations (none of them zero), and each entry centred and
    scaled by the statistics of its column. *)
Lemma standardize_X_entries (p : nat) (X X' : list (list R))
    (Xmean Xstd : list R) :
  Forall (fun row => List.length row = p) X ->
  _standardize_X X = Ok (X', Xmean, Xstd) ->
  List.length X' = List.length X
  /\ forall j, (j < p)%nat ->
       nth j Xmean 0
       = fold_right Rplus 0 (map (fun row => nth j row 0) X)
         / INR (List.length X)
       /\ nth j Xstd 0
          = sqrt (fold_right Rplus 0
                    (map (fun row => Rsqr (nth j row 0 - nth j Xmean 0)) X)
                  / INR (List.length X))
       /\ nth j Xstd 0 <> 0
       /\ forall i, (i < List.length X)%nat ->
            nth j (nth i X' []) 0
            = (nth j (nth i X []) 0 - nth j Xmean 0) / nth j Xstd 0.
Proof.
  intros Hall. unfold _standardize_X.
  destruct (List.length X =? 0)%nat eqn:Hn; [ discriminate | ].
  apply Nat.eqb_neq in Hn.
  destruct (existsb (fun s => Req_bool s 0) (std_axis0 X)) eqn:Hex;
    [ discriminate | ].
  intros [= <- <- <-].
  assert (Hne : X <> []) by (intros ->; apply Hn; reflexivity).
  set (mu := mean_axis0 X) in *.
  assert (Hlmu : List.length mu = p) by (apply length_mean_axis0; assumption).
  set (D := map (fun row => map2 (fun x m => Rsqr (x - m)) row mu) X).
  destruct (rows_map2 (fun x m => Rsqr (x - m)) p mu X Hlmu Hall)
    as [HallD HsumD]. fold D in HallD, HsumD.
  assert (HneD : D <> [])
    by (unfold D; destruct X; [ congruence | discriminate ]).
  assert (HlD : List.length D = List.length X)
    by (unfold D; apply length_map).
  assert (Hstd : std_axis0 X = map sqrt (mean_axis0 D)) by reflexivity.
  set (sd := std_axis0 X) in *.
  assert (Hlsd : List.length sd = p).
  { rewrite Hstd, length_map. apply length_mean_axis0; assumption. }
  split; [ apply length_map | ].
  intros j Hj.
  split; [ apply (nth_mean_axis0 p); assumption | ].
  split; [ | split ].
  - rewrite Hstd.
    rewrite (SpatialFacts.nth_map_in _ _ _ 0 0)
      by (rewrite (length_mean_axis0 p); assumption).
    rewrite (nth_mean_axis0 p D j HneD HallD Hj), (HsumD j Hj), HlD.
    reflexivity.
  - apply existsb_zero_false; [ exact Hex | lia ].
  - intros i Hi.
    rewrite (SpatialFacts.nth_map_in _ _ _ [] []) by exact Hi.
    assert (Hrow : List.length (nth i X []) = p).
    { rewrite Forall_forall in Hall. apply Hall, nth_In, Hi. }
    rewrite (SpatialFacts.nth_map2 _ _ _ _ 0 0 0)
      by (rewrite ?SpatialFacts.length_map2; lia).
    rewrite (SpatialFacts.nth_map2 _ _ _ _ 0 0 0) by lia.
    reflexivity.
Qed.

(** X15: on a batch with [p] columns, whenever [_standardize_X] returns,
    the standardized batch has the shape of the batch, and each of its
    columns has mean 0 and standard deviation 1. *)
Theorem standardize_X_gives_zero_mean_and_unit_std
    (p : nat) (X X' : list (list R)) (Xmean Xstd : list R) :
  Forall (fun row => List.length row = p) X ->
  _standardize_X X = Ok (X', Xmean, Xstd) ->
  List.length X' = List.length X
  /\ Forall (fun row => List.length row = p) X'
  /\ forall j, (j < p)%nat ->
       nth j (mean_axis0 X') 0 = 0 /\ nth j (std_axis0 X') 0 = 1.
Proof.
  intros Hall. unfold _standardize_X.
  destruct (List.length X =? 0)%nat eqn:Hn; [ discriminate | ].
  apply Nat.eqb_neq in Hn.
  destruct (existsb (fun s => Req_bool s 0) (std_axis0 X)) eqn:Hex;
    [ discriminate | ].
  intros [= <- <- <-].
  assert (Hne : X <> []) by (intros ->; apply Hn; reflexivity).
  assert (HnR : INR (List.length X) <> 0) by (apply not_0_INR, Hn).
  set (mu := mean_axis0 X) in *.
  assert (Hlmu : List.length mu = p) by (apply length_mean_axis0; assumption).
  set (D := map (fun row => map2 (fun x m => Rsqr (x - m)) row mu) X).
  destruct (rows_map2 (fun x m => Rsqr (x - m)) p mu X Hlmu Hall)
    as [HallD HsumD]. fold D in HallD, HsumD.
  assert (HneD : D <> [])
    by (unfold D; destruct X; [ congruence | discriminate ]).
  assert (HlD : List.length D = List.length X)
    by (unfold D; apply length_map).
  assert (Hstd : std_axis0 X = map sqrt (mean_axis0 D)) by reflexivity.
  set (sd := std_axis0 X) in *.
  assert (Hlsd : List.length sd = p).
  { rewrite Hstd, length_map. apply length_mean_axis0; assumption. }
  set (X' := map (fun row => map2 Rdiv (map2 Rminus row mu) sd) X).
  assert (HX' : X' = map (fun row => map2 Rdiv row sd)
                       (map (fun row => map2 Rminus row mu) X))
    by (unfold X'; rewrite map_map; reflexivity).
  destruct (rows_map2 Rminus p mu X Hlmu Hall) as [Hall1 Hsum1].
  destruct (rows_map2 Rdiv p sd _ Hlsd Hall1) as [Hall' Hsum'].
  rewrite <- HX' in Hall', Hsum'.
  assert (HneX' : X' <> [])
    by (unfold X'; destruct X; [ congruence | discriminate ]).
  assert (HlX' : List.length X' = List.length X)
    by (unfold X'; apply length_map).
  split; [ exact HlX' | split; [ exact Hall' | ] ].
  intros j Hj.
  (* the statistics of the batch, column [j] *)
  set (S := fold_right Rplus 0 (map (fun row => nth j row 0) X)).
  set (T := fold_right Rplus 0
              (map (fun row => Rsqr (nth j row 0 - nth j mu 0)) X)).
  assert (Hmu : nth j mu 0 = S / INR (List.length X))
    by (apply (nth_mean_axis0 p); assumption).
  assert (Hsd : nth j sd 0 = sqrt (T / INR (List.length X))).
  { rewrite Hstd.
    rewrite (SpatialFacts.nth_map_in _ _ _ 0 0)
      by (rewrite (length_mean_axis0 p); assumption).
    rewrite (nth_mean_axis0 p D j HneD HallD Hj), (HsumD j Hj), HlD.
    reflexivity. }
  assert (Hsd0 : nth j sd 0 <> 0)
    by (apply existsb_zero_false; [ exact Hex | lia ]).
  assert (HT0 : 0 <= T)
    by (apply (sum_squares_nonneg _ (fun row => nth j row 0 - nth j mu 0))).
  assert (HV0 : 0 <= T / INR (List.length X)).
  { apply Rmult_le_pos; [ exact HT0 | ].
    apply Rlt_le, Rinv_0_lt_compat, lt_0_INR. lia. }
  assert (Hsq : nth j sd 0 * nth j sd 0 = T / INR (List.length X))
    by (rewrite Hsd; apply sqrt_sqrt, HV0).
  assert (HTne : T <> 0).
  { intros HT. apply Hsd0. rewrite Hsd, HT.
    unfold Rdiv. rewrite Rmult_0_l. apply sqrt_0. }
  (* entries of the standardized batch *)
  assert (Hentry : forall row, In row X ->
            nth j (map2 Rdiv (map2 Rminus row mu) sd) 0
            = (nth j row 0 - nth j mu 0) / nth j sd 0).
  { intros row Hin. rewrite Forall_forall in Hall.
    pose proof (Hall row Hin) as Hrow.
    rewrite (SpatialFacts.nth_map2 _ _ _ _ 0 0 0)
      by (rewrite ?SpatialFacts.length_map2; lia).
    rewrite (SpatialFacts.nth_map2 _ _ _ _ 0 0 0) by lia.
    reflexivity. }
  assert (Hmean' : nth j (mean_axis0 X') 0 = 0).
  { rewrite (nth_mean_axis0 p X' j HneX' Hall' Hj), HlX'.
    unfold X' at 1. rewrite map_map.
    rewrite (map_ext_in _ _ _ Hentry).
    rewrite (sum_centred_scaled _ (fun row => nth j row 0)) by exact Hsd0.
    fold S. rewrite Hmu. field. split; assumption. }
  split; [ exact Hmean' | ].
  set (mu' := mean_axis0 X') in *.
  assert (Hlmu' : List.length mu' = p)
    by (apply length_mean_axis0; assumption).
  destruct (rows_map2 (fun x m => Rsqr (x - m)) p mu' X' Hlmu' Hall')
    as [HallD' HsumD'].
  change (std_axis0 X')
    with (map sqrt
            (mean_axis0
               (map (fun row => map2 (fun x m => Rsqr (x - m)) row mu') X'))).
  rewrite (SpatialFacts.nth_map_in _ _ _ 0 0)
    by (rewrite (length_mean_axis0 p); trivial;
        unfold X'; destruct X; [ congruence | discriminate ]).
  rewrite (nth_mean_axis0 p _ j); trivial;
    [ | unfold X'; destruct X; [ congruence | discriminate ] ].
  rewrite (HsumD' j Hj), length_map, HlX', Hmean'.
  unfold X' at 1. rewrite map_map.
  rewrite (map_ext_in _
             (fun row => Rsqr ((nth j row 0 - nth j mu 0) / nth j sd 0 - 0)))
    by (intros row Hin; rewrite (Hentry row Hin); reflexivity).
  rewrite (sum_squares_scaled _ (fun row => nth j row 0 - nth j mu 0))
    by exact Hsd0.
  fold T. rewrite Hsq.
  replace (T / (T / INR (List.length X)) / INR (List.length X)) with 1
    by (field; split; assumption).
  apply sqrt_1.
Qed.

Lemma standardize_X_gives_zero_mean_and_unit_std_witness :
  exists X' Xmean Xstd,
    _standardize_X [[3]; [3 + 2]] = Ok (X', Xmean, Xstd)
    /\ List.length X' = 2%nat
    /\ Forall (fun row => List.length row = 1%nat) X'
    /\ forall j, (j < 1)%nat ->
         nth j (mean_axis0 X') 0 = 0 /\ nth j (std_axis0 X') 0 = 1.
Proof.
  eexists _, _, _. split; [ apply PredictFacts.standardize_pair | ].
  apply (standardize_X_gives_zero_mean_and_unit_std 1 [[3]; [3 + 2]]
           _ [3 + 1] [1]).
  - repeat constructor.
  - apply PredictFacts.standardize_pair.
Defined.

End StandardizeFacts.

(** ** [fit]: solver, loss and folds *)

Module FitFacts.
Import Params Fit.
Unset Implicit Arguments.
Local Open Scope string_scope.
Local Open Scope list_scope.
Local Open Scope Q_scope.

(** What [check_params] has established about the loss when it returns. *)
Lemma check_params_loss (self : BaseSpaceNet) (w : list warning) :
  check_params self = Ok w ->
  match loss self with
  | None => True
  | Some l =>
      lower l = "mse"
      \/ (lower l = "logistic" /\ is_classif self = true)
  end.
Proof.
  unfold check_params.
  destruct (check_number_or_none "alpha" (alpha self)); cbn [bind];
    [ | discriminate ].
  destruct (check_number_or_none "l1_ratio" (l1_ratio self)); cbn [bind];
    [ | discriminate ].
  destruct (check_l1_ratio (l1_ratio self)); cbn [bind]; [ | discriminate ].
  destruct (negb (Qleb 0 (screening_percentile self)
                  && Qleb (screening_percentile self) 100)); cbn [bind];
    [ discriminate | ].
  destruct (negb (str_in (lower (penalty self)) SUPPORTED_PENALTIES));
    cbn [bind]; [ discriminate | ].
  destruct (loss self) as [l|]; [ | intros _; exact I ].
  unfold SUPPORTED_LOSSES, str_in, loss_is. cbn [existsb negb andb].
  destruct (String.eqb_spec (lower l) "mse") as [Hm|Hm];
    cbn [orb negb bind]; [ intros _; left; exact Hm | ].
  destruct (String.eqb_spec (lower l) "logistic") as [Hl|Hl];
    cbn [orb negb bind]; [ | discriminate ].
  destruct (is_classif self); cbn [negb andb bind]; [ | discriminate ].
  intros _. right. split; [ exact Hl | reflexivity ].
Qed.

(** X16: once [check_params] has passed, three places of [fit] say which
    problem is being solved: the back-end chosen, the recorded [loss_], and
    the [is_classif] handed to [path_scores].  They all agree exactly when
    the estimator is a regressor or its loss is spelled ["mse"] or
    ["logistic"] in lower case; for a classifier with [loss=None] or a loss
    in other letter case they differ. *)
Theorem fit_dispatch_agrees_only_on_exact_loss_names
    (self : BaseSpaceNet) (w : list warning) :
  check_params self = Ok w ->
  (minimises_logistic (solver self) = path_is_classif self
   /\ String.eqb (loss_ self) "logistic" = path_is_classif self)
  <-> (is_classif self = false
       \/ loss self = Some "mse" \/ loss self = Some "logistic").
Proof.
  intros Hcheck. pose proof (check_params_loss self w Hcheck) as Hloss.
  assert (Hsolver : minimises_logistic (solver self)
                    = is_classif self
                      && negb (loss_equals (loss self) "mse")).
  { unfold solver.
    destruct (String.eqb (lower (penalty self)) "smooth-lasso");
      destruct (is_classif self);
      destruct (loss_equals (loss self) "mse"); reflexivity. }
  rewrite Hsolver. unfold path_is_classif, loss_, loss_equals.
  destruct (loss self) as [l|].
  - destruct (String.eqb_spec l "mse") as [->|Hm].
    + cbn. rewrite andb_false_r. split; [ intros _; auto | ].
      intros _. split; reflexivity.
    + destruct (String.eqb_spec l "logistic") as [->|Hl].
      * cbn in Hloss. destruct Hloss as [Hbad|[_ Hc]]; [ discriminate | ].
        rewrite Hc. cbn. split; [ intros _; auto | ].
        intros _. split; reflexivity.
      * cbn [negb]. rewrite andb_true_r.
        destruct (is_classif self) eqn:Hc.
        -- split; [ intros [Hbad _]; discriminate | ].
           intros [Hbad|[Hbad|Hbad]]; try discriminate;
             injection Hbad as ->; congruence.
        -- split; [ intros _; auto | ]. intros _.
           split; [ reflexivity | ].
           destruct Hloss as [Hm'|[_ Hbad]]; [ | discriminate ].
           rewrite Hm'. reflexivity.
  - cbn [negb]. rewrite andb_true_r.
    destruct (is_classif self) eqn:Hc.
    + split; [ intros [Hbad _]; discriminate | ].
      intros [Hbad|[Hbad|Hbad]]; discriminate.
    + split; [ intros _; auto | ]. intros _. split; reflexivity.
Qed.

Lemma fit_dispatch_agrees_only_on_exact_loss_names_witness :
  let self := mkBaseSpaceNet "tv-l1" true None PyNone (PyNum (1 # 2)) 20
                true false in
  check_params self = Ok []
  /\ solver self = tvl1_solver "logistic"
  /\ loss_ self = "logistic"
  /\ path_is_classif self = false
  /\ ((minimises_logistic (solver self) = path_is_classif self
       /\ String.eqb (loss_ self) "logistic" = path_is_classif self)
      <-> (is_classif self = false
           \/ loss self = Some "mse" \/ loss self = Some "logistic")).
Proof.
  intros self. repeat (split; [ reflexivity | ]).
  apply (fit_dispatch_agrees_only_on_exact_loss_names self []).
  reflexivity.
Defined.

Lemma sequence_of_failure (A : Type) (r : result A) (l : list (result A)) :
  is_ok r = false -> is_ok (sequence (r :: l)) = false.
Proof.
  intros H. cbn [sequence]. destruct r; [ discriminate | reflexivity ].
Qed.

Lemma n_problems_pos (self : BaseSpaceNet) (n_classes_ : nat) :
  exists k, n_problems self n_classes_ = S k.
Proof.
  unfold n_problems.
  destruct (is_classif self && (2 <? n_classes_)%nat) eqn:E.
  - apply andb_prop in E. destruct E as [_ E]. apply Nat.ltb_lt in E.
    exists (n_classes_ - 1)%nat. lia.
  - exists 0%nat. reflexivity.
Qed.

(** X17: with a fixed [alpha] and [debias=True], [fit] cannot get past its
    main loop: the single fold it then builds has an empty test set, and on
    it [path_scores] reads [early_stopper] before it is bound. *)
Theorem fit_with_fixed_alpha_and_debias_never_returns
    (spearmanr pearsonr : list Q -> list Q -> Float.float)
    (gaussian_filter : Mask.vol Q -> Q -> Mask.vol Q)
    (select_percentile : bool -> Q -> list (list Q) -> list Q -> list bool)
    (binary_erosion binary_dilation : Mask.mask3 -> Mask.mask3)
    (center_data :
       list (list Q) -> list Q -> list (list Q) * list Q * list Q * Q)
    (State : Type)
    (backend_solver :
       backend ->
       list (list Q) -> list Q -> Q -> Q -> Mask.mask3 -> option State ->
       option SpaceNet.EarlyStoppingCallback -> list Q * State)
    (alpha_grid :
       list (list Q) -> list Q -> Q -> nat -> Q -> bool -> result (list Q))
    (self : BaseSpaceNet) (a : Q) (alphas : option (list Q))
    (check_cv : list (list nat * list nat)) (n_classes_ : nat)
    (X : list (list Q)) (y : nat -> list Q) (mask_ : Mask.mask3)
    (n_alphas : nat) (eps : Q) (Xmean : list Q) (ymean : nat -> Q)
    (screening_percentile_ : Q) (verbose : nat) :
  alpha self = PyNum a -> debias self = true ->
  is_ok (main_loop spearmanr pearsonr gaussian_filter select_percentile
           binary_erosion binary_dilation center_data backend_solver
           alpha_grid self alphas check_cv n_classes_ X y mask_ n_alphas eps
           Xmean ymean screening_percentile_ verbose) = false.
Proof.
  intros Halpha Hdebias. unfold main_loop.
  destruct (check_params self); cbn [bind]; [ | reflexivity ].
  destruct (number (l1_ratio self)) as [l1|e]; cbn [bind]; [ | reflexivity ].
  rewrite Halpha, Hdebias. cbn [sanitize_alphas bind folds List.length].
  cbn [Nat.ltb Nat.leb].
  destruct (n_problems_pos self n_classes_) as [k ->].
  cbn [seq flat_map map app fst snd].
  apply sequence_of_failure.
  apply SingleFoldFacts.single_fold_debias_never_returns.
Qed.

Lemma fit_with_fixed_alpha_and_debias_never_returns_witness :
  is_ok (main_loop SpaceNet.corr_two_points SpaceNet.corr_two_points
           (fun v _ => v) (fun _ _ _ _ => [true; true])
           (fun m => m) (fun m => m) (fun X y => (X, y, [0; 0], 0))
           (fun (_ : backend) (_ : list (list Q)) (_ : list Q) (_ _ : Q)
                (_ : Mask.mask3) (_ : option unit)
                (_ : option SpaceNet.EarlyStoppingCallback) =>
              ([1; 2], tt))
           (fun _ _ _ _ _ _ => Ok [1])
           (mkBaseSpaceNet "smooth-lasso" false None (PyNum 1)
              (PyNum (1 # 2)) 20 true true)
           None [([0%nat], [1%nat])] 0 [[1; 0]; [2; 0]]
           (fun _ => [1; 2]) [[[true; true]]] 10 (1 # 1000) [0; 0]
           (fun _ => 0) 20 0) = false.
Proof.
  apply (fit_with_fixed_alpha_and_debias_never_returns _ _ _ _ _ _ _ _ _ _
           _ 1); reflexivity.
Defined.

End FitFacts.

(** ** Screening keeps the data and the mask aligned *)

Module ScreeningFacts.
Import Float Mask SpaceNet.
Unset Implicit Arguments.
Local Open Scope list_scope.
Local Open Scope Q_scope.

Lemma count1_app (a b : list bool) :
  count1 (a ++ b) = (count1 a + count1 b)%nat.
Proof.
  rewrite !CropFacts.count1_total, map_app, list_sum_app. reflexivity.
Qed.

Lemma count1_cons (b : bool) (row : list bool) :
  count1 (b :: row) = ((if b then 1 else 0) + count1 row)%nat.
Proof. unfold count1. apply ScatterFacts.where1_cons. Qed.

Lemma count2_cons (row : list bool) (plane : list (list bool)) :
  count2 (row :: plane) = (count1 row + count2 plane)%nat.
Proof. unfold count2, count1. apply ScatterFacts.where2_cons. Qed.

Lemma count_cons (plane : list (list bool)) (m : mask3) :
  count (plane :: m) = (count2 plane + count m)%nat.
Proof. unfold count, where_, count2. apply ScatterFacts.where3_cons. Qed.

(** A mask cleared outside [m] and read back through [m] keeps all its
    active entries: row, plane, volume. *)
Lemma gather1_cleared (r : list bool) :
  forall m : list bool,
    count1 (gather1
              (map2 (fun b inside => if negb inside then false else b) r m)
              m)
    = count1 (map2 (fun b inside => if negb inside then false else b) r m).
Proof.
  unfold gather1.
  induction r as [|b r IH]; intros [|inside m]; cbn [map2 List.concat];
    try reflexivity.
  rewrite count1_app, count1_cons, IH.
  destruct inside, b; reflexivity.
Qed.

Lemma gather2_cleared (p : list (list bool)) :
  forall mp : list (list bool),
    count1 (List.concat
              (map2 gather1
                 (map2 (map2 (fun b inside =>
                                if negb inside then false else b)) p mp)
                 mp))
    = count2 (map2 (map2 (fun b inside =>
                            if negb inside then false else b)) p mp).
Proof.
  induction p as [|r p IH]; intros [|m mp]; cbn [map2 List.concat];
    try reflexivity.
  rewrite count1_app, count2_cons, IH, gather1_cleared. reflexivity.
Qed.

Lemma gather3_cleared (raw : mask3) :
  forall mask : mask3,
    count1 (List.concat
              (map2 (fun p mp => List.concat (map2 gather1 p mp))
                 (map2_3 (fun b inside => if negb inside then false else b)
                    raw mask)
                 mask))
    = count (map2_3 (fun b inside => if negb inside then false else b)
               raw mask).
Proof.
  unfold map2_3.
  induction raw as [|p raw IH]; intros [|mp mask]; cbn [map2 List.concat];
    try reflexivity.
  rewrite count1_app, count_cons, IH, gather2_cleared. reflexivity.
Qed.

Lemma select_columns_shape (support : list bool) (X : list (list Q)) :
  forall X', select_columns X support = Ok X' ->
             List.length X' = List.length X
             /\ Forall (fun row => List.length row = count1 support) X'.
Proof.
  induction X as [|row X IH]; intros X' H; cbn [select_columns] in H.
  - injection H as <-. split; [ reflexivity | constructor ].
  - unfold select_row in H.
    destruct (List.length row =? List.length support)%nat eqn:E;
      cbn [bind] in H; [ | discriminate ].
    apply Nat.eqb_eq in E.
    destruct (select_columns X support) as [rs|e]; cbn [bind] in H;
      [ | discriminate ].
    injection H as <-. destruct (IH rs eq_refl) as [Hlen Hall].
    split; [ cbn; rewrite Hlen; reflexivity | ].
    constructor; [ | exact Hall ].
    apply PathLengthFacts.length_gather1, E.
Qed.

(** X18: whenever [_univariate_feature_screening] returns, the screened
    data have as many samples as before and one column per active voxel of
    the screened mask, and [support] marks exactly that many features: the
    invariant [mask.sum() == X.shape[1]] survives the screening. *)
Theorem screening_keeps_one_column_per_voxel
    (gaussian_filter : vol Q -> Q -> vol Q)
    (select_percentile : bool -> Q -> list (list Q) -> list Q -> list bool)
    (binary_erosion binary_dilation : mask3 -> mask3)
    (X : list (list Q)) (y : list Q) (mask : mask3) (is_classif : bool)
    (screening_percentile smooth : Q)
    (X' : list (list Q)) (mask_ : mask3) (support : list bool) :
  _univariate_feature_screening gaussian_filter select_percentile
    binary_erosion binary_dilation X y mask is_classif screening_percentile
    smooth = Ok (X', mask_, support) ->
  List.length support = count mask
  /\ count1 support = count mask_
  /\ List.length X' = List.length X
  /\ Forall (fun row => List.length row = count mask_) X'.
Proof.
  intros H.
  pose proof (PathLengthFacts.screening_support_length _ _ _ _ _ _ _ _ _ _
                _ _ _ H) as Hsup.
  unfold _univariate_feature_screening in H.
  destruct (smooth_rows gaussian_filter smooth X mask) as [sX|e];
    cbn [bind] in H; [ | discriminate ].
  destruct (scatter false mask _) as [m0|e]; cbn [bind] in H; [ | discriminate ].
  destruct (clear_outside (binary_dilation (binary_erosion m0)) mask)
    as [m1|e] eqn:Hclear; cbn [bind] in H; [ | discriminate ].
  destruct (gather m1 mask) as [sup|e] eqn:Hg; cbn [bind] in H;
    [ | discriminate ].
  destruct (select_columns X sup) as [Xs|e] eqn:Hsel; cbn [bind] in H;
    [ | discriminate ].
  injection H as <- <- <-.
  assert (Hcount : count1 sup = count m1).
  { unfold clear_outside in Hclear.
    destruct (same_shape (binary_dilation (binary_erosion m0)) mask);
      [ | discriminate ].
    injection Hclear as <-.
    unfold gather in Hg.
    destruct (same_shape _ mask); [ | discriminate ].
    injection Hg as <-. apply gather3_cleared. }
  destruct (select_columns_shape sup X Xs Hsel) as [Hlen Hall].
  split; [ exact Hsup | split; [ exact Hcount | split; [ exact Hlen | ] ] ].
  rewrite <- Hcount. exact Hall.
Qed.

Lemma screening_keeps_one_column_per_voxel_witness :
  exists X' mask_ support,
    _univariate_feature_screening (fun v _ => v)
      (fun _ _ _ _ => [true; false; true]) (fun m => m) (fun m => m)
      [[1; 2; 3]; [4; 5; 6]] [1; 2] [[[true; false]; [true; true]]]
      false 20 2 = Ok (X', mask_, support)
    /\ List.length support = 3%nat
    /\ count1 support = count mask_
    /\ List.length X' = 2%nat
    /\ Forall (fun row => List.length row = count mask_) X'.
Proof.
  eexists _, _, _. split; [ vm_compute; reflexivity | ].
  apply (screening_keeps_one_column_per_voxel (fun v _ => v)
           (fun _ _ _ _ => [true; false; true]) (fun m => m) (fun m => m)
           [[1; 2; 3]; [4; 5; 6]] [1; 2] [[[true; false]; [true; true]]]
           false 20 2).
  vm_compute. reflexivity.
Defined.

End ScreeningFacts.

(** ** Prediction without standardization *)

Module BatchFacts.
Import Estimator.
Unset Implicit Arguments.
Local Open Scope list_scope.
Local Open Scope R_scope.

Lemma predict_prepared_app (self : fitted) (A B : list (list R)) :
  predict_prepared self (A ++ B)
  = (a <- predict_prepared self A ;;
     b <- predict_prepared self B ;;
     Ok (concatenate a b)).
Proof.
  unfold predict_prepared.
  destruct (negb (is_classif self)); cbn [bind concatenate].
  - unfold affine_scores. rewrite map_app. reflexivity.
  - unfold decision_function. rewrite forallb_app.
    destruct (forallb _ A); cbn [andb bind]; [ | reflexivity ].
    destruct (forallb _ B); cbn [andb bind concatenate]; [ | reflexivity ].
    unfold affine_scores.
    destruct (List.length (coef_ self) =? 1)%nat; rewrite !map_app;
      reflexivity.
Qed.

(** X19: with [standardize=False] and a masker that transforms sample by
    sample, [predict] treats the samples one by one: the prediction for two
    batches put together is the two predictions put together, and it raises
    exactly when one of the two does. *)
Theorem predict_without_standardization_is_samplewise
    (self : fitted) (A B : list (list R)) :
  standardize self = false ->
  masker_transform self (A ++ B)
  = masker_transform self A ++ masker_transform self B ->
  predict self (A ++ B)
  = (a <- predict self A ;;
     b <- predict self B ;;
     Ok (concatenate a b)).
Proof.
  intros Hstd Hmask. unfold predict. rewrite Hstd, Hmask. cbn [bind].
  apply predict_prepared_app.
Qed.

Lemma predict_without_standardization_is_samplewise_witness :
  let self := mkFitted (fun X => X) false true [[1; -1]] [0] [4; 7]%nat
                [0; 0] [1; 1] in
  predict self ([[1; 2]] ++ [[2; 1]; [0; 0]])
  = (a <- predict self [[1; 2]] ;;
     b <- predict self [[2; 1]; [0; 0]] ;;
     Ok (concatenate a b)).
Proof.
  intros self.
  apply (predict_without_standardization_is_samplewise self);
    reflexivity.
Defined.

End BatchFacts.

(** ** [tv_l1_from_gradient] *)

Module TotalVariationFacts.
Import TotalVariation.
Unset Implicit Arguments.
Local Open Scope list_scope.
Local Open Scope R_scope.

Lemma sum_sqrt_nonneg (l : list R) : 0 <= Logistic.sum (map sqrt l).
Proof.
  induction l as [|x l IH]; cbn [map Logistic.sum]; [ lraR | ].
  pose proof (sqrt_pos x). lraR.
Qed.

Lemma sum_abs_nonneg (l : list R) : 0 <= Logistic.sum (map Rabs l).
Proof.
  induction l as [|x l IH]; cbn [map Logistic.sum]; [ lraR | ].
  pose proof (Rabs_pos x). lraR.
Qed.

Lemma sum_abs_scaled (c : R) (l : list R) :
  Logistic.sum (map Rabs (map (Rmult c) l))
  = Rabs c * Logistic.sum (map Rabs l).
Proof.
  induction l as [|x l IH]; cbn [map Logistic.sum]; [ ring | ].
  rewrite IH, Rabs_mult. ring.
Qed.

Lemma sum_sqrt_scaled (c : R) (l : list R) :
  Logistic.sum (map sqrt (map (Rmult (c * c)) l))
  = Rabs c * Logistic.sum (map sqrt l).
Proof.
  induction l as [|x l IH]; cbn [map Logistic.sum]; [ ring | ].
  rewrite IH. rewrite sqrt_mult_alt by apply Rle_0_sqr.
  change (c * c) with (Rsqr c). rewrite sqrt_Rsqr_abs. ring.
Qed.

Lemma map2_plus_scaled (k : R) (a : list R) :
  forall b, map2 Rplus (map (Rmult k) a) (map (Rmult k) b)
            = map (Rmult k) (map2 Rplus a b).
Proof.
  induction a as [|x a IH]; intros [|y b]; cbn [map map2];
    try reflexivity.
  rewrite IH. f_equal. ring.
Qed.

Lemma col_sums_of_scaled_squares (c : R) (p : nat) (ch : list (list R)) :
  Estimator.col_sums p (map (map Rsqr) (map (map (Rmult c)) ch))
  = map (Rmult (c * c)) (Estimator.col_sums p (map (map Rsqr) ch)).
Proof.
  induction ch as [|row ch IH]; cbn [map Estimator.col_sums].
  - induction p as [|p IHp]; cbn [repeat map]; [ reflexivity | ].
    rewrite <- IHp. f_equal. ring.
  - rewrite IH, <- map2_plus_scaled. f_equal.
    rewrite !map_map. apply map_ext. intros x. unfold Rsqr. ring.
Qed.

(** X20: whenever [tv_l1_from_gradient] returns, the energy is not
    negative, and multiplying the gradient by [c] multiplies the energy by
    [|c|]. *)
Theorem tv_l1_is_nonnegative_and_homogeneous
    (spatial_grad : list (list R)) (energy : R) :
  tv_l1_from_gradient spatial_grad = Ok energy ->
  0 <= energy
  /\ forall c : R,
       tv_l1_from_gradient (map (map (Rmult c)) spatial_grad)
       = Ok (Rabs c * energy).
Proof.
  unfold tv_l1_from_gradient.
  destruct (rev spatial_grad) as [|identity rest] eqn:Hrev;
    [ discriminate | ].
  intros [= <-]. split.
  - pose proof (sum_abs_nonneg identity).
    pose proof (sum_sqrt_nonneg
                  (Estimator.col_sums (List.length identity)
                     (map (map Rsqr) (Np.but_last spatial_grad)))).
    lraR.
  - intros c. rewrite <- map_rev, Hrev. cbn [map]. f_equal.
    unfold Np.but_last. rewrite length_map, firstn_map, length_map.
    rewrite col_sums_of_scaled_squares, sum_sqrt_scaled, sum_abs_scaled.
    ring.
Qed.

Lemma tv_l1_is_nonnegative_and_homogeneous_witness :
  exists energy,
    tv_l1_from_gradient [[3; 0]; [4; 1]; [-2; 5]] = Ok energy
    /\ 0 <= energy
    /\ forall c : R,
         tv_l1_from_gradient (map (map (Rmult c)) [[3; 0]; [4; 1]; [-2; 5]])
         = Ok (Rabs c * energy).
Proof.
  eexists. split; [ reflexivity | ].
  apply (tv_l1_is_nonnegative_and_homogeneous [[3; 0]; [4; 1]; [-2; 5]]).
  reflexivity.
Defined.

End TotalVariationFacts.

(** ** What [path_scores] reports *)

Module ReportFacts.
Import Float Mask SpaceNet.
Unset Implicit Arguments.
Local Open Scope list_scope.
Local Open Scope Q_scope.

Lemma sorted_descending_perm (alphas : list Q) :
  Permutation (sorted_descending alphas) alphas.
Proof.
  unfold sorted_descending.
  rewrite <- Permutation_rev. apply DriverFacts.sorted_perm.
Qed.

(** X21: whenever [path_scores] returns, the key comes back unchanged, the
    reported [best_alpha] is one of the alphas of the grid (the one given,
    or the one computed on the training data), and there is one test score
    per alpha; with an empty test set the only score is [nan] and
    [best_alpha] is the first alpha of the sorted grid. *)
Theorem path_scores_reports_an_alpha_of_the_grid
    (spearmanr pearsonr : list Q -> list Q -> float)
    (gaussian_filter : vol Q -> Q -> vol Q)
    (select_percentile : bool -> Q -> list (list Q) -> list Q -> list bool)
    (binary_erosion binary_dilation : mask3 -> mask3)
    (center_data :
       list (list Q) -> list Q -> list (list Q) * list Q * list Q * Q)
    (State : Type)
    (solver : list (list Q) -> list Q -> Q -> Q -> mask3 -> option State ->
              option EarlyStoppingCallback -> list Q * State)
    (alpha_grid :
       list (list Q) -> list Q -> Q -> nat -> Q -> bool -> result (list Q))
    (X : list (list Q)) (y : list Q) (mask : mask3)
    (alphas : option (list Q)) (l1_ratio : Q) (train test : list nat)
    (n_alphas : nat) (eps : Q) (is_classif : bool) (init : option State)
    (key : nat) (debias : bool) (Xmean : option (list Q)) (ymean : Q)
    (screening_percentile : Q) (verbose : nat)
    (scores : list float) (best_w : list Q) (best_alpha : Q) (key' : nat) :
  path_scores spearmanr pearsonr gaussian_filter select_percentile
    binary_erosion binary_dilation center_data solver alpha_grid
    X y mask alphas l1_ratio train test n_alphas eps is_classif init key
    debias Xmean ymean screening_percentile verbose
  = Ok (scores, best_w, best_alpha, key') ->
  key' = key
  /\ exists grid,
       (alphas = Some grid
        \/ (alphas = None
            /\ exists X_train y_train,
                 alpha_grid X_train y_train eps n_alphas l1_ratio is_classif
                 = Ok grid))
       /\ In best_alpha grid
       /\ match test with
          | [] => scores = [NaN]
                  /\ hd_error (sorted_descending grid) = Some best_alpha
          | _ :: _ => List.length scores = List.length grid
          end.
Proof.
  unfold path_scores. intros H.
  destruct (if (100 <? n_columns X)%nat
               && negb (Qle_bool 100 screening_percentile)
            then _ else _) as [[[X' mask'] support]|e];
    cbn [bind] in H; [ | discriminate ].
  destruct (_crop_mask mask') as [mask''|e]; cbn [bind] in H;
    [ | discriminate ].
  destruct (Np.take X' train) as [X_tr|e]; cbn [bind] in H; [ | discriminate ].
  destruct (Np.take y train) as [y_tr|e]; cbn [bind] in H; [ | discriminate ].
  destruct (Np.take X' test) as [X_te|e]; cbn [bind] in H; [ | discriminate ].
  destruct (Np.take y test) as [y_te|e]; cbn [bind] in H; [ | discriminate ].
  destruct (center_data X_tr y_tr) as [[[X_train y_train] X_mean] y_mean].
  destruct (match alphas with Some l => Ok l | None => _ end) as [grid|e]
    eqn:Hgrid; cbn [bind] in H; [ | discriminate ].
  destruct (sorted_descending grid) as [|a0 rest] eqn:Hsd; cbn [bind] in H;
    [ discriminate | ].
  destruct (if (0 <? List.length test)%nat then _ else _) as [st|e] eqn:Hloop;
    cbn [bind] in H; [ | discriminate ].
  destruct (solver X_train y_train (l_best_alpha st) l1_ratio mask''
              (l_best_init st) None) as [w0 st_].
  destruct (if debias then _ else _) as [w0'|e]; cbn [bind] in H;
    [ | discriminate ].
  destruct (match support with Some sup => _ | None => _ end) as [w1|e];
    cbn [bind] in H; [ | discriminate ].
  destruct (if (List.length w1 =? n_columns X)%nat then _ else _)
    as [out|e]; cbn [bind] in H; [ | discriminate ].
  injection H as <- <- <- <-.
  split; [ reflexivity | ]. exists grid.
  assert (Hperm : Permutation (a0 :: rest) grid)
    by (rewrite <- Hsd; apply sorted_descending_perm).
  split.
  { destruct alphas as [l|]; [ left; congruence | right ].
    split; [ reflexivity | ]. exists X_train, y_train. exact Hgrid. }
  destruct test as [|t test'].
  - cbn [List.length Nat.ltb Nat.leb] in Hloop. injection Hloop as <-.
    cbn [l_best_alpha l_test_scores List.length Nat.eqb app].
    split; [ | split; [ reflexivity | rewrite Hsd; reflexivity ] ].
    apply (Permutation_in _ Hperm). left. reflexivity.
  - cbn [List.length Nat.ltb Nat.leb Nat.eqb] in Hloop |- *.
    destruct (DriverFacts.alpha_loop_invariant _ _ _ _ _ _ _ _ _ _ _ _ _ _
                _ _ _ Hloop (or_introl eq_refl))
      as (new & Hn & Hlen & _ & _ & _ & Hcase).
    cbn [l_test_scores l_best_alpha l_best_score app] in Hn, Hcase.
    split.
    + apply (Permutation_in _ Hperm).
      destruct Hcase as [(_ & -> & _) | (_ & _ & Hin)];
        [ left; reflexivity | exact Hin ].
    + rewrite Hn, Hlen. apply Permutation_length, Hperm.
Qed.

Lemma path_scores_reports_an_alpha_of_the_grid_witness :
  exists scores best_w best_alpha key,
    path_scores corr_two_points corr_two_points (fun v _ => v)
      (fun _ _ _ _ => [true; true]) (fun m => m) (fun m => m)
      (fun X y => (X, y, [0; 0], 0))
      (fun (_ : list (list Q)) (_ : list Q) (alpha : Q) (_ : Q)
           (_ : mask3) (_ : option unit)
           (_ : option EarlyStoppingCallback) => ([alpha - 1; 0], tt))
      (fun _ _ _ _ _ _ => Ok [1])
      [[1; 0]; [2; 0]; [3; 1]] [1; 2; 3] [[[true; true]]]
      (Some [1 # 2; 2; 0]) (1 # 2) [0%nat] [1%nat; 2%nat] 10 (1 # 1000)
      false None 7 false None 0 20 0
    = Ok (scores, best_w, best_alpha, key)
    /\ key = 7%nat
    /\ In best_alpha [1 # 2; 2; 0]
    /\ List.length scores = 3%nat.
Proof.
  eexists _, _, _, _.
  assert (Hrun :
    path_scores corr_two_points corr_two_points (fun v _ => v)
      (fun _ _ _ _ => [true; true]) (fun m => m) (fun m => m)
      (fun X y => (X, y, [0; 0], 0))
      (fun (_ : list (list Q)) (_ : list Q) (alpha : Q) (_ : Q)
           (_ : mask3) (_ : option unit)
           (_ : option EarlyStoppingCallback) => ([alpha - 1; 0], tt))
      (fun _ _ _ _ _ _ => Ok [1])
      [[1; 0]; [2; 0]; [3; 1]] [1; 2; 3] [[[true; true]]]
      (Some [1 # 2; 2; 0]) (1 # 2) [0%nat] [1%nat; 2%nat] 10 (1 # 1000)
      false None 7 false None 0 20 0
    = Ok (_, _, _, _)) by (vm_compute; reflexivity).
  split; [ exact Hrun | ].
  destruct (path_scores_reports_an_alpha_of_the_grid _ _ _ _ _ _ _ _ _ _
              _ _ _ _ _ _ _ _ _ _ _ _ _ _ _ _ _ _ _ _ _ Hrun)
    as (Hkey & grid & [Hg|[Hg _]] & Hin & Hlen); [ | discriminate ].
  injection Hg as <-.
  split; [ exact Hkey | split; [ exact Hin | exact Hlen ] ].
Defined.

End ReportFacts.

(** ** Prediction: the batch is centred and scaled by its own statistics *)

Module BatchStatisticsFacts.
Import Estimator.
Unset Implicit Arguments.
Local Open Scope list_scope.
Local Open Scope R_scope.

(** C10: with [standardize=True], whenever [predict] returns on a batch
    with [p] columns (after masking), the prediction is the one made on the
    batch centred by its own column means and scaled by its own column
    deviations, spelled out entry by entry; the stored training-time
    [Xmean] and [Xstd] play no part.  So with an identity masker and slope
    1 the sample [[0]] is predicted [-1] next to [[2]] and [+1] next to
    [[-2]]. *)
Theorem predict_depends_on_the_batch :
  (forall (self : fitted) (X : list (list R)) (p : nat)
          (y_pred : prediction),
      standardize self = true ->
      Forall (fun row => List.length row = p) (masker_transform self X) ->
      predict self X = Ok y_pred ->
      let batch := masker_transform self X in
      let n := INR (List.length batch) in
      exists (X' : list (list R)) (mu sigma : list R),
        predict_prepared self X' = Ok y_pred
        /\ List.length X' = List.length batch
        /\ (forall j, (j < p)%nat ->
              nth j mu 0
              = fold_right Rplus 0 (map (fun row => nth j row 0) batch) / n
              /\ nth j sigma 0
                 = sqrt (fold_right Rplus 0
                           (map (fun row => Rsqr (nth j row 0 - nth j mu 0))
                              batch)
                         / n)
              /\ nth j sigma 0 <> 0
              /\ forall i, (i < List.length batch)%nat ->
                   nth j (nth i X' []) 0
                   = (nth j (nth i batch []) 0 - nth j mu 0) / nth j sigma 0)
        /\ forall Xmean Xstd : list R,
             predict (with_training_statistics self Xmean Xstd) X
             = Ok y_pred)
  /\ (standardize unit_slope = true
      /\ (forall X, masker_transform unit_slope X = X)
      /\ predict unit_slope [[0]; [2]] = Ok (Values [[- (1)]; [1]])
      /\ predict unit_slope [[- (2)]; [0]] = Ok (Values [[- (1)]; [1]])
      /\ nth 0 [[- (1)]; [1]] [] <> nth 1 [[- (1)]; [1]] []).
Proof.
  split.
  - intros self X p y_pred Hstd Hall Hpred batch n.
    assert (Hsame : forall Xmean Xstd : list R,
              predict (with_training_statistics self Xmean Xstd) X
              = predict self X) by reflexivity.
    unfold predict in Hpred. rewrite Hstd in Hpred. fold batch in Hpred.
    destruct (_standardize_X batch) as [[[X' mu] sigma]|e] eqn:Hs;
      cbn [bind fst] in Hpred; [ | discriminate ].
    destruct (StandardizeFacts.standardize_X_entries p batch X' mu sigma
                Hall Hs) as [Hlen Hentries].
    exists X', mu, sigma.
    split; [ exact Hpred | split; [ exact Hlen | split ] ].
    + exact Hentries.
    + intros Xmean Xstd. rewrite Hsame. unfold predict.
      rewrite Hstd. fold batch. rewrite Hs. exact Hpred.
  - split; [ reflexivity | split; [ reflexivity | ] ].
    split; [ exact PredictFacts.predict_low_batch | ].
    split; [ exact PredictFacts.predict_high_batch | ].
    cbn. intros H. injection H as H. lraR.
Qed.

Lemma predict_depends_on_the_batch_witness :
  exists (X' : list (list R)) (mu sigma : list R),
    predict_prepared unit_slope X' = Ok (Values [[- (1)]; [1]])
    /\ List.length X' = 2%nat
    /\ nth 0 mu 0 = (0 + (2 + 0)) / INR 2
    /\ nth 0 sigma 0 <> 0
    /\ nth 0 (nth 0 X' []) 0 = (0 - nth 0 mu 0) / nth 0 sigma 0.
Proof.
  assert (Hall : Forall (fun row : list R => List.length row = 1%nat)
                   (masker_transform unit_slope [[0]; [2]]))
    by (repeat constructor).
  destruct (proj1 predict_depends_on_the_batch unit_slope [[0]; [2]] 1%nat
              (Values [[- (1)]; [1]]) eq_refl Hall
              PredictFacts.predict_low_batch)
    as (X' & mu & sigma & Hp & Hl & He & _).
  destruct (He 0%nat (Nat.lt_0_succ 0)) as (Hmu & _ & Hs & Hx).
  exists X', mu, sigma.
  split; [ exact Hp | split; [ exact Hl | split; [ exact Hmu | ] ] ].
  split; [ exact Hs | exact (Hx 0%nat (Nat.lt_0_succ 1)) ].
Defined.

End BatchStatisticsFacts.

(** ** Constant weight maps and the reported alpha *)

Module ConstantMapFacts.
Import Float Mask SpaceNet.
Unset Implicit Arguments.
Local Open Scope list_scope.
Local Open Scope Q_scope.

(** The alpha the loop has recorded is paired with its own score: either
    nothing was recorded, or the recorded alpha sits at some position of
    the grid and the score appended at that position is the best score, and
    is finite. *)
Lemma alpha_loop_pairs
    (spearmanr pearsonr : list Q -> list Q -> float) (State : Type)
    (solver : list (list Q) -> list Q -> Q -> Q -> mask3 -> option State ->
              option EarlyStoppingCallback -> list Q * State)
    (X_train : list (list Q)) (y_train : list Q)
    (X_test : list (list Q)) (y_test : list Q) (l1_ratio : Q)
    (mask : mask3) (is_classif debias : bool) (ymean : Q) (verbose : nat)
    (alphas : list Q) :
  forall st st' : loop_state State,
    alpha_loop
      (loop_body spearmanr pearsonr solver X_train y_train X_test y_test
         l1_ratio mask is_classif debias ymean verbose) st alphas = Ok st' ->
    exists new,
      l_test_scores st' = l_test_scores st ++ new
      /\ List.length new = List.length alphas
      /\ ((l_best_alpha st' = l_best_alpha st
           /\ l_best_score st' = l_best_score st)
          \/ exists i,
               nth_error alphas i = Some (l_best_alpha st')
               /\ nth_error new i = Some (l_best_score st')
               /\ isfinite (l_best_score st') = true).
Proof.
  induction alphas as [|alpha alphas IH]; intros st st' Hloop.
  - cbn in Hloop. injection Hloop as <-. exists [].
    rewrite app_nil_r. split; [ reflexivity | split; [ reflexivity | ] ].
    left. split; reflexivity.
  - cbn [alpha_loop] in Hloop.
    destruct (loop_body spearmanr pearsonr solver X_train y_train X_test
                y_test l1_ratio mask is_classif debias ymean verbose st alpha)
      as [st1|e] eqn:Hbody; cbn [bind] in Hloop; [ | discriminate ].
    destruct (DriverFacts.loop_body_cases _ _ _ _ _ _ _ _ _ _ _ _ _ _
                st st1 alpha Hbody)
      as (score & sec & Hsc & Hcase).
    destruct (IH st1 st' Hloop) as (new & Hn & Hlen & Hrest).
    exists (score :: new). rewrite Hn, Hsc, <- app_assoc. cbn [app].
    split; [ reflexivity | split; [ cbn; lia | ] ].
    destruct Hrest as [[Ha Hb] | (i & Hi & Hs & Hf)].
    + destruct Hcase as [(Hsel & Hb1 & Ha1) | (Hsel & Hb1 & Ha1)].
      * right. exists 0%nat. rewrite Ha, Hb, Ha1, Hb1. cbn [nth_error].
        split; [ reflexivity | split; [ reflexivity | ] ].
        exact (proj1 (DriverFacts.selects_true State score sec st Hsel)).
      * left. rewrite Ha, Hb, Ha1, Hb1. split; reflexivity.
    + right. exists (S i). cbn [nth_error].
      split; [ exact Hi | split; [ exact Hs | exact Hf ] ].
Qed.

(** C6 (as stated) fails: a solver that returns the constant map [[1, 1]]
    for every alpha scores [-inf] twice, and [path_scores] still reports
    [best_alpha = 2], the first alpha of the sorted grid [[2, 1/2]], which
    was pre-loaded before the loop. *)
Lemma first_alpha_is_reported_despite_minus_infinity :
  test_score corr_two_points corr_two_points
    (EarlyStoppingCallback_init [[2; 0]; [3; 1]] [2; 3] false false 0 0)
    [1; 1] = Ok (NegInf, NegInf)
  /\ path_scores corr_two_points corr_two_points (fun v _ => v)
       (fun _ _ _ _ => [true; true]) (fun m => m) (fun m => m)
       (fun X y => (X, y, [0; 0], 0))
       (fun (_ : list (list Q)) (_ : list Q) (_ _ : Q) (_ : mask3)
            (_ : option unit) (_ : option EarlyStoppingCallback) =>
          ([1; 1], tt))
       (fun _ _ _ _ _ _ => Ok [1])
       [[1; 0]; [2; 0]; [3; 1]] [1; 2; 3] [[[true; true]]]
       (Some [1 # 2; 2]) (1 # 2) [0%nat] [1%nat; 2%nat] 10 (1 # 1000)
       false None 7 false None 0 20 0
     = Ok ([NegInf; NegInf], [1; 1; 0], 2, 7%nat).
Proof. split; vm_compute; reflexivity. Qed.

(** C6 (amended): a weight map whose coefficients (without the intercept,
    for classification) have zero peak-to-peak range scores
    [(-inf, -inf)]; the selection update refuses a score of [-inf], so the
    iteration of [path_scores] that meets such a map appends [-inf] to the
    scores and leaves [best_alpha], [best_score] and [best_init] as they
    were.  Hence whenever [path_scores] returns, the reported [best_alpha]
    is the pre-loaded first alpha of the sorted grid, or an alpha whose own
    recorded score is finite: an alpha that scored [-inf] is reported only
    as that pre-loaded default. *)
Theorem constant_map_is_never_selected
    (spearmanr pearsonr : list Q -> list Q -> float)
    (self : EarlyStoppingCallback) (w : list Q) (range : Q) :
  Np.ptp (if is_classif self then Np.but_last w else w) = Ok range ->
  range == 0 ->
  test_score spearmanr pearsonr self w = Ok (NegInf, NegInf)
  /\ (forall (State : Type) (secundary : float) (st : loop_state State),
        selects NegInf secundary st = false)
  /\ (forall (State : Type)
        (solver : list (list Q) -> list Q -> Q -> Q -> mask3 -> option State ->
                  option EarlyStoppingCallback -> list Q * State)
        (X_train : list (list Q)) (y_train : list Q) (l1_ratio : Q)
        (mask : mask3) (st : loop_state State) (alpha : Q),
        fst (solver X_train y_train alpha l1_ratio mask (l_init st)
               (Some (fresh self))) = w ->
        exists st',
          loop_body spearmanr pearsonr solver X_train y_train (X_test self)
            (y_test self) l1_ratio mask (is_classif self) (debias self)
            (ymean self) (verbose self) st alpha = Ok st'
          /\ l_test_scores st' = l_test_scores st ++ [NegInf]
          /\ l_best_alpha st' = l_best_alpha st
          /\ l_best_score st' = l_best_score st
          /\ l_best_secundary_score st' = l_best_secundary_score st
          /\ l_best_init st' = l_best_init st)
  /\ (forall (gaussian_filter : vol Q -> Q -> vol Q)
        (select_percentile :
           bool -> Q -> list (list Q) -> list Q -> list bool)
        (binary_erosion binary_dilation : mask3 -> mask3)
        (center_data :
           list (list Q) -> list Q -> list (list Q) * list Q * list Q * Q)
        (State : Type)
        (solver : list (list Q) -> list Q -> Q -> Q -> mask3 -> option State ->
                  option EarlyStoppingCallback -> list Q * State)
        (alpha_grid :
           list (list Q) -> list Q -> Q -> nat -> Q -> bool ->
           result (list Q))
        (X : list (list Q)) (y : list Q) (mask : mask3)
        (alphas : option (list Q)) (l1_ratio : Q) (train test : list nat)
        (n_alphas : nat) (eps : Q) (is_classif : bool)
        (init : option State) (key : nat) (debias : bool)
        (Xmean : option (list Q)) (ymean : Q) (screening_percentile : Q)
        (verbose : nat) (scores : list float) (best_w : list Q)
        (best_alpha : Q) (key' : nat),
        path_scores spearmanr pearsonr gaussian_filter select_percentile
          binary_erosion binary_dilation center_data solver alpha_grid
          X y mask alphas l1_ratio train test n_alphas eps is_classif init
          key debias Xmean ymean screening_percentile verbose
        = Ok (scores, best_w, best_alpha, key') ->
        exists grid,
          (alphas = Some grid
           \/ (alphas = None
               /\ exists X_train y_train,
                    alpha_grid X_train y_train eps n_alphas l1_ratio
                      is_classif = Ok grid))
          /\ (hd_error (sorted_descending grid) = Some best_alpha
              \/ exists (i : nat) (score : float),
                   nth_error (sorted_descending grid) i = Some best_alpha
                   /\ nth_error scores i = Some score
                   /\ isfinite score = true)).
Proof.
  intros Hptp Hzero. split; [ | split; [ | split ] ].
  - exact (SelectionFacts.test_score_constant spearmanr pearsonr self w
             Hptp Hzero).
  - intros State secundary st.
    apply SelectionFacts.selects_needs_finite. reflexivity.
  - intros State solver X_train y_train l1_ratio mask st alpha Hw.
    apply SelectionFacts.loop_body_non_finite with (secundary := NegInf);
      [ | reflexivity ].
    fold (fresh self). rewrite Hw.
    exact (SelectionFacts.test_score_constant spearmanr pearsonr (fresh self)
             w Hptp Hzero).
  - intros gaussian_filter select_percentile binary_erosion binary_dilation
      center_data State solver alpha_grid X y mask alphas l1_ratio train test
      n_alphas eps is_classif init key debias Xmean ymean
      screening_percentile verbose scores best_w best_alpha key'.
    unfold path_scores. intros H.
    destruct (if (100 <? n_columns X)%nat
                 && negb (Qle_bool 100 screening_percentile)
              then _ else _) as [[[X' mask'] support]|e];
      cbn [bind] in H; [ | discriminate ].
    destruct (_crop_mask mask') as [mask''|e]; cbn [bind] in H;
      [ | discriminate ].
    destruct (Np.take X' train) as [X_tr|e]; cbn [bind] in H;
      [ | discriminate ].
    destruct (Np.take y train) as [y_tr|e]; cbn [bind] in H;
      [ | discriminate ].
    destruct (Np.take X' test) as [X_te|e]; cbn [bind] in H;
      [ | discriminate ].
    destruct (Np.take y test) as [y_te|e]; cbn [bind] in H;
      [ | discriminate ].
    destruct (center_data X_tr y_tr) as [[[X_train y_train] X_mean] y_mean].
    destruct (match alphas with Some l => Ok l | None => _ end) as [grid|e]
      eqn:Hgrid; cbn [bind] in H; [ | discriminate ].
    destruct (sorted_descending grid) as [|a0 rest] eqn:Hsd;
      cbn [bind] in H; [ discriminate | ].
    destruct (if (0 <? List.length test)%nat then _ else _) as [st|e]
      eqn:Hloop; cbn [bind] in H; [ | discriminate ].
    destruct (solver X_train y_train (l_best_alpha st) l1_ratio mask''
                (l_best_init st) None) as [w0 st_].
    destruct (if debias then _ else _) as [w0'|e]; cbn [bind] in H;
      [ | discriminate ].
    destruct (match support with Some sup => _ | None => _ end) as [w1|e];
      cbn [bind] in H; [ | discriminate ].
    destruct (if (List.length w1 =? n_columns X)%nat then _ else _)
      as [out|e]; cbn [bind] in H; [ | discriminate ].
    injection H as <- <- <- <-.
    exists grid. split.
    { destruct alphas as [l|]; [ left; congruence | right ].
      split; [ reflexivity | ]. exists X_train, y_train. exact Hgrid. }
    rewrite Hsd.
    destruct test as [|t test'].
    + cbn [List.length Nat.ltb Nat.leb] in Hloop. injection Hloop as <-.
      left. reflexivity.
    + cbn [List.length Nat.ltb Nat.leb Nat.eqb] in Hloop |- *.
      destruct (alpha_loop_pairs _ _ _ _ _ _ _ _ _ _ _ _ _ _ _ _ _ Hloop)
        as (new & Hn & _ & Hcase).
      cbn [l_test_scores l_best_alpha l_best_score app] in Hn, Hcase.
      destruct Hcase as [[Ha _] | (i & Hi & Hs & Hf)].
      * left. rewrite Ha. reflexivity.
      * right. exists i, (l_best_score st). rewrite Hn.
        split; [ exact Hi | split; [ exact Hs | exact Hf ] ].
Qed.

Lemma constant_map_is_never_selected_witness :
  Np.ptp [3; 3] = Ok (0 # 1)
  /\ test_score corr_two_points corr_two_points
       (EarlyStoppingCallback_init [[1; 0]; [2; 0]] [1; 2] true false 0 0)
       [3; 3; 7] = Ok (NegInf, NegInf).
Proof.
  split; [ reflexivity | ].
  apply (constant_map_is_never_selected corr_two_points corr_two_points
           (EarlyStoppingCallback_init [[1; 0]; [2; 0]] [1; 2] true false 0 0)
           [3; 3; 7] (0 # 1)).
  - reflexivity.
  - reflexivity.
Defined.

End ConstantMapFacts.

(** ** The first alpha of the grid in double precision *)

Module Binary64Facts.
Import Binary64.
Unset Implicit Arguments.
Local Open Scope list_scope.
Local Open Scope Z_scope.

Lemma double_eq_dec (a b : double) : {a = b} + {a <> b}.
Proof.
  destruct a as [m e], b as [m' e'].
  destruct (Z.eq_dec m m') as [->|Hm]; [ | right; congruence ].
  destruct (Z.eq_dec e e') as [->|He]; [ left; reflexivity | right; congruence ].
Qed.

(** The doubles of the binade [[4, 8)]. *)
Lemma binade_4_8 (d : double) :
  binade (-50) d -> (4 <= value d)%Q /\ (value d < 8)%Q.
Proof.
  intros [He Hm]. unfold value. rewrite He.
  change (Qpower 2 (-50)) with (1 # 1125899906842624)%Q.
  unfold Qle, Qlt, Qmult, inject_Z. cbn [Qnum Qden].
  change (2 ^ 52) with 4503599627370496 in Hm.
  change (2 ^ 53) with 9007199254740992 in Hm.
  lia.
Qed.

(** The mantissas of the doubles of [[1/2, 1)] that lie in [[0.6, 0.91]]. *)
Lemma mantissa_between (d : double) :
  binade (-53) d -> (6 # 10 <= value d)%Q -> (value d <= 91 # 100)%Q ->
  5404319552844595 <= mantissa d <= 8196551321814303.
Proof.
  intros [He Hm] Hlo Hhi. unfold value in *. rewrite He in *.
  change (Qpower 2 (-53)) with (1 # 9007199254740992)%Q in *.
  unfold Qle, Qmult, inject_Z in *. cbn [Qnum Qden] in *.
  lia.
Qed.

Lemma bounded_search (P : Z -> Prop) (dec : forall k, {P k} + {~ P k})
    (N : Z) :
  0 <= N ->
  (exists k, 0 <= k < N /\ P k) \/ (forall k, 0 <= k < N -> ~ P k).
Proof.
  intros HN. pattern N. apply natlike_ind; [ | | exact HN ].
  - right. intros k Hk. lia.
  - intros n Hn [(k & Hk & HP) | Hnone].
    + left. exists k. split; [ lia | exact HP ].
    + destruct (dec n) as [HP | HP].
      * left. exists n. split; [ lia | exact HP ].
      * right. intros k Hk.
        destruct (Z.eq_dec k n) as [-> | Hne]; [ exact HP | ].
        apply Hnone. lia.
Qed.

(** A function from [N] integers into fewer than [N] values takes one value
    twice. *)
Lemma pigeonhole (M : Z) :
  0 <= M ->
  forall (N : Z) (f : Z -> Z),
    M < N ->
    (forall k, 0 <= k < N -> 0 <= f k < M) ->
    exists i j, 0 <= i < j /\ j < N /\ f i = f j.
Proof.
  intros HM. pattern M. apply natlike_ind; [ | | exact HM ]; clear M HM.
  - intros N f HN Hf. specialize (Hf 0). lia.
  - intros M HM IH N f HN Hf.
    destruct (bounded_search (fun k => f k = M)
                (fun k => Z.eq_dec (f k) M) N)
      as [(k0 & Hk0 & Hfk0) | Hnone]; [ lia | | ].
    + destruct (bounded_search (fun k => k <> k0 /\ f k = M)
                  (fun k =>
                     match Z.eq_dec k k0, Z.eq_dec (f k) M with
                     | left e, _ => right (fun H => proj1 H e)
                     | right n, left e => left (conj n e)
                     | right _, right n => right (fun H => n (proj2 H))
                     end) N)
        as [(k1 & Hk1 & Hne & Hfk1) | Hnone]; [ lia | | ].
      * destruct (Z_lt_le_dec k0 k1).
        -- exists k0, k1. repeat split; lia.
        -- exists k1, k0. repeat split; lia.
      * set (g := fun k => if k <? k0 then f k else f (k + 1)).
        destruct (IH (N - 1) g) as (i & j & Hij & Hj & Hg); [ lia | | ].
        { intros k Hk. unfold g.
          destruct (Z.ltb_spec k k0).
          - assert (f k <> M)
              by (intros E; apply (Hnone k);
                  [ lia | split; [ lia | exact E ] ]).
            specialize (Hf k). lia.
          - assert (f (k + 1) <> M)
              by (intros E; apply (Hnone (k + 1));
                  [ lia | split; [ lia | exact E ] ]).
            specialize (Hf (k + 1)). lia. }
        unfold g in Hg.
        destruct (Z.ltb_spec i k0), (Z.ltb_spec j k0).
        -- exists i, j. repeat split; lia.
        -- exists i, (j + 1). repeat split; lia.
        -- lia.
        -- exists (i + 1), (j + 1). repeat split; lia.
    + apply (IH N f); [ lia | ].
      intros k Hk. specialize (Hf k Hk). specialize (Hnone k Hk). lia.
Qed.

(** No [log10] on doubles is one-to-one on [[4, 8)]: the binade holds
    [2 ^ 52 = 4503599627370496] doubles, and only [2792231768969709]
    doubles lie in [[0.6, 0.91]] (mantissas [5404319552844595] to
    [8196551321814303] at exponent [-53]). *)
Lemma log10_collides (log10 : double -> double) :
  plausible_log10 log10 ->
  exists a b, binade (-50) a /\ binade (-50) b /\ a <> b
              /\ log10 a = log10 b.
Proof.
  intros Hlog.
  assert (Hin : forall k, 0 <= k < 4503599627370496 ->
            binade (-50) (mkDouble (4503599627370496 + k) (-50))).
  { intros k Hk. split; [ reflexivity | ]. cbn [mantissa].
    change (2 ^ 52) with 4503599627370496.
    change (2 ^ 53) with 9007199254740992. lia. }
  destruct (pigeonhole 2792231768969709 ltac:(lia) 4503599627370496
              (fun k => mantissa (log10 (mkDouble (4503599627370496 + k)
                                           (-50)))
                        - 5404319552844595))
    as (i & j & Hij & Hj & Hf); [ lia | | ].
  { intros k Hk. destruct (Hlog _ (Hin k Hk)) as (Hb & Hlo & Hhi).
    pose proof (mantissa_between _ Hb Hlo Hhi). lia. }
  exists (mkDouble (4503599627370496 + i) (-50)),
    (mkDouble (4503599627370496 + j) (-50)).
  split; [ apply Hin; lia | split; [ apply Hin; lia | split ] ].
  - intros E. apply (f_equal mantissa) in E. cbn [mantissa] in E. lia.
  - destruct (Hlog _ (Hin i ltac:(lia))) as ([Hei _] & _).
    destruct (Hlog _ (Hin j ltac:(lia))) as ([Hej _] & _).
    destruct (log10 (mkDouble (4503599627370496 + i) (-50))) as [mi ei].
    destruct (log10 (mkDouble (4503599627370496 + j) (-50))) as [mj ej].
    cbn [mantissa exponent] in *. f_equal; lia.
Qed.

(** Every double [a] of [[4, 8)] is a computed [alpha_max]: that of the
    one-sample design [[[a]]] with target [[1]] and [l1_ratio = 1], where
    the products and the quotient are by one. *)
Lemma every_double_is_an_alpha_max (a : double) :
  binade (-50) a ->
  exists alpha_max : Q,
    AlphaGrid.scaled_alpha_max [[value a]] [1%Q] 1%Q false = Ok alpha_max
    /\ (alpha_max == value a)%Q /\ (0 < alpha_max)%Q.
Proof.
  intros Ha. destruct (binade_4_8 a Ha) as [H4 H8].
  unfold AlphaGrid.scaled_alpha_max, AlphaGrid.raw_alpha_max,
    AlphaGrid.max_abs_XT_dot, AlphaGrid.XT_dot.
  cbn [List.length Nat.eqb bind AlphaGrid.XT_dot_aligned AlphaGrid.vscale
       map Np.max fold_left].
  destruct (Qeq_bool (AlphaGrid.divisor [[value a]] 1) 0) eqn:Hd.
  - apply Qeq_bool_iff in Hd. unfold AlphaGrid.divisor in Hd.
    vm_compute in Hd. discriminate.
  - eexists. split; [ reflexivity | ].
    assert (Habs : (Np.Qabs' (1 * value a) == value a)%Q).
    { unfold Np.Qabs'.
      replace (Qle_bool 0 (1 * value a)) with true
        by (symmetry; apply Qle_bool_iff; lraQ).
      ring. }
    assert (Hdiv : (AlphaGrid.divisor [[value a]] 1 == 1)%Q)
      by reflexivity.
    rewrite Habs, Hdiv. split; [ field | ].
    setoid_replace (value a / 1)%Q with (value a) by field. lraQ.
Qed.

(** C2 (as stated) fails in double precision.  Every double of [[4, 8)] is
    a computed alpha_max, and for [n_alphas >= 2] the grid starts at
    [10 ** log10(alpha_max)].  Whatever the library's [log10] and [10 ** x]
    (as long as [log10] is right to two decimals), two doubles of
    [[4, 8)] share one logarithm, so for one of them the first entry of
    the grid is not alpha_max. *)
Lemma grid_head_is_not_alpha_max_in_doubles :
  (exists log10 : double -> double, plausible_log10 log10)
  /\ (forall a, binade (-50) a ->
        exists alpha_max : Q,
          AlphaGrid.scaled_alpha_max [[value a]] [1%Q] 1%Q false
          = Ok alpha_max
          /\ (alpha_max == value a)%Q /\ (0 < alpha_max)%Q)
  /\ forall (log10 pow10 : double -> double) (n_alphas : nat),
       plausible_log10 log10 -> (2 <= n_alphas)%nat ->
       exists alpha_max,
         binade (-50) alpha_max
         /\ (4 <= value alpha_max)%Q /\ (value alpha_max < 8)%Q
         /\ grid_head log10 pow10 n_alphas alpha_max <> Some alpha_max.
Proof.
  split; [ | split ].
  - exists (fun _ => mkDouble 6755399441055744 (-53)).
    intros a _. split; [ | split ].
    + split; [ reflexivity | ]. cbn [mantissa].
      change (2 ^ 52) with 4503599627370496.
      change (2 ^ 53) with 9007199254740992. lia.
    + vm_compute. discriminate.
    + vm_compute. discriminate.
  - exact every_double_is_an_alpha_max.
  - intros log10 pow10 n_alphas Hlog Hn.
    destruct (log10_collides log10 Hlog) as (a & b & Ha & Hb & Hne & Heq).
    assert (Hhead : forall d, grid_head log10 pow10 n_alphas d
                              = Some (pow10 (log10 d))).
    { intros d. destruct n_alphas as [|[|n]]; [ lia | lia | reflexivity ]. }
    destruct (double_eq_dec (pow10 (log10 a)) a) as [Ea|Ea].
    + exists b. destruct (binade_4_8 b Hb) as [H4 H8].
      split; [ exact Hb | split; [ exact H4 | split; [ exact H8 | ] ] ].
      rewrite Hhead, <- Heq, Ea. intros E. injection E as E. congruence.
    + exists a. destruct (binade_4_8 a Ha) as [H4 H8].
      split; [ exact Ha | split; [ exact H4 | split; [ exact H8 | ] ] ].
      rewrite Hhead. intros E. injection E as E. exact (Ea E).
Qed.

End Binary64Facts.
